(** * Nanoparticle aggregation: the particle update of [Main.cpp]

    A shallow embedding of the simulation core of [src/Main.cpp]
    ([Particle], [initializeSimulation], [distance], [updateParticles])
    and the properties stated for it.

    Arithmetic.  The program computes on C++ [float].  It is modelled as IEEE-754
    binary32 (24 bits of precision, round to nearest even, every operation
    rounded to [float]) through the executable specification of the Standard
    Library, [SpecFloat], instantiated at [prec = 24] and [emax = 128].
    [sqrt] is the correctly rounded square root (the program calls the
    [double] overload on a [float] sum and converts the result to [float]: the
    same value, 53 bits being more than twice 24 plus 2).  The integer expressions
    [rand() % 100 - 50] stay far inside [int]; [%] truncates as in C++
    ([Z.rem]).

    Randomness.  [rand] is the sequence of values that [rand()] returns after
    [srand]; a state carries the number of calls made so far.

    Contents.  The model; the vocabulary of the properties; the structure of
    a pass and of a run; the properties of attachment, of the search, of the
    boundary, of the two scenarios, of the normalisation and of the order of
    the particles; then bounds on the rounding of [SpecFloat], from which a
    run is shown to stay within the finite floats, and the properties that
    rest on it. *)

From Stdlib Require Import ZArith Zpower Bool Lia.
From Stdlib Require Import Floats.SpecFloat.
From stdpp Require Import base list.

Local Open Scope Z_scope.

(** ** binary32 *)

Module F32.

Definition prec : Z := 24.
Definition emax : Z := 128.

Abbreviation float := spec_float.

Definition add : float -> float -> float := SFadd prec emax.
Definition sub : float -> float -> float := SFsub prec emax.
Definition mul : float -> float -> float := SFmul prec emax.
Definition div : float -> float -> float := SFdiv prec emax.
Definition sqrt : float -> float := SFsqrt prec emax.
Definition neg : float -> float := SFopp.

(** [a < b]; every comparison with a NaN is false. *)
Definition lt : float -> float -> bool := SFltb.
Definition le : float -> float -> bool := SFleb.
Definition feq : float -> float -> bool := SFeqb.

(** Conversion of an [int] to [float]. *)
Definition of_int (n : Z) : float := binary_normalize prec emax n 0 false.

(** The value of the decimal literal [num/den], for [num] and [den] that
    are floats themselves: the quotient rounded once. *)
Definition decimal (num den : Z) : float := div (of_int num) (of_int den).

Definition zero : float := S754_zero false.
Definition INFINITY : float := S754_infinity false.

Definition is_nan (a : float) : bool :=
  match a with S754_nan => true | _ => false end.

Definition is_finite (a : float) : bool :=
  match a with S754_zero _ | S754_finite _ _ _ => true | _ => false end.

End F32.

Import F32.

(** ** Simulation parameters (Main.cpp, lines 10-14, 81, 119) *)

(** [0.02f] *)
Definition PARTICLE_RADIUS : float := S754_finite false 10737418 (-29).
Definition NUM_PARTICLES : nat := 200.
(** [0.15f] *)
Definition ATTRACTION_RANGE : float := S754_finite false 10066330 (-26).
(** [0.005f] *)
Definition GROWTH_RATE : float := S754_finite false 10737418 (-31).
(** [0.001f] *)
Definition BROWNIAN_MOTION : float := S754_finite false 8589935 (-33).
(** [1.0f] *)
Definition BOUNDARY : float := S754_finite false 8388608 (-23).
(** [0.0005f] *)
Definition ATTRACTION_FORCE : float := S754_finite false 8589935 (-34).
(** [0.5f], the damping of a bounce, and [0.9f], the factor of the
    attachment threshold. *)
Definition half : float := S754_finite false 8388608 (-24).
Definition nine_tenths : float := S754_finite false 15099494 (-24).

(** ** Particle structure (lines 17-28) *)

Record Particle : Type := mkParticle {
  x : float; y : float; z : float;
  radius : float;
  isAttached : bool;
  dx : float; dy : float; dz : float
}.

(** The constructor [Particle(x, y, z, attached)]. *)
Definition newParticle (x0 y0 z0 : float) (attached : bool) : Particle :=
  mkParticle x0 y0 z0 PARTICLE_RADIUS attached zero zero zero.

Definition set_position (p : Particle) (x' y' z' : float) : Particle :=
  mkParticle x' y' z' (radius p) (isAttached p) (dx p) (dy p) (dz p).

Definition set_velocity (p : Particle) (dx' dy' dz' : float) : Particle :=
  mkParticle (x p) (y p) (z p) (radius p) (isAttached p) dx' dy' dz'.

Definition set_radius (p : Particle) (r : float) : Particle :=
  mkParticle (x p) (y p) (z p) r (isAttached p) (dx p) (dy p) (dz p).

(** The global vector [particles] together with the number of calls made
    to [rand()]. *)
Record World : Type := mkWorld {
  particles : list Particle;
  calls : nat
}.

(** ** distance (lines 59-64) *)

Definition distance (a b : Particle) : float :=
  let ddx := sub (x a) (x b) in
  let ddy := sub (y a) (y b) in
  let ddz := sub (z a) (z b) in
  sqrt (add (add (mul ddx ddx) (mul ddy ddy)) (mul ddz ddz)).

(** ** The body of the loop of updateParticles *)

(** Boundary check of one axis (lines 82-83): position and velocity
    component after the two tests. *)
Definition bounce (c v : float) : float * float :=
  let cv := if lt c (neg BOUNDARY) then (neg BOUNDARY, mul v (neg half)) else (c, v) in
  if lt BOUNDARY (fst cv) then (BOUNDARY, mul (snd cv) (neg half)) else cv.

(** Lines 82-87. *)
Definition boundaryChecks (p : Particle) : Particle :=
  let bx := bounce (x p) (dx p) in
  let by_ := bounce (y p) (dy p) in
  let bz := bounce (z p) (dz p) in
  mkParticle (fst bx) (fst by_) (fst bz) (radius p) (isAttached p)
             (snd bx) (snd by_) (snd bz).

(** Lines 76-78. *)
Definition updatePosition (p : Particle) : Particle :=
  set_position p (add (x p) (dx p)) (add (y p) (dy p)) (add (z p) (dz p)).

(** Lines 93-101: the scan of the vector from index [j] on, with the running
    [minDist] and [nearestAttached] (a pointer into the vector: an index). *)
Fixpoint scanNearest (p : Particle) (others : list Particle) (j : nat)
    (minDist : float) (nearestAttached : option nat) : float * option nat :=
  match others with
  | [] => (minDist, nearestAttached)
  | other :: rest =>
      if negb (isAttached other) then scanNearest p rest (S j) minDist nearestAttached
      else
        let dist := distance p other in
        if lt dist minDist then scanNearest p rest (S j) dist (Some j)
        else scanNearest p rest (S j) minDist nearestAttached
  end.

(** Lines 90-101. *)
Definition findNearest (p : Particle) (ps : list Particle) : float * option nat :=
  scanNearest p ps 0%nat INFINITY None.

(** Lines 106-108: the vector from [p] to the nearest attached particle. *)
Definition rawDirection (p other : Particle) : float * float * float :=
  (sub (x other) (x p), sub (y other) (y p), sub (z other) (z p)).

(** Line 111: its length. *)
Definition dirLength (p other : Particle) : float :=
  let '(dirX, dirY, dirZ) := rawDirection p other in
  sqrt (add (add (mul dirX dirX) (mul dirY dirY)) (mul dirZ dirZ)).

(** Lines 106-116: the direction to the nearest attached particle,
    normalised when its length is positive. *)
Definition direction (p other : Particle) : float * float * float :=
  let '(dirX, dirY, dirZ) := rawDirection p other in
  let length := dirLength p other in
  if lt zero length then (div dirX length, div dirY length, div dirZ length)
  else (dirX, dirY, dirZ).

(** Lines 118-122: the attraction added to the velocity. *)
Definition pull (p other : Particle) : Particle :=
  let '(dirX, dirY, dirZ) := direction p other in
  set_velocity p (add (dx p) (mul dirX ATTRACTION_FORCE))
                 (add (dy p) (mul dirY ATTRACTION_FORCE))
                 (add (dz p) (mul dirZ ATTRACTION_FORCE)).

(** Lines 126-128. *)
Definition attach (p : Particle) : Particle :=
  mkParticle (x p) (y p) (z p) (add (radius p) GROWTH_RATE) true zero zero zero.

(** Lines 105-129, entered when a nearest attached particle exists within
    [ATTRACTION_RANGE]. *)
Definition attract (p other : Particle) (minDist : float) : Particle :=
  let p1 := pull p other in
  if lt minDist (mul (add (radius other) (radius p1)) nine_tenths) then attach p1
  else p1.

(** Lines 104-130 for the particle [p], the element [i] of [ps]. *)
Definition attraction (p : Particle) (ps : list Particle) : Particle :=
  let '(minDist, nearestAttached) := findNearest p ps in
  match nearestAttached with
  | Some j =>
      match ps !! j with
      | Some other =>
          if lt minDist ATTRACTION_RANGE then attract p other minDist else p
      | None => p
      end
  | None => p
  end.

Section Simulation.

(** The values returned by the successive calls of [rand()]. *)
Variable rand : nat -> Z.

(** [(rand() % 100 - 50) * BROWNIAN_MOTION], for the call number [k]. *)
Definition brownian (k : nat) : float :=
  mul (of_int (Z.rem (rand k) 100 - 50)) BROWNIAN_MOTION.

(** Lines 71-73. *)
Definition brownianMotion (k : nat) (p : Particle) : Particle :=
  set_velocity p (add (dx p) (brownian k))
                 (add (dy p) (brownian (k + 1)))
                 (add (dz p) (brownian (k + 2))).

(** Lines 71-87 for a free particle. *)
Definition moveParticle (k : nat) (p : Particle) : Particle :=
  boundaryChecks (updatePosition (brownianMotion k p)).

(** One iteration of the outer loop (lines 67-131), on the element [i]
    of the vector.  The particle is updated in place, so the scan for the
    nearest attached particle reads the vector with the moved particle in
    it, and the particles updated earlier in the pass as they are now. *)
Definition updateParticle (i : nat) (w : World) : World :=
  match particles w !! i with
  | None => w
  | Some p =>
      if isAttached p then w
      else
        let p1 := moveParticle (calls w) p in
        let ps1 := <[i := p1]> (particles w) in
        mkWorld (<[i := attraction p1 ps1]> ps1) (calls w + 3)
  end.

(** The range-for over the vector: [n] iterations from the index [i]. *)
Fixpoint updateLoop (n i : nat) (w : World) : World :=
  match n with
  | O => w
  | S n' => updateLoop n' (S i) (updateParticle i w)
  end.

(** updateParticles (lines 66-132). *)
Definition updateParticles (w : World) : World :=
  updateLoop (length (particles w)) 0 w.

(** ** initializeSimulation (lines 32-57) *)

(** The seed: [emplace_back(0, 0, 0, true)] and the assignment of its
    radius, [PARTICLE_RADIUS * 2]. *)
Definition seedParticle : Particle :=
  set_radius (newParticle zero zero zero true) (mul PARTICLE_RADIUS (of_int 2)).

(** [(rand() % 200 - 100) / 100.0f] and [(rand() % 100 - 50) / 50000.0f]. *)
Definition randomCoordinate (k : nat) : float :=
  div (of_int (Z.rem (rand k) 200 - 100)) (of_int 100).
Definition randomVelocity (k : nat) : float :=
  div (of_int (Z.rem (rand k) 100 - 50)) (of_int 50000).

(** One iteration of the loop of lines 41-56. *)
Definition spawnParticle (w : World) : World :=
  let k := calls w in
  let p := newParticle (randomCoordinate k) (randomCoordinate (k + 1))
                       (randomCoordinate (k + 2)) false in
  let p := set_velocity p (randomVelocity (k + 3)) (randomVelocity (k + 4))
                          (randomVelocity (k + 5)) in
  mkWorld (particles w ++ [p]) (k + 6).

(** [initializeSimulation] with [n] free particles, from the empty
    vector. *)
Definition initialize (n : nat) : World :=
  Nat.iter n spawnParticle (mkWorld [seedParticle] 0).

Definition initializeSimulation : World := initialize NUM_PARTICLES.

(** The state after [t] calls of [updateParticles]. *)
Definition run (w : World) (t : nat) : World := Nat.iter t updateParticles w.

End Simulation.

(** ** The calls of OpenGL, GLU and GLUT (lines 134-181) *)

(** A [GLdouble] argument: a literal of type [double], the double nearest to
    [num/den], or a [float] converted to [double], the same value. *)
Inductive GLdouble : Type :=
| literal (num den : Z)
| converted (a : float).

Inductive BufferBit : Type := GL_COLOR_BUFFER_BIT | GL_DEPTH_BUFFER_BIT.
Inductive MatrixMode : Type := GL_MODELVIEW | GL_PROJECTION.
Inductive Face : Type := GL_FRONT.
Inductive MaterialParameter : Type := GL_DIFFUSE.

(** The callbacks registered by [main]. *)
Inductive Callback : Type := cb_renderScene | cb_reshape | cb_update.

(** The calls made by [renderScene], [reshape] and [update], with their
    arguments; [mask] is the set of the bits or-ed together. *)
Inductive GLCall : Type :=
| glClear (mask : list BufferBit)
| glMatrixMode (mode : MatrixMode)
| glLoadIdentity
| gluLookAt (eyeX eyeY eyeZ centerX centerY centerZ upX upY upZ : GLdouble)
| glPushMatrix
| glTranslatef (tx ty tz : float)
| glMaterialfv (face : Face) (pname : MaterialParameter) (params : list float)
| glutSolidSphere (sphereRadius : GLdouble) (slices stacks : Z)
| glPopMatrix
| glutSwapBuffers
| glViewport (vx vy width height : Z)
| gluPerspective (fovy aspect zNear zFar : GLdouble)
| glutPostRedisplay
| glutTimerFunc (msecs : Z) (callback : Callback) (value : Z).

(** ** renderScene (lines 134-162) *)

(** Lines 150-156: blue for an attached particle, red for a free one. *)
Definition color (p : Particle) : list float :=
  if isAttached p
  then [decimal 2 10; decimal 2 10; of_int 1; of_int 1]
  else [of_int 1; decimal 2 10; decimal 2 10; of_int 1].

(** The body of the loop of lines 145-159. *)
Definition renderParticle (p : Particle) : list GLCall :=
  [ glPushMatrix;
    glTranslatef (x p) (y p) (z p);
    glMaterialfv GL_FRONT GL_DIFFUSE (color p);
    glutSolidSphere (converted (radius p)) 20 20;
    glPopMatrix ].

(** The calls made by [renderScene] on the vector [ps], in their order. *)
Definition renderScene (ps : list Particle) : list GLCall :=
  [ glClear [GL_COLOR_BUFFER_BIT; GL_DEPTH_BUFFER_BIT];
    glMatrixMode GL_MODELVIEW;
    glLoadIdentity;
    gluLookAt (literal 2 1) (literal 2 1) (literal 2 1)
              (literal 0 1) (literal 0 1) (literal 0 1)
              (literal 0 1) (literal 1 1) (literal 0 1) ]
  ++ flat_map renderParticle ps
  ++ [ glutSwapBuffers ].

(** ** reshape (lines 164-170) *)

(** [(float)width / height]: [height] is converted to [float] too. *)
Definition aspectRatio (width height : Z) : float :=
  div (of_int width) (of_int height).

Definition reshape (width height : Z) : list GLCall :=
  [ glViewport 0 0 width height;
    glMatrixMode GL_PROJECTION;
    glLoadIdentity;
    gluPerspective (literal 45 1) (converted (aspectRatio width height))
                   (literal 1 10) (literal 100 1);
    glMatrixMode GL_MODELVIEW ].

(** ** update (lines 172-176) *)

(** The timer callback: the state after it and the calls it makes. *)
Definition update (rand : nat -> Z) (value : Z) (w : World) : World * list GLCall :=
  (updateParticles rand w, [glutPostRedisplay; glutTimerFunc 16 cb_update 0]).


(** * The vocabulary of the properties *)

(** ** States met during a pass and during a run *)

(** The state in which the element [j] is processed: the first [j]
    iterations of the pass are done. *)
Definition before (rand : nat -> Z) (j : nat) (w : World) : World :=
  updateLoop rand j 0 w.

(** What one pass, or several, may do to a particle: an attached particle
    is left as it is; a free particle stays free with its radius, or becomes
    attached, its radius grown by [GROWTH_RATE] and its velocity zeroed. *)
Definition evolves (p p' : Particle) : Prop :=
  if isAttached p then p' = p
  else (isAttached p' = false /\ radius p' = radius p)
       \/ (isAttached p' = true /\ radius p' = add (radius p) GROWTH_RATE
           /\ dx p' = zero /\ dy p' = zero /\ dz p' = zero).

(** The radius of a free particle once it is attached. *)
Definition grownRadius : float := add PARTICLE_RADIUS GROWTH_RATE.

(** What holds of every particle of a run that starts with
    [initializeSimulation]. *)
Definition settled (p : Particle) : Prop :=
  if isAttached p
  then dx p = zero /\ dy p = zero /\ dz p = zero
       /\ (radius p = radius seedParticle \/ radius p = grownRadius)
  else radius p = PARTICLE_RADIUS.

(** ** The order of binary32 *)

(** A float that is no NaN, placed in the lexicographic order of triples of
    integers. *)
Definition rank (a : float) : Z * Z * Z :=
  match a with
  | S754_infinity true => (-2, 0, 0)
  | S754_finite true m e => (-1, - e, - Zpos m)
  | S754_zero _ => (0, 0, 0)
  | S754_nan => (0, 0, 0)
  | S754_finite false m e => (1, e, Zpos m)
  | S754_infinity false => (2, 0, 0)
  end.

Definition lexlt (u v : Z * Z * Z) : Prop :=
  let '(u1, u2, u3) := u in
  let '(v1, v2, v3) := v in
  u1 < v1 \/ (u1 = v1 /\ (u2 < v2 \/ (u2 = v2 /\ u3 < v3))).

(** ** The cube *)

(** [c] lies in [[-BOUNDARY, BOUNDARY]]. *)
Definition inside (c : float) : bool := le (neg BOUNDARY) c && le c BOUNDARY.

(** [c] is below [-BOUNDARY] or above [BOUNDARY]: the tests of lines 82-87. *)
Definition outside (c : float) : bool := lt c (neg BOUNDARY) || lt BOUNDARY c.

Definition inBox (p : Particle) : bool :=
  inside (x p) && inside (y p) && inside (z p).

Definition velocityDefined (p : Particle) : bool :=
  negb (is_nan (dx p)) && negb (is_nan (dy p)) && negb (is_nan (dz p)).

(** ** Sequences of random numbers *)

(** The Brownian term contributes zero: every [rand() % 100] is 50. *)
Definition zeroBrownian (rand : nat -> Z) : Prop :=
  forall k, Z.rem (rand k) 100 = 50.

(** Every [rand()] is 50. *)
Definition rand50 : nat -> Z := fun _ => 50.

(** A sequence that places the first free particle at [(0.03, 0, 0)], at
    rest, and makes every Brownian term zero. *)
Definition randNear : nat -> Z :=
  fun k => match k with
           | O => 103
           | S O | S (S O) => 100
           | _ => 150
           end.

(** A sequence of non-negative values with which, in the first pass, the
    first free particle attaches to the seed and the second one is then
    almost as far from it as from the seed: the draws 0-5 and 6-11 make the
    two particles, the draws 12-14 and 15-17 are their Brownian terms. *)
Definition randNearTie : nat -> Z :=
  fun k => nth k [300; 501; 297; 7; 17; 31;
                  25; 107; 101; 25; 39; 3;
                  51; 44; 60;
                  26; 83; 42] 50.

(** ** The scenario of the approach *)

(** The positions at the distance [0.5f * ATTRACTION_RANGE] from the origin
    on the coordinate axes. *)
Definition axisPlacements : list (float * float * float) :=
  let r := mul half ATTRACTION_RANGE in
  [ (r, zero, zero); (neg r, zero, zero); (zero, r, zero);
    (zero, neg r, zero); (zero, zero, r); (zero, zero, neg r) ].

(** The seed, and one free particle at rest at [pos]. *)
Definition approachWorld (pos : float * float * float) : World :=
  mkWorld [seedParticle; newParticle (fst (fst pos)) (snd (fst pos)) (snd pos) false] 0.

(** The free particle of the scenario after [t] passes, and its distance to
    the seed. *)
Definition approaching (rand : nat -> Z) (pos : float * float * float)
    (t : nat) : Particle :=
  nth 1 (particles (run rand (approachWorld pos) t)) seedParticle.

Definition gap (rand : nat -> Z) (pos : float * float * float) (t : nat) : float :=
  distance (approaching rand pos t) seedParticle.

(** [(seed radius + particle radius) * 0.9f] as line 125 computes it. *)
Definition attachThreshold : float :=
  mul (add (radius seedParticle) PARTICLE_RADIUS) nine_tenths.

(** ** Other states of the examples *)

(** A free particle at [(BOUNDARY + 0.01f, 0, 0)], moving at [(0.1f, 0, 0)]. *)
Definition wallParticle : Particle :=
  set_velocity (newParticle (add BOUNDARY (decimal 1 100)) zero zero false)
               (decimal 1 10) zero zero.

(** An attached particle at [(0.95, 0, 0)], within [ATTRACTION_RANGE] of the
    wall [x = BOUNDARY]. *)
Definition wallNeighbour : Particle := newParticle (decimal 95 100) zero zero true.

(** A free particle inside the cube with a NaN for [dx]. *)
Definition nanDrift : Particle :=
  set_velocity (newParticle zero zero zero false) S754_nan zero zero.

(** Three particles on the x axis: the seed, [chainA] within the attachment
    threshold of the seed, [chainB] within the attachment threshold of
    [chainA] once that is attached, and not of the seed. *)
Definition chainA : Particle := newParticle (decimal 5 100) zero zero false.
Definition chainB : Particle := newParticle (decimal 9 100) zero zero false.
Definition chainWorld : World := mkWorld [seedParticle; chainA; chainB] 0.

(** ** Division that fails on a zero divisor *)

Definition checkedDiv (a b : float) : option float :=
  match b with
  | S754_zero _ => None
  | _ => Some (div a b)
  end.

(** Lines 106-116 over [checkedDiv]. *)
Definition directionChecked (p other : Particle) : option (float * float * float) :=
  let '(dirX, dirY, dirZ) := rawDirection p other in
  let length := dirLength p other in
  if lt zero length then
    qx ← checkedDiv dirX length;
    qy ← checkedDiv dirY length;
    qz ← checkedDiv dirZ length;
    Some (qx, qy, qz)
  else Some (dirX, dirY, dirZ).

(** Lines 118-122 over [directionChecked]. *)
Definition pullChecked (p other : Particle) : option Particle :=
  dir ← directionChecked p other;
  let '(dirX, dirY, dirZ) := dir in
  Some (set_velocity p (add (dx p) (mul dirX ATTRACTION_FORCE))
                       (add (dy p) (mul dirY ATTRACTION_FORCE))
                       (add (dz p) (mul dirZ ATTRACTION_FORCE))).

Definition attractChecked (p other : Particle) (minDist : float) : option Particle :=
  p1 ← pullChecked p other;
  Some (if lt minDist (mul (add (radius other) (radius p1)) nine_tenths)
        then attach p1 else p1).

Definition attractionChecked (p : Particle) (ps : list Particle) : option Particle :=
  let '(minDist, nearestAttached) := findNearest p ps in
  match nearestAttached with
  | Some j =>
      match ps !! j with
      | Some other =>
          if lt minDist ATTRACTION_RANGE then attractChecked p other minDist
          else Some p
      | None => Some p
      end
  | None => Some p
  end.

Definition updateParticleChecked (rand : nat -> Z) (i : nat) (w : World) : option World :=
  match particles w !! i with
  | None => Some w
  | Some p =>
      if isAttached p then Some w
      else
        let p1 := moveParticle rand (calls w) p in
        let ps1 := <[i := p1]> (particles w) in
        p2 ← attractionChecked p1 ps1;
        Some (mkWorld (<[i := p2]> ps1) (calls w + 3))
  end.

Fixpoint updateLoopChecked (rand : nat -> Z) (n i : nat) (w : World) : option World :=
  match n with
  | O => Some w
  | S n' => w1 ← updateParticleChecked rand i w; updateLoopChecked rand n' (S i) w1
  end.

Definition updateParticlesChecked (rand : nat -> Z) (w : World) : option World :=
  updateLoopChecked rand (length (particles w)) 0 w.

(** ** The order of the particles *)

(** The three values of [rand()] a particle receives when it is processed. *)
Definition Draws : Type := Z * Z * Z.

Definition drawList (d : Draws) : list Z := [fst (fst d); snd (fst d); snd d].

(** The sequence of [rand()] under which every free particle of [ts]
    receives its own draws: attached particles draw nothing. *)
Definition drawsOf (ts : list (Particle * Draws)) : list Z :=
  flat_map (fun t => if isAttached (fst t) then [] else drawList (snd t)) ts.

Definition randOf (l : list Z) : nat -> Z := fun k => nth k l 0.

(** One pass over the particles of [ts], each with its draws. *)
Definition advance (ts : list (Particle * Draws)) : list (Particle * Draws) :=
  zip (particles (updateParticles (randOf (drawsOf ts)) (mkWorld (ts.*1) 0)))
      (ts.*2).

(** The sequence [l] permuted: the elements of [l] at the indices [pi]. *)
Definition permute {A : Type} (pi : list nat) (l : list A) : list A :=
  omap (fun i => l !! i) pi.

(** No particle becomes attached in the pass over [ts]. *)
Definition noAttachment (ts : list (Particle * Draws)) : Prop :=
  (fun t => isAttached (fst t)) <$> advance ts
  = (fun t => isAttached (fst t)) <$> ts.

(** A free particle of [ts] after lines 71-87. *)
Definition moved (t : Particle * Draws) : Particle :=
  moveParticle (randOf (drawList (snd t))) 0 (fst t).

(** Seen from a free particle after its move, two different attached
    particles are never at the same distance. *)
Definition distinctDistances (ts : list (Particle * Draws)) : Prop :=
  forall t q1 q2,
    t ∈ ts -> isAttached (fst t) = false ->
    q1 ∈ ts.*1 -> q2 ∈ ts.*1 ->
    isAttached q1 = true -> isAttached q2 = true -> q1 <> q2 ->
    lt (distance (moved t) q1) (distance (moved t) q2) = true
    \/ lt (distance (moved t) q2) (distance (moved t) q1) = true.

(** The draws under which the Brownian term is zero. *)
Definition still : Draws := (50, 50, 50).

Definition chainTagged : list (Particle * Draws) :=
  [(seedParticle, still); (chainA, still); (chainB, still)].

(** The seed and a free particle that is attracted and not attached. *)
Definition pairTagged : list (Particle * Draws) :=
  [(seedParticle, still); (chainB, still)].

(** Two attached particles at the same distance from a free particle at the
    origin. *)
Definition tieLeft : Particle := newParticle (neg (decimal 1 10)) zero zero true.
Definition tieRight : Particle := newParticle (decimal 1 10) zero zero true.
Definition tieTagged : list (Particle * Draws) :=
  [(tieLeft, still); (tieRight, still); (newParticle zero zero zero false, still)].

(** The scan of lines 93-101 with the nearest particle itself in place of
    its index. *)
Fixpoint scanValue (p : Particle) (others : list Particle)
    (best : float * option Particle) : float * option Particle :=
  match others with
  | [] => best
  | other :: rest =>
      if negb (isAttached other) then scanValue p rest best
      else if lt (distance p other) (fst best)
           then scanValue p rest (distance p other, Some other)
           else scanValue p rest best
  end.

Definition nearestValue (p : Particle) (ps : list Particle) : float * option Particle :=
  scanValue p ps (INFINITY, None).

(** Lines 104-130 from the result of the scan. *)
Definition attractValue (p : Particle) (r : float * option Particle) : Particle :=
  match snd r with
  | Some other => if lt (fst r) ATTRACTION_RANGE then attract p other (fst r) else p
  | None => p
  end.

(** The attached particles of [ts], in their order. *)
Definition attachedOf (ts : list (Particle * Draws)) : list Particle :=
  filter (fun q => isAttached q = true) (ts.*1).

(** What a pass makes of an element when the attached particles it meets
    are those of [A]. *)
Definition settle (A : list Particle) (t : Particle * Draws) : Particle :=
  if isAttached (fst t) then fst t else attraction (moved t) A.

(** No free particle of [l] becomes attached against [A]. *)
Definition quiet (A : list Particle) (l : list (Particle * Draws)) : Prop :=
  Forall (fun t => isAttached (fst t) = false -> isAttached (settle A t) = false) l.

(** ** Values and magnitudes of binary32 *)

(** The record of a shift holds a round or a sticky bit: bits were lost. *)
Definition inexact (mrs : shr_record) : bool := shr_r mrs || shr_s mrs.

(** [mrs'] is [mrs] shifted by [k] places to the right. *)
Definition shifted (k : Z) (mrs mrs' : shr_record) : Prop :=
  0 <= shr_m mrs'
  /\ shr_m mrs' = shr_m mrs / 2 ^ k
  /\ (inexact mrs' = true -> shr_m mrs mod 2 ^ k <> 0 \/ inexact mrs = true).

(** The value [m * 2^e], scaled by [2^1000] so that it is an integer for
    every exponent of binary32. *)
Definition val (m e : Z) : Z := m * 2 ^ (e + 1000).

(** [a] is finite and its magnitude is at most [v] (scaled as [val]). *)
Definition atMost (v : Z) (a : float) : Prop :=
  match a with
  | S754_zero _ => 0 <= v
  | S754_finite _ m e => -600 <= e /\ val (Zpos m) e <= v
  | _ => False
  end.

(** [a] is finite, not zero, and its magnitude is at least [w]. *)
Definition atLeast (w : Z) (a : float) : Prop :=
  match a with
  | S754_finite _ m e => w <= val (Zpos m) e
  | _ => False
  end.

(** [a] is a float of binary32: its mantissa and exponent are those of the
    format. *)
Definition canonical (a : float) : bool := valid_binary prec emax a.

(** [a] is a finite float of binary32 of magnitude at most [v]. *)
Definition boundedBy (v : Z) (a : float) : Prop :=
  canonical a = true /\ atMost v a.

(** [boundedBy], decided. *)
Definition boundedByb (v : Z) (a : float) : bool :=
  canonical a
  && match a with
     | S754_zero _ => 0 <=? v
     | S754_finite _ m e => (-600 <=? e) && (val (Zpos m) e <=? v)
     | _ => false
     end.

(** [a] is not negative (it may be a zero of either sign). *)
Definition nonneg (a : float) : Prop :=
  match a with
  | S754_zero _ | S754_finite false _ _ | S754_infinity false => True
  | _ => False
  end.

(** The value of a finite float, scaled as [val]: an integer for every float
    of binary32.  Zero for the zeros; the infinities and the NaN have no
    value, and are given zero. *)
Definition exactValue (a : float) : Z :=
  match a with
  | S754_finite s m e => if s then - val (Zpos m) e else val (Zpos m) e
  | _ => 0
  end.

(** The square of the Euclidean distance between the positions of [a] and
    [b], computed exactly on the values of the coordinates (scaled by
    [2^2000]): what [distance] would return squared, were none of its
    operations rounded. *)
Definition exactSquaredDistance (a b : Particle) : Z :=
  (exactValue (x a) - exactValue (x b)) ^ 2
  + (exactValue (y a) - exactValue (y b)) ^ 2
  + (exactValue (z a) - exactValue (z b)) ^ 2.

(** ** The bounds of a run *)

(** Magnitudes, scaled as [val]: [2^23], the bound of a velocity between two
    passes; the bound after the Brownian term is added; the bound after the
    boundary checks; [2^21], the bound of the attraction added; [1/4], the
    bound of a Brownian term. *)
Definition speedBound : Z := val 8388608 0.
Definition movedBound : Z := val 8388609 0.
Definition bouncedBound : Z := val 8388609 (-1).
Definition pullBound : Z := val 8388608 (-2).
Definition brownianBound : Z := val 8388608 (-25).

(** The coordinates of [p] are floats of the cube, the components of its
    velocity floats of magnitude at most [v]. *)
Definition contained (v : Z) (p : Particle) : Prop :=
  inBox p = true
  /\ canonical (x p) = true /\ canonical (y p) = true /\ canonical (z p) = true
  /\ boundedBy v (dx p) /\ boundedBy v (dy p) /\ boundedBy v (dz p).

(** What holds of every particle of a run, between two passes. *)
Definition sound (p : Particle) : Prop := contained speedBound p /\ settled p.

#[global] Instance spec_float_eq_dec : EqDecision spec_float.
Proof. solve_decision. Defined.

#[global] Instance Particle_eq_dec : EqDecision Particle.
Proof. solve_decision. Defined.

(** ** The cluster *)

(** [p] is linked to the seed in the vector [ps]: it is the seed, or an
    attached particle of [ps] whose distance to a particle [q] linked to the
    seed is below the attachment threshold of [q] and a free particle. *)
Inductive linked (ps : list Particle) : Particle -> Prop :=
| linked_seed : seedParticle ∈ ps -> linked ps seedParticle
| linked_touch (p q : Particle) :
    linked ps q -> p ∈ ps -> isAttached p = true ->
    lt (distance p q) (mul (add (radius q) PARTICLE_RADIUS) nine_tenths) = true ->
    linked ps p.

(** Every attached particle of [ps] is linked to the seed, and every free
    particle has the radius [PARTICLE_RADIUS]. *)
Definition clustered (ps : list Particle) : Prop :=
  Forall (fun p => if isAttached p then linked ps p
                   else radius p = PARTICLE_RADIUS) ps.

(** No particle of [ps] is attached. *)
Definition allFree (ps : list Particle) : Prop :=
  Forall (fun p => isAttached p = false) ps.

(** Every particle of [ps] is attached. *)
Definition allAttached (ps : list Particle) : Prop :=
  Forall (fun p => isAttached p = true) ps.

(** What [distance] may return: [+0], a positive float, [+infinity] or a
    NaN. *)
Definition lengthLike (a : float) : Prop :=
  match a with
  | S754_zero false | S754_finite false _ _ | S754_infinity false | S754_nan => True
  | _ => False
  end.

Definition finitePosition (p : Particle) : Prop :=
  is_finite (x p) = true /\ is_finite (y p) = true /\ is_finite (z p) = true.

(** The largest finite float, [FLT_MAX]. *)
Definition FLT_MAX : float := S754_finite false 16777215 104.

(** A value of type [int]. *)
Definition isInt (n : Z) : Prop := - 2 ^ 31 <= n < 2 ^ 31.

(** ** The scene *)

(** The transformations that the calls multiply onto the current matrix. *)
Inductive Transform : Type :=
| lookAt (eyeX eyeY eyeZ centerX centerY centerZ upX upY upZ : GLdouble)
| translation (tx ty tz : float)
| perspective (fovy aspect zNear zFar : GLdouble).

(** A matrix: the product of the transformations multiplied onto the
    identity, in the order of the calls; [[]] is the identity. *)
Definition Matrix : Type := list Transform.

(** The part of the state of OpenGL that the calls of [renderScene] and
    [reshape] read and write: the matrix mode; for each of the two stacks the
    current matrix and the matrices saved below it; the diffuse material of
    the front faces. *)
Record GLState : Type := mkGLState {
  matrixMode : MatrixMode;
  modelview : Matrix;
  modelviewSaved : list Matrix;
  projection : Matrix;
  projectionSaved : list Matrix;
  diffuse : list float
}.

(** The state in which OpenGL starts: the mode [GL_MODELVIEW], one identity
    matrix on each stack, the diffuse material [(0.8, 0.8, 0.8, 1.0)]. *)
Definition initialGLState : GLState :=
  mkGLState GL_MODELVIEW [] [] [] []
            [decimal 8 10; decimal 8 10; decimal 8 10; of_int 1].

(** The current matrix, the matrices saved below it, and their assignment,
    on the stack that the matrix mode selects. *)
Definition currentMatrix (s : GLState) : Matrix :=
  match matrixMode s with
  | GL_MODELVIEW => modelview s
  | GL_PROJECTION => projection s
  end.

Definition savedMatrices (s : GLState) : list Matrix :=
  match matrixMode s with
  | GL_MODELVIEW => modelviewSaved s
  | GL_PROJECTION => projectionSaved s
  end.

Definition setMatrices (s : GLState) (m : Matrix) (saved : list Matrix) : GLState :=
  match matrixMode s with
  | GL_MODELVIEW =>
      mkGLState GL_MODELVIEW m saved (projection s) (projectionSaved s) (diffuse s)
  | GL_PROJECTION =>
      mkGLState GL_PROJECTION (modelview s) (modelviewSaved s) m saved (diffuse s)
  end.

Definition multiply (s : GLState) (t : Transform) : GLState :=
  setMatrices s (currentMatrix s ++ [t]) (savedMatrices s).

(** The state after one call.  [depth] is the number of matrices that each
    stack holds at most, the current one included.  [glPushMatrix] saves a
    copy of the current matrix, and on a full stack changes nothing;
    [glPopMatrix] replaces the current matrix by the one saved last, and
    with none saved changes nothing; [glLoadIdentity] replaces the current
    matrix by the identity; [glTranslatef], [gluLookAt] and [gluPerspective]
    multiply the current matrix by their transformation. *)
Definition glCall (depth : MatrixMode -> nat) (s : GLState) (c : GLCall) : GLState :=
  match c with
  | glMatrixMode mode =>
      mkGLState mode (modelview s) (modelviewSaved s)
                (projection s) (projectionSaved s) (diffuse s)
  | glLoadIdentity => setMatrices s [] (savedMatrices s)
  | gluLookAt eyeX eyeY eyeZ centerX centerY centerZ upX upY upZ =>
      multiply s (lookAt eyeX eyeY eyeZ centerX centerY centerZ upX upY upZ)
  | glTranslatef tx ty tz => multiply s (translation tx ty tz)
  | gluPerspective fovy aspect zNear zFar =>
      multiply s (perspective fovy aspect zNear zFar)
  | glPushMatrix =>
      if (S (length (savedMatrices s)) <? depth (matrixMode s))%nat
      then setMatrices s (currentMatrix s) (currentMatrix s :: savedMatrices s)
      else s
  | glPopMatrix =>
      match savedMatrices s with
      | m :: saved => setMatrices s m saved
      | [] => s
      end
  | glMaterialfv GL_FRONT GL_DIFFUSE params =>
      mkGLState (matrixMode s) (modelview s) (modelviewSaved s)
                (projection s) (projectionSaved s) params
  | _ => s
  end.

(** The state after the calls [cs]. *)
Definition glCalls (depth : MatrixMode -> nat) (s : GLState) (cs : list GLCall) : GLState :=
  fold_left (glCall depth) cs s.

(** A sphere as it is drawn: the modelview matrix and the diffuse material
    current at its [glutSolidSphere], and its radius. *)
Definition Sphere : Type := Matrix * list float * GLdouble.

(** The spheres drawn by the calls [cs], made from the state [s]. *)
Fixpoint spheres (depth : MatrixMode -> nat) (s : GLState) (cs : list GLCall)
    : list Sphere :=
  match cs with
  | [] => []
  | glutSolidSphere r slices stacks :: rest =>
      (modelview s, diffuse s, r) :: spheres depth s rest
  | c :: rest => spheres depth (glCall depth s c) rest
  end.

(** The camera of [renderScene], lines 140-142. *)
Definition camera : Transform :=
  lookAt (literal 2 1) (literal 2 1) (literal 2 1)
         (literal 0 1) (literal 0 1) (literal 0 1)
         (literal 0 1) (literal 1 1) (literal 0 1).

(** What [renderScene] shows of a particle: a sphere moved from the origin
    of the scene, as the camera sees it, to the position of the particle and
    to no other place, with its colour and its radius. *)
Definition shown (p : Particle) : Sphere :=
  ([camera; translation (x p) (y p) (z p)], color p, converted (radius p)).

(** The material of an attached particle, blue, and of a free one, red. *)
Definition blue : list float := [decimal 2 10; decimal 2 10; of_int 1; of_int 1].
Definition red : list float := [of_int 1; decimal 2 10; decimal 2 10; of_int 1].

(** The number of blue spheres among [ss]. *)
Definition blueCount (ss : list Sphere) : nat :=
  length (filter (fun s => snd (fst s) = blue) ss).

(** The scene rendered after [k] firings of the timer, from the state
    [w]. *)
Definition frame (rand : nat -> Z) (w : World) (k : nat) : list GLCall :=
  renderScene (particles (Nat.iter k (fun w' => fst (update rand 0 w')) w)).

(** An attached particle of the grown radius at [(0.095f, 0, 0)]: the free
    particle at [(0.05f, 0, 0)] is nearer to it than to the seed. *)
Definition grownNeighbour : Particle :=
  mkParticle (decimal 95 1000) zero zero grownRadius true zero zero zero.

(** * The literals *)

(** The parameters are the decimal literals of [Main.cpp] rounded to
    [float]. *)
Lemma parameters_are_the_literals :
  PARTICLE_RADIUS = decimal 2 100
  /\ ATTRACTION_RANGE = decimal 15 100
  /\ GROWTH_RATE = decimal 5 1000
  /\ BROWNIAN_MOTION = decimal 1 1000
  /\ BOUNDARY = of_int 1
  /\ ATTRACTION_FORCE = decimal 5 10000
  /\ half = decimal 5 10
  /\ nine_tenths = decimal 9 10.
Proof. repeat split; vm_compute; reflexivity. Qed.

(** * Structure of one pass *)

Section Pass.

Variable rand : nat -> Z.

Lemma evolves_refl p : evolves p p.
Proof. unfold evolves. destruct (isAttached p) eqn:E; auto. Qed.

Lemma evolves_trans p1 p2 p3 : evolves p1 p2 -> evolves p2 p3 -> evolves p1 p3.
Proof.
  unfold evolves. destruct (isAttached p1) eqn:E1.
  - intros ->. rewrite E1. auto.
  - intros [[E2 R2] | (E2 & R2 & V2)]; rewrite E2.
    + intros [[E3 R3] | (E3 & R3 & V3)]; [left | right]; split; try congruence.
      split; [congruence | exact V3].
    + intros ->. right. auto.
Qed.

Lemma moveParticle_radius k p : radius (moveParticle rand k p) = radius p.
Proof. reflexivity. Qed.

Lemma moveParticle_isAttached k p :
  isAttached (moveParticle rand k p) = isAttached p.
Proof. reflexivity. Qed.

Lemma attract_position p other d :
  x (attract p other d) = x p /\ y (attract p other d) = y p
  /\ z (attract p other d) = z p.
Proof.
  unfold attract, pull. destruct (direction p other) as [[a b] c].
  destruct (lt d _); simpl; auto.
Qed.

Lemma attract_evolves p other d :
  isAttached p = false -> evolves p (attract p other d).
Proof.
  intros Hp. unfold evolves, attract, pull. rewrite Hp.
  destruct (direction p other) as [[a b] c].
  destruct (lt d _); simpl; [right | left]; repeat split; auto.
Qed.

Lemma attraction_position p ps :
  x (attraction p ps) = x p /\ y (attraction p ps) = y p
  /\ z (attraction p ps) = z p.
Proof.
  unfold attraction. destruct (findNearest p ps) as [d [j|]]; auto.
  destruct (ps !! j); auto. destruct (lt d ATTRACTION_RANGE); auto.
  apply attract_position.
Qed.

Lemma attraction_evolves p ps :
  isAttached p = false -> evolves p (attraction p ps).
Proof.
  intros Hp. unfold attraction.
  destruct (findNearest p ps) as [d [j|]]; try apply evolves_refl.
  destruct (ps !! j); try apply evolves_refl.
  destruct (lt d ATTRACTION_RANGE); try apply evolves_refl.
  now apply attract_evolves.
Qed.

Lemma updateParticle_length i w :
  length (particles (updateParticle rand i w)) = length (particles w).
Proof.
  unfold updateParticle. destruct (particles w !! i) as [p|]; auto.
  destruct (isAttached p); auto. simpl. now rewrite !length_insert.
Qed.

Lemma updateLoop_length n : forall i w,
  length (particles (updateLoop rand n i w)) = length (particles w).
Proof.
  induction n as [|n IH]; intros i w; simpl; auto.
  now rewrite IH, updateParticle_length.
Qed.

Lemma updateParticles_length w :
  length (particles (updateParticles rand w)) = length (particles w).
Proof. apply updateLoop_length. Qed.

Lemma run_length w t : length (particles (run rand w t)) = length (particles w).
Proof.
  induction t as [|t IH]; simpl; auto.
  now rewrite updateParticles_length.
Qed.

(** The particle written back by an iteration. *)
Lemma updateParticle_lookup i w p :
  particles w !! i = Some p -> isAttached p = false ->
  particles (updateParticle rand i w) !! i
  = Some (attraction (moveParticle rand (calls w) p)
                     (<[i := moveParticle rand (calls w) p]> (particles w))).
Proof.
  intros Hi Hp. unfold updateParticle. rewrite Hi, Hp. simpl.
  apply list_lookup_insert_eq. rewrite length_insert.
  now apply lookup_lt_Some in Hi.
Qed.

Lemma updateParticle_lookup_ne i j w :
  i <> j -> particles (updateParticle rand i w) !! j = particles w !! j.
Proof.
  intros Hij. unfold updateParticle.
  destruct (particles w !! i) as [p|]; auto.
  destruct (isAttached p); auto. simpl.
  now rewrite !list_lookup_insert_ne.
Qed.

Lemma updateParticle_evolves i w :
  Forall2 evolves (particles w) (particles (updateParticle rand i w)).
Proof.
  apply Forall2_same_length_lookup_2.
  - now rewrite updateParticle_length.
  - intros j p p' Hp Hp'.
    destruct (decide (i = j)) as [<-|Hij].
    + destruct (isAttached p) eqn:E.
      * unfold updateParticle in Hp'. rewrite Hp, E in Hp'.
        assert (p' = p) as -> by congruence. apply evolves_refl.
      * rewrite (updateParticle_lookup _ _ _ Hp E) in Hp'.
        injection Hp' as <-.
        apply evolves_trans with (moveParticle rand (calls w) p).
        -- unfold evolves. rewrite E. left. auto.
        -- apply attraction_evolves. now rewrite moveParticle_isAttached.
    + rewrite updateParticle_lookup_ne in Hp' by done.
      assert (p' = p) as -> by congruence. apply evolves_refl.
Qed.

Lemma Forall2_evolves_trans l1 l2 l3 :
  Forall2 evolves l1 l2 -> Forall2 evolves l2 l3 -> Forall2 evolves l1 l3.
Proof.
  intros H12. revert l3. induction H12; intros l3 H23; inversion H23; subst;
    constructor; eauto using evolves_trans.
Qed.

Lemma updateLoop_evolves n : forall i w,
  Forall2 evolves (particles w) (particles (updateLoop rand n i w)).
Proof.
  induction n as [|n IH]; intros i w; simpl.
  - apply Forall2_same_length_lookup_2; auto.
    intros j p p' H1 H2. assert (p' = p) as -> by congruence. apply evolves_refl.
  - eapply Forall2_evolves_trans; [apply updateParticle_evolves | apply IH].
Qed.

Lemma updateParticles_evolves w :
  Forall2 evolves (particles w) (particles (updateParticles rand w)).
Proof. apply updateLoop_evolves. Qed.

Lemma run_evolves w t :
  Forall2 evolves (particles w) (particles (run rand w t)).
Proof.
  induction t as [|t IH]; simpl.
  - apply Forall2_same_length_lookup_2; auto.
    intros j p p' H1 H2. assert (p' = p) as -> by congruence. apply evolves_refl.
  - eapply Forall2_evolves_trans; [exact IH | apply updateParticles_evolves].
Qed.

Lemma run_add w t u : run rand w (t + u) = run rand (run rand w t) u.
Proof.
  unfold run. rewrite Nat.add_comm. apply Nat.iter_add.
Qed.

(** An attached particle is left as it is by any number of passes. *)
Lemma run_attached_fixed (w : World) (t j : nat) (p : Particle) :
  particles w !! j = Some p -> isAttached p = true ->
  particles (run rand w t) !! j = Some p.
Proof.
  intros Hp Ha.
  destruct (Forall2_lookup_l _ _ _ _ _ (run_evolves w t) Hp) as (p' & Hp' & Hev).
  unfold evolves in Hev. rewrite Ha in Hev. now subst.
Qed.

End Pass.

(** * States of the simulation *)

Section Reachable.

Variable rand : nat -> Z.

Lemma evolves_settled p p' : evolves p p' -> settled p -> settled p'.
Proof.
  unfold evolves, settled. destruct (isAttached p) eqn:E.
  - intros ->. now rewrite E.
  - intros [[E' R'] | (E' & R' & V')] Hr; rewrite E'.
    + congruence.
    + destruct V' as (? & ? & ?). repeat split; auto.
      right. now rewrite R', Hr.
Qed.

Lemma spawnParticle_particles w :
  exists p, particles (spawnParticle rand w) = particles w ++ [p]
            /\ isAttached p = false /\ radius p = PARTICLE_RADIUS.
Proof. eexists. split; [reflexivity | split; reflexivity]. Qed.

(** The vector after initialisation: the seed, then [n] free particles of
    radius [PARTICLE_RADIUS]. *)
Lemma initialize_particles n :
  exists free,
    particles (initialize rand n) = seedParticle :: free
    /\ length free = n
    /\ Forall (fun p => isAttached p = false /\ radius p = PARTICLE_RADIUS) free.
Proof.
  induction n as [|n (free & Hps & Hlen & Hfree)].
  - exists []. repeat split; auto.
  - destruct (spawnParticle_particles (initialize rand n)) as (p & Hp & Ha & Hr).
    exists (free ++ [p]). change (initialize rand (S n))
      with (spawnParticle rand (initialize rand n)).
    rewrite Hp, Hps. repeat split.
    + rewrite length_app. simpl. lia.
    + apply Forall_app. split; auto.
Qed.

Lemma initialize_length n : length (particles (initialize rand n)) = S n.
Proof.
  destruct (initialize_particles n) as (free & -> & <- & _). reflexivity.
Qed.

Lemma initialize_settled n : Forall settled (particles (initialize rand n)).
Proof.
  destruct (initialize_particles n) as (free & -> & _ & Hfree).
  constructor.
  - unfold settled. simpl. repeat split; auto.
  - eapply Forall_impl; [exact Hfree|]. intros p [Ha Hr].
    unfold settled. now rewrite Ha.
Qed.

Lemma run_settled w t :
  Forall settled (particles w) -> Forall settled (particles (run rand w t)).
Proof.
  intros Hw. apply Forall_lookup. intros i p' Hp'.
  pose proof (run_evolves rand w t) as Hev.
  destruct (Forall2_lookup_r _ _ _ _ _ Hev Hp') as (p & Hp & Hpp').
  eapply evolves_settled; [exact Hpp'|].
  eapply Forall_lookup_1; eauto.
Qed.

Lemma simulation_settled n t :
  Forall settled (particles (run rand (initialize rand n) t)).
Proof. apply run_settled, initialize_settled. Qed.

(** ** C8 *)

(** C8.  After [initialize] with [n] free particles, exactly one particle is
    attached (the list of the attached particles is the seed alone, and
    the seed is the first element, followed by [n] particles that are free),
    the seed has the radius [PARTICLE_RADIUS * 2], and after any number [t]
    of calls of [updateParticles] the vector still holds [1 + n]
    particles. *)
Theorem seed_invariant (n t : nat) :
  filter (fun p => isAttached p = true) (particles (initialize rand n))
    = [seedParticle]
  /\ particles (initialize rand n) !! 0%nat = Some seedParticle
  /\ isAttached seedParticle = true
  /\ radius seedParticle = mul PARTICLE_RADIUS (of_int 2)
  /\ length (particles (initialize rand n)) = (1 + n)%nat
  /\ length (particles (run rand (initialize rand n) t)) = (1 + n)%nat.
Proof.
  destruct (initialize_particles n) as (free & Hps & Hlen & Hfree).
  repeat split.
  - rewrite Hps, filter_cons_True by reflexivity. f_equal.
    clear Hps Hlen. induction Hfree as [|p free [Ha _] _ IH]; auto.
    rewrite filter_cons_False; auto. rewrite Ha. discriminate.
  - now rewrite Hps.
  - apply initialize_length.
  - rewrite run_length. apply initialize_length.
Qed.

End Reachable.

(** * Attachment is final, radii only grow *)

Section Attachment.

Variable rand : nat -> Z.

Lemma radius_facts :
  lt PARTICLE_RADIUS grownRadius = true
  /\ le PARTICLE_RADIUS grownRadius = true
  /\ le PARTICLE_RADIUS PARTICLE_RADIUS = true
  /\ lt PARTICLE_RADIUS PARTICLE_RADIUS = false
  /\ le (radius seedParticle) (radius seedParticle) = true
  /\ lt (radius seedParticle) (radius seedParticle) = false
  /\ le grownRadius grownRadius = true
  /\ lt grownRadius grownRadius = false.
Proof. repeat split; reflexivity. Qed.

(** The sum [PARTICLE_RADIUS + GROWTH_RATE] is rounded down: the radius
    gained is [GROWTH_RATE] less [2^-30]. *)
Lemma grownRadius_exact :
  exactValue grownRadius - exactValue PARTICLE_RADIUS
  = exactValue GROWTH_RATE - val 1 (-30).
Proof. vm_compute. reflexivity. Qed.

(** C1.  An attached particle is never changed: in any state, after any
    number [u] of passes it is the same particle, with its flag, its
    position, its velocity and its radius.  In a run of the simulation (any
    number [n] of free particles, any sequence of random numbers) the velocity
    of an attached particle is exactly zero: a particle found attached after
    [t] passes is, after [u] further passes, still attached, at the same
    position, with a velocity that is exactly zero. *)
Theorem attached_stays_frozen :
  (forall (w : World) (u i : nat) (p : Particle),
      particles w !! i = Some p -> isAttached p = true ->
      particles (run rand w u) !! i = Some p)
  /\ (forall (n t u i : nat) (p : Particle),
        particles (run rand (initialize rand n) t) !! i = Some p ->
        isAttached p = true ->
        exists p',
          particles (run rand (initialize rand n) (t + u)) !! i = Some p'
          /\ isAttached p' = true
          /\ dx p' = zero /\ dy p' = zero /\ dz p' = zero
          /\ x p' = x p /\ y p' = y p /\ z p' = z p
          /\ radius p' = radius p).
Proof.
  split.
  - intros w u i p Hp Ha. now apply run_attached_fixed.
  - intros n t u i p Hp Ha.
    assert (Hs : settled p).
    { eapply Forall_lookup_1; [apply simulation_settled | exact Hp]. }
    unfold settled in Hs. rewrite Ha in Hs. destruct Hs as (Vx & Vy & Vz & _).
    exists p. rewrite run_add.
    split; [now apply run_attached_fixed|].
    split; [exact Ha|]. split; [exact Vx|]. split; [exact Vy|]. split; [exact Vz|].
    repeat split.
Qed.

(** C2 (as amended).  In a run of the simulation, across one pass the
    radius of a particle does not decrease; it is strictly greater exactly
    when the particle went from free to attached in that pass.  The new radius
    is then the sum [radius + GROWTH_RATE] as the program computes it in
    [float]; that sum is rounded, and the increase, the new radius less the
    old one, is [GROWTH_RATE - 2^-30]. *)
Theorem radius_monotone (n t i : nat) (p p' : Particle) :
  particles (run rand (initialize rand n) t) !! i = Some p ->
  particles (run rand (initialize rand n) (S t)) !! i = Some p' ->
  le (radius p) (radius p') = true
  /\ (lt (radius p) (radius p') = true
      <-> isAttached p = false /\ isAttached p' = true)
  /\ (isAttached p = false -> isAttached p' = true ->
      radius p' = add (radius p) GROWTH_RATE
      /\ exactValue (radius p') - exactValue (radius p)
         = exactValue GROWTH_RATE - val 1 (-30)).
Proof.
  intros Hp Hp'.
  assert (Hs : settled p).
  { eapply Forall_lookup_1; [apply simulation_settled | exact Hp]. }
  pose proof (updateParticles_evolves rand (run rand (initialize rand n) t)) as Hev.
  destruct (Forall2_lookup_l _ _ _ _ _ Hev Hp) as (q & Hq & Hpq).
  change (updateParticles rand (run rand (initialize rand n) t))
    with (run rand (initialize rand n) (S t)) in Hq.
  assert (q = p') as -> by congruence.
  destruct radius_facts as (F1 & F2 & F3 & F4 & F5 & F6 & F7 & F8).
  unfold evolves in Hpq. unfold settled in Hs.
  destruct (isAttached p) eqn:Ha.
  - subst p'. rewrite Ha. destruct Hs as (_ & _ & _ & [-> | ->]).
    + rewrite F5, F6. repeat split; try discriminate. intros [? _]. discriminate.
    + rewrite F7, F8. repeat split; try discriminate. intros [? _]. discriminate.
  - destruct Hpq as [[Ha' Hr'] | (Ha' & Hr' & _)]; rewrite Ha', Hr', Hs.
    + rewrite F3, F4. repeat split; try discriminate. intros [_ ?]. discriminate.
    + fold grownRadius. rewrite F1, F2.
      split; [reflexivity|]. split; [split; auto|].
      intros _ _. split; [reflexivity | exact grownRadius_exact].
Qed.

End Attachment.

Lemma attached_stays_frozen_witness :
  particles (run rand50 chainWorld 3) !! 0%nat = Some seedParticle
  /\ exists p',
       particles (run rand50 (initialize rand50 2) (0 + 3)) !! 0%nat = Some p'
       /\ isAttached p' = true
       /\ dx p' = zero /\ dy p' = zero /\ dz p' = zero
       /\ x p' = x seedParticle /\ y p' = y seedParticle /\ z p' = z seedParticle
       /\ radius p' = radius seedParticle.
Proof.
  split.
  - exact (proj1 (attached_stays_frozen rand50) chainWorld 3%nat 0%nat seedParticle
             eq_refl eq_refl).
  - exact (proj2 (attached_stays_frozen rand50) 2%nat 0%nat 3%nat 0%nat seedParticle
             eq_refl eq_refl).
Defined.

Lemma radius_monotone_witness :
  exists p p',
    particles (run randNear (initialize randNear 1) 0) !! 1%nat = Some p
    /\ particles (run randNear (initialize randNear 1) 1) !! 1%nat = Some p'
    /\ isAttached p = false /\ isAttached p' = true
    /\ le (radius p) (radius p') = true
    /\ (lt (radius p) (radius p') = true
        <-> isAttached p = false /\ isAttached p' = true)
    /\ (isAttached p = false -> isAttached p' = true ->
        radius p' = add (radius p) GROWTH_RATE
        /\ exactValue (radius p') - exactValue (radius p)
           = exactValue GROWTH_RATE - val 1 (-30)).
Proof.
  eexists. eexists.
  split; [vm_compute; reflexivity|].
  split; [vm_compute; reflexivity|].
  split; [reflexivity|]. split; [reflexivity|].
  apply (radius_monotone randNear 1 0 1); vm_compute; reflexivity.
Defined.

(** The increase is not [GROWTH_RATE].  In the run in which the first free
    particle starts at [(0.03, 0, 0)], that particle is free before the first
    pass and attached after it; its new radius less its old radius is below
    [GROWTH_RATE], and the difference of the two radii computed in [float] is
    not equal to [GROWTH_RATE]. *)
Lemma increase_is_not_the_growth_rate :
  exists p p',
    particles (run randNear (initialize randNear 1) 0) !! 1%nat = Some p
    /\ particles (run randNear (initialize randNear 1) 1) !! 1%nat = Some p'
    /\ isAttached p = false /\ isAttached p' = true
    /\ exactValue (radius p') - exactValue (radius p) < exactValue GROWTH_RATE
    /\ feq (sub (radius p') (radius p)) GROWTH_RATE = false.
Proof.
  eexists. eexists.
  split; [vm_compute; reflexivity|].
  split; [vm_compute; reflexivity|].
  split; [reflexivity|]. split; [reflexivity|].
  split; [apply Z.ltb_lt; vm_compute; reflexivity | vm_compute; reflexivity].
Qed.

(** The growth in binary32.  The radius of a free particle that becomes
    attached is the sum [0.02f + 0.005f] rounded to [float], one unit in the
    last place below the literal [0.025f]; the difference between the new and
    the old radius, computed in [float], is exact and is not [GROWTH_RATE]:
    the radius grows by [GROWTH_RATE] in the sense of the sum the program
    computes. *)
Theorem growth_in_binary32 :
  grownRadius = add PARTICLE_RADIUS GROWTH_RATE
  /\ grownRadius = S754_finite false 13421772 (-29)
  /\ decimal 25 1000 = S754_finite false 13421773 (-29)
  /\ sub grownRadius PARTICLE_RADIUS = S754_finite false 10737416 (-31)
  /\ GROWTH_RATE = S754_finite false 10737418 (-31)
  /\ feq (sub grownRadius PARTICLE_RADIUS) GROWTH_RATE = false
  /\ lt (sub grownRadius PARTICLE_RADIUS) GROWTH_RATE = true.
Proof. repeat split; vm_compute; reflexivity. Qed.

(** * The order of binary32 *)

Lemma compare_cases (a b : float) :
  match SFcompare a b with
  | None => is_nan a = true \/ is_nan b = true
  | Some Lt => is_nan a = false /\ is_nan b = false /\ lexlt (rank a) (rank b)
  | Some Eq => is_nan a = false /\ is_nan b = false /\ rank a = rank b
  | Some Gt => is_nan a = false /\ is_nan b = false /\ lexlt (rank b) (rank a)
  end.
Proof.
  destruct a as [sa|sa| |sa ma ea], b as [sb|sb| |sb mb eb];
    try destruct sa; try destruct sb; simpl; unfold lexlt; auto;
    try (repeat split; auto; lia);
    change (Pos.compare_cont Eq ma mb) with (Pos.compare ma mb);
    destruct (Z.compare_spec ea eb) as [->|H|H]; simpl;
    try (repeat split; auto; lia);
    destruct (Pos.compare_spec ma mb) as [->|H|H]; simpl; repeat split; auto; lia.
Qed.

Lemma lt_iff (a b : float) :
  lt a b = true
  <-> is_nan a = false /\ is_nan b = false /\ lexlt (rank a) (rank b).
Proof.
  unfold lt, SFltb. pose proof (compare_cases a b) as H.
  pose proof (compare_cases b a) as H'.
  destruct (SFcompare a b) as [[| |]|]; split; auto; try discriminate.
  - intros (Na & Nb & L). destruct H as (_ & _ & E).
    destruct (rank a) as [[? ?] ?], (rank b) as [[? ?] ?]. injection E as -> -> ->.
    unfold lexlt in L. lia.
  - intros (Na & Nb & L). destruct H as (_ & _ & G).
    destruct (rank a) as [[? ?] ?], (rank b) as [[? ?] ?].
    unfold lexlt in L, G. lia.
  - intros (Na & Nb & _). destruct H; congruence.
Qed.

Lemma le_iff (a b : float) :
  le a b = true
  <-> is_nan a = false /\ is_nan b = false /\ ~ lexlt (rank b) (rank a).
Proof.
  unfold le, SFleb. pose proof (compare_cases a b) as H.
  destruct (SFcompare a b) as [[| |]|]; split; auto; try discriminate.
  - intros _. destruct H as (Na & Nb & E). repeat split; auto. rewrite E.
    destruct (rank b) as [[? ?] ?]. unfold lexlt. lia.
  - intros _. destruct H as (Na & Nb & L). repeat split; auto.
    destruct (rank a) as [[? ?] ?], (rank b) as [[? ?] ?]. unfold lexlt in *. lia.
  - intros (_ & _ & N). destruct H as (_ & _ & G). contradiction.
  - intros (Na & Nb & _). destruct H; congruence.
Qed.

Lemma lt_trans (a b c : float) : lt a b = true -> lt b c = true -> lt a c = true.
Proof.
  rewrite !lt_iff. intros (Na & Nb & L1) (_ & Nc & L2). repeat split; auto.
  destruct (rank a) as [[? ?] ?], (rank b) as [[? ?] ?], (rank c) as [[? ?] ?].
  unfold lexlt in *. lia.
Qed.

Lemma lt_irrefl (a : float) : lt a a = false.
Proof.
  destruct (lt a a) eqn:E; auto. apply lt_iff in E. destruct E as (_ & _ & L).
  destruct (rank a) as [[? ?] ?]. unfold lexlt in L. lia.
Qed.

(** For floats that are no NaN, [not (a < b)] is [b <= a]. *)
Lemma not_lt_le (a b : float) :
  is_nan a = false -> is_nan b = false -> lt a b = false -> le b a = true.
Proof.
  intros Na Nb L. apply le_iff. repeat split; auto. intros L'.
  assert (lt a b = true) by (apply lt_iff; auto). congruence.
Qed.

Lemma lt_not_nan (a b : float) :
  lt a b = true -> is_nan a = false /\ is_nan b = false.
Proof. rewrite lt_iff. tauto. Qed.

(** * The search for the nearest attached particle *)

Lemma scanNearest_spec (p : Particle) (others : list Particle) :
  forall (j : nat) (d0 : float) (n0 : option nat),
    let r := scanNearest p others j d0 n0 in
    ((fst r = d0 /\ snd r = n0)
     \/ (lt (fst r) d0 = true
         /\ exists k q, snd r = Some (j + k)%nat /\ others !! k = Some q
                        /\ isAttached q = true /\ fst r = distance p q))
    /\ (forall q, q ∈ others -> isAttached q = true ->
                  lt (distance p q) (fst r) = false).
Proof.
  induction others as [|o rest IH]; intros j d0 n0; simpl.
  - split; auto. intros q Hq. inversion Hq.
  - destruct (isAttached o) eqn:Ho; simpl.
    + destruct (lt (distance p o) d0) eqn:Hlt.
      * destruct (IH (S j) (distance p o) (Some j)) as [Hr Hmin]. split.
        -- right. destruct Hr as [[E1 E2] | (L & k & q & E & Hk & Hq & Hd)].
           ++ rewrite E1, E2. split; [exact Hlt|]. exists 0%nat, o.
              rewrite Nat.add_0_r. repeat split; auto.
           ++ split; [eapply lt_trans; eauto|]. exists (S k), q.
              rewrite E. repeat split; auto; f_equal; lia.
        -- intros q Hq Ha. apply elem_of_cons in Hq as [-> | Hq]; auto.
           destruct Hr as [[E1 _] | (L & _)].
           ++ rewrite E1. apply lt_irrefl.
           ++ match goal with |- ?g = false => destruct g eqn:E; auto end.
              pose proof (lt_trans _ _ _ E L) as F. now rewrite lt_irrefl in F.
      * destruct (IH (S j) d0 n0) as [Hr Hmin]. split.
        -- destruct Hr as [? | (L & k & q & E & Hk & Hq & Hd)]; auto.
           right. split; auto. exists (S k), q. rewrite E.
           repeat split; auto; f_equal; lia.
        -- intros q Hq Ha. apply elem_of_cons in Hq as [-> | Hq]; auto.
           destruct Hr as [[E1 _] | (L & _)].
           ++ now rewrite E1.
           ++ match goal with |- ?g = false => destruct g eqn:E; auto end.
              pose proof (lt_trans _ _ _ E L). congruence.
    + destruct (IH (S j) d0 n0) as [Hr Hmin]. split.
      * destruct Hr as [? | (L & k & q & E & Hk & Hq & Hd)]; auto.
        right. split; auto. exists (S k), q. rewrite E.
        repeat split; auto; f_equal; lia.
      * intros q Hq Ha. apply elem_of_cons in Hq as [-> | Hq]; auto. congruence.
Qed.

Lemma findNearest_spec (p : Particle) (ps : list Particle) :
  ((findNearest p ps = (INFINITY, None))
   \/ (exists j q, findNearest p ps = (distance p q, Some j)
                   /\ ps !! j = Some q /\ isAttached q = true
                   /\ lt (distance p q) INFINITY = true))
  /\ (forall q, q ∈ ps -> isAttached q = true ->
                lt (distance p q) (fst (findNearest p ps)) = false).
Proof.
  unfold findNearest.
  destruct (scanNearest_spec p ps 0 INFINITY None) as [Hr Hmin].
  split; auto.
  destruct (scanNearest p ps 0 INFINITY None) as [d n]; simpl in *.
  destruct Hr as [[-> ->] | (L & k & q & -> & Hk & Hq & ->)]; auto.
  right. exists k, q. auto.
Qed.

(** Whenever some attached particle of the vector is at a distance below
    [INFINITY] from [p], the search returns an attached particle [q] of the
    vector with [minDist] its distance, and no attached particle of the vector
    is nearer. *)
Lemma findNearest_minimal (p : Particle) (ps : list Particle) (q0 : Particle) :
  q0 ∈ ps -> isAttached q0 = true -> lt (distance p q0) INFINITY = true ->
  exists j q,
    findNearest p ps = (distance p q, Some j)
    /\ ps !! j = Some q /\ isAttached q = true
    /\ forall q', q' ∈ ps -> isAttached q' = true ->
         lt (distance p q') (distance p q) = false
         /\ (is_nan (distance p q') = false ->
             le (distance p q) (distance p q') = true).
Proof.
  intros Hin Ha Hfin.
  destruct (findNearest_spec p ps) as [[Hnone | (j & q & Hf & Hj & Hq & Hd)] Hmin].
  - specialize (Hmin q0 Hin Ha). rewrite Hnone in Hmin. simpl in Hmin. congruence.
  - exists j, q. split; [exact Hf|]. split; [exact Hj|]. split; [exact Hq|].
    intros q' Hq' Ha'. specialize (Hmin q' Hq' Ha'). rewrite Hf in Hmin.
    simpl in Hmin. split; [exact Hmin|].
    intros Hn. apply not_lt_le; auto. now apply lt_not_nan in Hd.
Qed.

(** * Rounding never yields a NaN *)

Lemma shr_1_nonneg (mrs : shr_record) : 0 <= shr_m mrs -> 0 <= shr_m (shr_1 mrs).
Proof.
  destruct mrs as [m r s]. simpl.
  destruct m as [|[q|q|]|[q|q|]]; simpl; lia.
Qed.

Lemma iter_pos_nonneg (n : positive) : forall mrs : shr_record,
  0 <= shr_m mrs -> 0 <= shr_m (SpecFloat.iter_pos shr_1 n mrs).
Proof.
  induction n as [n IH|n IH|]; intros mrs H; simpl.
  - apply IH, IH, shr_1_nonneg, H.
  - apply IH, IH, H.
  - apply shr_1_nonneg, H.
Qed.

Lemma shr_fexp_nonneg (m e : Z) (l : location) :
  0 <= m -> 0 <= shr_m (fst (shr_fexp prec emax m e l)).
Proof.
  intros H. unfold shr_fexp, shr.
  assert (H0 : 0 <= shr_m (shr_record_of_loc m l)).
  { destruct l as [|[| |]]; simpl; auto. }
  destruct (fexp prec emax (Zdigits2 m + e) - e); simpl; auto.
  now apply iter_pos_nonneg.
Qed.

Lemma round_nearest_even_nonneg (m : Z) (l : location) :
  0 <= m -> 0 <= round_nearest_even m l.
Proof.
  intros H. destruct l as [|[| |]]; simpl; try lia.
  destruct (Z.even m); lia.
Qed.

Lemma binary_round_aux_not_nan (s : bool) (m e : Z) (l : location) :
  0 <= m -> is_nan (binary_round_aux prec emax s m e l) = false.
Proof.
  intros H. unfold binary_round_aux.
  pose proof (shr_fexp_nonneg m e l H) as H1.
  destruct (shr_fexp prec emax m e l) as [mrs' e']. simpl in H1.
  pose proof (shr_fexp_nonneg _ e' loc_Exact
                (round_nearest_even_nonneg _ (loc_of_shr_record mrs') H1)) as H2.
  destruct (shr_fexp prec emax (round_nearest_even _ _) e' loc_Exact) as [mrs'' e''].
  simpl in H2. destruct (shr_m mrs'') as [|q|q]; auto; try lia.
  destruct (e'' <=? emax - prec); auto.
Qed.

Lemma binary_normalize_not_nan (m e : Z) (szero : bool) :
  is_nan (binary_normalize prec emax m e szero) = false.
Proof.
  unfold binary_normalize, binary_round.
  destruct m as [|q|q]; auto;
    destruct (shl_align q e _) as [mz ez]; apply binary_round_aux_not_nan; lia.
Qed.

Lemma add_not_nan_l (a b : float) :
  is_finite a = true -> is_nan b = false -> is_nan (add a b) = false.
Proof.
  unfold add, SFadd.
  destruct a as [sa|sa| |sa ma ea], b as [sb|sb| |sb mb eb];
    try discriminate; intros _ _; auto.
  - destruct sa, sb; auto.
  - apply binary_normalize_not_nan.
Qed.

Lemma add_not_nan_r (a b : float) :
  is_nan a = false -> is_finite b = true -> is_nan (add a b) = false.
Proof.
  unfold add, SFadd.
  destruct a as [sa|sa| |sa ma ea], b as [sb|sb| |sb mb eb];
    try discriminate; intros _ _; auto.
  - destruct sa, sb; auto.
  - apply binary_normalize_not_nan.
Qed.

(** * The pass, iteration by iteration *)

Section Loop.

Variable rand : nat -> Z.

Lemma updateLoop_app (n m : nat) : forall (i : nat) (w : World),
  updateLoop rand (n + m) i w
  = updateLoop rand m (i + n) (updateLoop rand n i w).
Proof.
  induction n as [|n IH]; intros i w; simpl.
  - now rewrite Nat.add_0_r.
  - rewrite IH. f_equal. lia.
Qed.

(** The iterations from the index [i] on leave the elements before [i] as
    they are. *)
Lemma updateLoop_lookup_lt (n : nat) : forall (i j : nat) (w : World),
  (j < i)%nat ->
  particles (updateLoop rand n i w) !! j = particles w !! j.
Proof.
  induction n as [|n IH]; intros i j w Hj; simpl; auto.
  rewrite IH by lia. apply updateParticle_lookup_ne. lia.
Qed.

(** The iterations on the indices [i .. i + n - 1] leave the elements from
    [i + n] on as they are. *)
Lemma updateLoop_lookup_ge (n : nat) : forall (i j : nat) (w : World),
  (i + n <= j)%nat ->
  particles (updateLoop rand n i w) !! j = particles w !! j.
Proof.
  induction n as [|n IH]; intros i j w Hj; simpl; auto.
  rewrite IH by lia. apply updateParticle_lookup_ne. lia.
Qed.

Lemma before_lookup (j : nat) (w : World) :
  particles (before rand j w) !! j = particles w !! j.
Proof. unfold before. apply updateLoop_lookup_ge. lia. Qed.

Lemma before_length (j : nat) (w : World) :
  length (particles (before rand j w)) = length (particles w).
Proof. unfold before. apply updateLoop_length. Qed.

(** What a pass leaves at the index [j]: an attached particle as it was, a
    free particle moved and attracted, the scan reading the vector as the
    first [j] iterations left it. *)
Lemma updateParticles_lookup (w : World) (j : nat) (p : Particle) :
  particles w !! j = Some p ->
  particles (updateParticles rand w) !! j
  = Some (if isAttached p then p
          else let p1 := moveParticle rand (calls (before rand j w)) p in
               attraction p1 (<[j := p1]> (particles (before rand j w)))).
Proof.
  intros Hp. pose proof (lookup_lt_Some _ _ _ Hp) as Hlen.
  unfold updateParticles.
  replace (length (particles w)) with (j + S (length (particles w) - S j))%nat by lia.
  rewrite updateLoop_app. simpl. fold (before rand j w).
  rewrite updateLoop_lookup_lt by lia.
  pose proof (before_lookup j w) as Hb. rewrite Hp in Hb.
  destruct (isAttached p) eqn:Ha.
  - unfold updateParticle. now rewrite Hb, Ha.
  - now apply updateParticle_lookup.
Qed.

End Loop.

(** * The boundary *)

Lemma inside_finite (c : float) : inside c = true -> is_finite c = true.
Proof. destruct c as [s|[|]| |s m e]; auto. Qed.

Lemma bounce_inside (c v : float) :
  is_nan c = false -> inside (fst (bounce c v)) = true.
Proof.
  intros Hc. unfold bounce. destruct (lt c (neg BOUNDARY)) eqn:E1; simpl.
  - reflexivity.
  - destruct (lt BOUNDARY c) eqn:E2; simpl.
    + reflexivity.
    + unfold inside. rewrite !not_lt_le; auto.
Qed.

(** The Brownian term is one of 199 finite floats. *)
Lemma brownian_finite (rand : nat -> Z) (k : nat) :
  is_finite (brownian rand k) = true.
Proof.
  unfold brownian. pose proof (Z.rem_bound_abs (rand k) 100 ltac:(lia)) as Hb.
  set (v := Z.rem (rand k) 100 - 50).
  assert (Hv : exists n, (n < 199)%nat /\ v = Z.of_nat n - 149).
  { exists (Z.to_nat (v + 149)). unfold v. lia. }
  destruct Hv as (n & Hn & ->).
  assert (Hall : forallb (fun n => is_finite (mul (of_int (Z.of_nat n - 149))
                                                 BROWNIAN_MOTION))
                         (seq 0 199) = true) by (vm_compute; reflexivity).
  rewrite forallb_forall in Hall. apply Hall. apply in_seq. lia.
Qed.

(** The coordinates drawn at initialisation lie in the cube, [rand()] being
    non-negative. *)
Lemma randomCoordinate_inside (rand : nat -> Z) (k : nat) :
  0 <= rand k -> inside (randomCoordinate rand k) = true.
Proof.
  intros Hk. unfold randomCoordinate.
  pose proof (Z.rem_bound_pos (rand k) 200 Hk ltac:(lia)) as Hb.
  set (v := Z.rem (rand k) 200 - 100).
  assert (Hv : exists n, (n < 200)%nat /\ v = Z.of_nat n - 100).
  { exists (Z.to_nat (v + 100)). unfold v. lia. }
  destruct Hv as (n & Hn & ->).
  assert (Hall : forallb (fun n => inside (div (of_int (Z.of_nat n - 100))
                                              (of_int 100)))
                         (seq 0 200) = true) by (vm_compute; reflexivity).
  rewrite forallb_forall in Hall. apply Hall. apply in_seq. lia.
Qed.

Section Boundary.

Variable rand : nat -> Z.

Lemma moveParticle_inBox (k : nat) (p : Particle) :
  inBox p = true -> velocityDefined p = true ->
  inBox (moveParticle rand k p) = true.
Proof.
  unfold inBox, velocityDefined. rewrite !andb_true_iff, !negb_true_iff.
  intros [[Hx Hy] Hz] [[Vx Vy] Vz].
  unfold moveParticle, boundaryChecks. simpl.
  rewrite !bounce_inside; auto;
    apply add_not_nan_l; auto using inside_finite;
    apply add_not_nan_r; auto using brownian_finite.
Qed.

Lemma attraction_inBox (p : Particle) (ps : list Particle) :
  inBox (attraction p ps) = inBox p.
Proof.
  unfold inBox. destruct (attraction_position p ps) as (-> & -> & ->). reflexivity.
Qed.

End Boundary.

(** A state in the cube with a NaN for a velocity leaves the cube. *)
Lemma nan_velocity_leaves_the_cube :
  Forall (fun p => inBox p = true) (particles (mkWorld [nanDrift] 0))
  /\ exists p',
       particles (updateParticles rand50 (mkWorld [nanDrift] 0)) !! 0%nat = Some p'
       /\ inBox p' = false /\ inside (x p') = false.
Proof.
  split.
  - repeat constructor.
  - eexists. split; [vm_compute; reflexivity|]. split; reflexivity.
Qed.

(** * A bounce at the wall *)

Section Bounce.

Variable rand : nat -> Z.

(** With no attached particle within [ATTRACTION_RANGE], lines 104-130 leave
    the particle as it is. *)
Lemma attraction_out_of_range (p : Particle) (ps : list Particle) :
  (forall q, q ∈ ps -> isAttached q = true ->
             lt (distance p q) ATTRACTION_RANGE = false) ->
  attraction p ps = p.
Proof.
  intros Hfar. unfold attraction.
  destruct (findNearest_spec p ps) as [[-> | (j & q & -> & Hj & Hq & _)] _]; auto.
  rewrite Hj, (Hfar q); auto. eapply list_elem_of_lookup_2; eauto.
Qed.

Lemma brownian_zero (k : nat) : Z.rem (rand k) 100 = 50 -> brownian rand k = zero.
Proof. unfold brownian. intros ->. reflexivity. Qed.

(** C6 (as amended).  A free particle at [x = BOUNDARY + 0.01f] with
    [dx = 0.1f] has, after one pass, [x = BOUNDARY] and [dx = -0.05f],
    provided that the Brownian term drawn for its [dx] is zero
    ([rand() % 100 = 50]) and that, when it is processed, no attached particle
    is within [ATTRACTION_RANGE] of it.  [before rand j w] is the state in
    which the element [j] is processed. *)
Theorem bounce_at_the_wall (w : World) (j : nat) (p : Particle) :
  particles w !! j = Some p ->
  isAttached p = false ->
  x p = add BOUNDARY (decimal 1 100) ->
  dx p = decimal 1 10 ->
  Z.rem (rand (calls (before rand j w))) 100 = 50 ->
  (forall q, q ∈ particles (before rand j w) -> isAttached q = true ->
             lt (distance (moveParticle rand (calls (before rand j w)) p) q)
                ATTRACTION_RANGE = false) ->
  exists p',
    particles (updateParticles rand w) !! j = Some p'
    /\ x p' = BOUNDARY /\ dx p' = neg (decimal 5 100).
Proof.
  intros Hp Ha Hx Hdx Hr Hfar.
  rewrite (updateParticles_lookup rand w j p Hp), Ha. simpl.
  set (k := calls (before rand j w)) in *.
  set (p1 := moveParticle rand k p) in *.
  exists (attraction p1 (<[j := p1]> (particles (before rand j w)))).
  split; auto.
  rewrite attraction_out_of_range.
  - unfold p1, moveParticle, boundaryChecks, updatePosition, brownianMotion. simpl.
    rewrite Hx, Hdx, (brownian_zero k Hr). split; reflexivity.
  - intros q Hq Hqa. apply list_elem_of_lookup in Hq as [i Hi].
    destruct (decide (j = i)) as [<- | Hne].
    + rewrite list_lookup_insert_eq in Hi.
      * injection Hi as <-. unfold p1 in Hqa.
        rewrite moveParticle_isAttached in Hqa. congruence.
      * rewrite before_length. eapply lookup_lt_Some; eauto.
    + rewrite list_lookup_insert_ne in Hi by done.
      apply Hfar; auto. eapply list_elem_of_lookup_2; eauto.
Qed.

End Bounce.

Lemma bounce_at_the_wall_witness :
  exists p',
    particles (updateParticles rand50 (mkWorld [seedParticle; wallParticle] 0))
      !! 1%nat = Some p'
    /\ x p' = BOUNDARY /\ dx p' = neg (decimal 5 100).
Proof.
  apply (bounce_at_the_wall rand50 (mkWorld [seedParticle; wallParticle] 0) 1
                            wallParticle); try reflexivity.
  intros q Hq Hqa.
  change (particles (before rand50 1 (mkWorld [seedParticle; wallParticle] 0)))
    with [seedParticle; wallParticle] in Hq.
  apply elem_of_cons in Hq as [-> | Hq]; [reflexivity|].
  apply elem_of_cons in Hq as [-> | Hq]; [discriminate|].
  inversion Hq.
Defined.

(** With another draw the Brownian term is not zero and the velocity after
    the bounce is not [-0.05f]: [rand()] returning 0, it is [-0.025f].  With an
    attached particle within [ATTRACTION_RANGE] (and a Brownian term of zero)
    the attraction is added after the bounce, and the velocity is not
    [-0.05f] either. *)
Lemma bounce_with_brownian_term :
  (particles (mkWorld [wallParticle] 0) !! 0%nat = Some wallParticle
   /\ isAttached wallParticle = false
   /\ x wallParticle = add BOUNDARY (decimal 1 100)
   /\ dx wallParticle = decimal 1 10
   /\ exists p',
        particles (updateParticles (fun _ => 0) (mkWorld [wallParticle] 0))
          !! 0%nat = Some p'
        /\ x p' = BOUNDARY
        /\ dx p' <> neg (decimal 5 100)
        /\ feq (dx p') (neg (decimal 5 100)) = false)
  /\ (particles (mkWorld [wallNeighbour; wallParticle] 0) !! 1%nat
      = Some wallParticle
      /\ Z.rem (rand50 0) 100 = 50
      /\ isAttached wallNeighbour = true
      /\ lt (distance (moveParticle rand50 0 wallParticle) wallNeighbour)
            ATTRACTION_RANGE = true
      /\ exists p',
           particles (updateParticles rand50
                        (mkWorld [wallNeighbour; wallParticle] 0))
             !! 1%nat = Some p'
           /\ x p' = BOUNDARY
           /\ isAttached p' = false
           /\ feq (dx p') (neg (decimal 5 100)) = false).
Proof.
  split.
  - do 4 (split; [reflexivity|]). eexists. split; [reflexivity|].
    split; [reflexivity|]. split; [vm_compute; discriminate | reflexivity].
  - do 3 (split; [reflexivity|]). split; [vm_compute; reflexivity|].
    eexists. split; [vm_compute; reflexivity|].
    split; [reflexivity|]. split; reflexivity.
Qed.

(** * Approach and attachment *)

Section Approach.

Variable rand : nat -> Z.
Hypothesis rand_zero : zeroBrownian rand.

Lemma zeroBrownian_moveParticle (k : nat) (p : Particle) :
  moveParticle rand k p = moveParticle rand50 k p.
Proof.
  unfold moveParticle, brownianMotion.
  rewrite !(brownian_zero rand) by apply rand_zero. reflexivity.
Qed.

Lemma zeroBrownian_updateParticle (i : nat) (w : World) :
  updateParticle rand i w = updateParticle rand50 i w.
Proof.
  unfold updateParticle. destruct (particles w !! i) as [p|]; auto.
  now rewrite zeroBrownian_moveParticle.
Qed.

Lemma zeroBrownian_updateLoop (n : nat) : forall (i : nat) (w : World),
  updateLoop rand n i w = updateLoop rand50 n i w.
Proof.
  induction n as [|n IH]; intros i w; simpl; auto.
  now rewrite zeroBrownian_updateParticle, IH.
Qed.

Lemma zeroBrownian_run (w : World) (t : nat) : run rand w t = run rand50 w t.
Proof.
  induction t as [|t IH]; auto.
  change (run rand w (S t)) with (updateParticles rand (run rand w t)).
  rewrite IH. apply zeroBrownian_updateLoop.
Qed.

End Approach.




(** * The normalisation is guarded *)

Lemma checkedDiv_positive (a b : float) :
  lt zero b = true -> checkedDiv a b = Some (div a b).
Proof. destruct b as [s|s| |s m e]; auto. discriminate. Qed.

Lemma directionChecked_direction (p other : Particle) :
  directionChecked p other = Some (direction p other).
Proof.
  unfold directionChecked, direction.
  destruct (rawDirection p other) as [[dirX dirY] dirZ].
  destruct (lt zero (dirLength p other)) eqn:E; auto.
  now rewrite !checkedDiv_positive.
Qed.

Lemma attractionChecked_attraction (p : Particle) (ps : list Particle) :
  attractionChecked p ps = Some (attraction p ps).
Proof.
  unfold attractionChecked, attraction.
  destruct (findNearest p ps) as [d [j|]]; auto.
  destruct (ps !! j) as [other|]; auto.
  destruct (lt d ATTRACTION_RANGE); auto.
  unfold attractChecked, attract, pullChecked, pull.
  rewrite directionChecked_direction. simpl.
  destruct (direction p other) as [[a b] c]. reflexivity.
Qed.

Lemma updateParticleChecked_updateParticle (rand : nat -> Z) (i : nat) (w : World) :
  updateParticleChecked rand i w = Some (updateParticle rand i w).
Proof.
  unfold updateParticleChecked, updateParticle.
  destruct (particles w !! i) as [p|]; auto.
  destruct (isAttached p); auto.
  now rewrite attractionChecked_attraction.
Qed.

Lemma updateLoopChecked_updateLoop (rand : nat -> Z) (n : nat) :
  forall (i : nat) (w : World),
    updateLoopChecked rand n i w = Some (updateLoop rand n i w).
Proof.
  induction n as [|n IH]; intros i w; simpl; auto.
  rewrite updateParticleChecked_updateParticle. simpl. apply IH.
Qed.

Lemma sub_self (a : float) : is_finite a = true -> sub a a = zero.
Proof.
  destruct a as [[|]|s| |s m e]; try discriminate; intros _; auto.
  unfold sub, SFsub. now rewrite Z.sub_diag.
Qed.

Lemma feq_refl (a : float) : is_nan a = false -> feq a a = true.
Proof.
  intros Ha. unfold feq, SFeqb. pose proof (compare_cases a a) as H.
  destruct (SFcompare a a) as [[| |]|]; auto.
  - destruct H as (_ & _ & L). destruct (rank a) as [[? ?] ?].
    unfold lexlt in L. lia.
  - destruct H as (_ & _ & L). destruct (rank a) as [[? ?] ?].
    unfold lexlt in L. lia.
  - destruct H; congruence.
Qed.

(** Adding [+0] leaves a float that is no NaN equal to itself ([-0] becomes
    [+0], which compares equal). *)
Lemma add_zero_r (v : float) : is_nan v = false -> feq (add v zero) v = true.
Proof.
  intros Hv. destruct v as [[|]|[|]| |s m e]; try discriminate; auto.
  change (add (S754_finite s m e) zero) with (S754_finite s m e).
  now apply feq_refl.
Qed.

Lemma neg_involutive (a : float) : neg (neg a) = a.
Proof. destruct a as [s|s| |s m e]; simpl; auto; now rewrite negb_involutive. Qed.

Lemma binary_round_aux_neg (s : bool) (m e : Z) (l : location) :
  binary_round_aux prec emax (negb s) m e l
  = neg (binary_round_aux prec emax s m e l).
Proof.
  unfold binary_round_aux.
  destruct (shr_fexp prec emax m e l) as [mrs' e'].
  destruct (shr_fexp prec emax _ e' loc_Exact) as [mrs'' e''].
  destruct (shr_m mrs''); auto.
  destruct (e'' <=? emax - prec); auto.
Qed.

Lemma binary_normalize_opp (m e : Z) :
  m <> 0 ->
  binary_normalize prec emax (- m) e false
  = neg (binary_normalize prec emax m e false).
Proof.
  intros Hm. destruct m as [|q|q]; try congruence; simpl;
    unfold binary_round; destruct (shl_align q e _) as [mz ez].
  - apply (binary_round_aux_neg false).
  - change true with (negb false).
    now rewrite binary_round_aux_neg, neg_involutive.
Qed.

(** [b - a] is the opposite of [a - b], or both are [+0]. *)
Lemma sub_swap (a b : float) :
  sub b a = neg (sub a b) \/ (sub a b = zero /\ sub b a = zero).
Proof.
  destruct a as [[|]|[|]| |sa ma ea], b as [[|]|[|]| |sb mb eb];
    try (simpl; auto; fail);
    try (left; simpl; now rewrite negb_involutive).
  unfold sub, SFsub. rewrite (Z.min_comm eb ea).
  set (ez := Z.min ea eb).
  set (A := cond_Zopp sa (Z.pos (fst (shl_align ma ea ez)))).
  set (B := cond_Zopp sb (Z.pos (fst (shl_align mb eb ez)))).
  destruct (Z.eq_dec (A - B) 0) as [E | E].
  - right. replace (B - A) with 0 by lia. rewrite E. auto.
  - left. replace (B - A) with (- (A - B)) by lia.
    now apply binary_normalize_opp.
Qed.

Lemma mul_neg_self (u : float) : mul (neg u) (neg u) = mul u u.
Proof.
  destruct u as [[|]|[|]| |[|] m e]; reflexivity.
Qed.

Lemma mul_sub_swap (a b : float) :
  mul (sub b a) (sub b a) = mul (sub a b) (sub a b).
Proof.
  destruct (sub_swap a b) as [-> | [-> ->]]; auto using mul_neg_self.
Qed.

Lemma dirLength_distance (p other : Particle) :
  dirLength p other = distance p other.
Proof.
  unfold dirLength, rawDirection, distance.
  now rewrite !(mul_sub_swap (x p)), !(mul_sub_swap (y p)), !(mul_sub_swap (z p)).
Qed.

(** With the radii of a run, a computed distance of zero is below the
    attachment threshold. *)
Lemma zero_below_threshold (d other_radius : float) :
  feq d zero = true ->
  other_radius = radius seedParticle \/ other_radius = grownRadius ->
  lt d (mul (add other_radius PARTICLE_RADIUS) nine_tenths) = true.
Proof.
  intros Hd Hr. destruct d as [[|]|[|]| |[|] m e]; try discriminate;
    destruct Hr as [-> | ->]; reflexivity.
Qed.

(** C7.  The pass never divides by zero: run over a division that fails on
    a zero divisor it yields the state that [updateParticles] computes, and
    so does the computation of a direction.  The length tested at line 112 is
    the distance found by the scan; when it is not positive the
    normalisation is skipped.  When the free particle is exactly at the
    position of the attached one (at distance 0), the distance computed is
    [0], the direction is the zero vector left as it is, the attraction adds
    [+0] to each component of the velocity, and a velocity that is no NaN
    compares equal to what it was.  With the radii of a run, a particle whose
    computed distance is zero is attached in that pass, its velocity zero. *)
Theorem normalisation_is_guarded (rand : nat -> Z) (w : World) (p other : Particle) :
  updateParticlesChecked rand w = Some (updateParticles rand w)
  /\ directionChecked p other = Some (direction p other)
  /\ dirLength p other = distance p other
  /\ (lt zero (distance p other) = false ->
      direction p other = rawDirection p other)
  /\ (is_finite (x p) = true -> is_finite (y p) = true -> is_finite (z p) = true ->
      x other = x p -> y other = y p -> z other = z p ->
      distance p other = zero
      /\ direction p other = (zero, zero, zero)
      /\ pull p other
         = set_velocity p (add (dx p) zero) (add (dy p) zero) (add (dz p) zero)
      /\ (velocityDefined p = true ->
          feq (dx (pull p other)) (dx p) = true
          /\ feq (dy (pull p other)) (dy p) = true
          /\ feq (dz (pull p other)) (dz p) = true))
  /\ (feq (distance p other) zero = true ->
      radius p = PARTICLE_RADIUS ->
      radius other = radius seedParticle \/ radius other = grownRadius ->
      attract p other (distance p other) = attach (pull p other)
      /\ dx (attract p other (distance p other)) = zero
      /\ dy (attract p other (distance p other)) = zero
      /\ dz (attract p other (distance p other)) = zero).
Proof.
  split; [apply updateLoopChecked_updateLoop|].
  split; [apply directionChecked_direction|].
  split; [apply dirLength_distance|].
  split; [|split].
  - intros E. unfold direction. rewrite dirLength_distance, E.
    now destruct (rawDirection p other) as [[a b] c].
  - intros Fx Fy Fz Ex Ey Ez.
    assert (Hd : distance p other = zero).
    { unfold distance. now rewrite Ex, Ey, Ez, !sub_self. }
    assert (Hraw : rawDirection p other = (zero, zero, zero)).
    { unfold rawDirection. now rewrite Ex, Ey, Ez, !sub_self. }
    assert (Hdir : direction p other = (zero, zero, zero)).
    { unfold direction. now rewrite dirLength_distance, Hd, Hraw. }
    assert (Hpull : pull p other
                    = set_velocity p (add (dx p) zero) (add (dy p) zero)
                                     (add (dz p) zero)).
    { unfold pull. now rewrite Hdir. }
    split; [exact Hd|]. split; [exact Hdir|]. split; [exact Hpull|].
    unfold velocityDefined. rewrite !andb_true_iff, !negb_true_iff.
    intros [[Vx Vy] Vz]. rewrite Hpull. simpl.
    now rewrite !add_zero_r.
  - intros Hd Hp Ho.
    assert (Ha : attract p other (distance p other) = attach (pull p other)).
    { unfold attract.
      assert (Hr : radius (pull p other) = radius p).
      { unfold pull. now destruct (direction p other) as [[a b] c]. }
      now rewrite Hr, Hp, (zero_below_threshold _ _ Hd Ho). }
    rewrite Ha. repeat split; reflexivity.
Qed.

Lemma normalisation_is_guarded_witness :
  let p := newParticle zero zero zero false in
  updateParticlesChecked rand50 (mkWorld [seedParticle; p] 0)
  = Some (updateParticles rand50 (mkWorld [seedParticle; p] 0))
  /\ distance p seedParticle = zero
  /\ direction p seedParticle = (zero, zero, zero)
  /\ feq (dx (pull p seedParticle)) (dx p) = true
  /\ attract p seedParticle (distance p seedParticle) = attach (pull p seedParticle)
  /\ dx (attract p seedParticle (distance p seedParticle)) = zero.
Proof.
  intros p.
  pose proof (normalisation_is_guarded rand50 (mkWorld [seedParticle; p] 0)
                p seedParticle) as (Hc & _ & _ & _ & H5 & H6).
  specialize (H5 eq_refl eq_refl eq_refl eq_refl eq_refl eq_refl).
  destruct H5 as (Hd & Hdir & _ & Hv).
  specialize (Hv eq_refl). destruct Hv as (Hvx & _).
  specialize (H6 eq_refl eq_refl (or_introl eq_refl)).
  destruct H6 as (Ha & Hax & _).
  exact (conj Hc (conj Hd (conj Hdir (conj Hvx (conj Ha Hax))))).
Defined.

(** * An attachment is seen within the pass *)

(** C10.  There is a state with two free particles, at the indices 1 and 2,
    that are both attached after one pass; when the particle 2 is processed,
    the particle 1 is attached already in the vector, and the scan finds it as
    the nearest attached particle; against the vector as it was before the
    pass, the particle 2 would have stayed free. *)
Theorem attachment_seen_within_the_pass :
  exists (w : World) (a b a' b' : Particle),
    particles w !! 1%nat = Some a /\ particles w !! 2%nat = Some b
    /\ isAttached a = false /\ isAttached b = false
    /\ particles (updateParticles rand50 w) !! 1%nat = Some a'
    /\ particles (updateParticles rand50 w) !! 2%nat = Some b'
    /\ isAttached a' = true /\ isAttached b' = true
    /\ particles (before rand50 2 w) !! 1%nat = Some a'
    /\ (let b1 := moveParticle rand50 (calls (before rand50 2 w)) b in
        findNearest b1 (<[2%nat := b1]> (particles (before rand50 2 w)))
        = (distance b1 a', Some 1%nat)
        /\ b' = attraction b1 (<[2%nat := b1]> (particles (before rand50 2 w)))
        /\ isAttached (attraction b1 (<[2%nat := b1]> (particles w))) = false).
Proof.
  exists chainWorld, chainA, chainB.
  eexists. eexists.
  do 4 (split; [reflexivity|]).
  do 2 (split; [vm_compute; reflexivity|]).
  do 2 (split; [reflexivity|]).
  split; [vm_compute; reflexivity|].
  cbv zeta. split; [vm_compute; reflexivity|].
  split; vm_compute; reflexivity.
Qed.

(** * The order of the particles *)

(** Processed after [chainA], [chainB] is attached; processed before it,
    [chainB] stays free: the pass does not commute with the exchange of the
    two, every particle keeping its draws.  And with two attached particles at
    the same distance, none becoming attached, the free particle is pulled
    towards the one that comes first in the vector: the pass does not commute
    with the exchange of the two attached particles. *)
Lemma order_matters :
  ([0; 2; 1]%nat ≡ₚ seq 0 (length chainTagged)
   /\ advance (permute [0; 2; 1]%nat chainTagged)
      <> permute [0; 2; 1]%nat (advance chainTagged)
   /\ (isAttached ∘ fst) <$> advance (permute [0; 2; 1]%nat chainTagged)
      = [true; false; true]
   /\ (isAttached ∘ fst) <$> permute [0; 2; 1]%nat (advance chainTagged)
      = [true; true; true])
  /\ ([1; 0; 2]%nat ≡ₚ seq 0 (length tieTagged)
      /\ noAttachment tieTagged
      /\ advance (permute [1; 0; 2]%nat tieTagged)
         <> permute [1; 0; 2]%nat (advance tieTagged)
      /\ (dx ∘ fst) <$> advance (permute [1; 0; 2]%nat tieTagged)
         = [zero; zero; ATTRACTION_FORCE]
      /\ (dx ∘ fst) <$> permute [1; 0; 2]%nat (advance tieTagged)
         = [zero; zero; neg ATTRACTION_FORCE]).
Proof.
  split.
  - split; [|split; [|split]].
    + simpl. apply perm_skip, perm_swap.
    + intros H. apply (f_equal (fmap (isAttached ∘ fst))) in H.
      vm_compute in H. discriminate.
    + vm_compute. reflexivity.
    + vm_compute. reflexivity.
  - split; [|split; [|split; [|split]]].
    + simpl. apply perm_swap.
    + vm_compute. reflexivity.
    + intros H. apply (f_equal (fmap (dx ∘ fst))) in H.
      vm_compute in H. discriminate.
    + vm_compute. reflexivity.
    + vm_compute. reflexivity.
Qed.

(** ** The scan by values *)
Lemma scanNearest_value (p : Particle) (others : list Particle) :
  forall (pre : list Particle) (d0 : float) (n0 : option nat),
    let r := scanNearest p others (length pre) d0 n0 in
    (fst r, snd r ≫= (fun j => (pre ++ others) !! j))
    = scanValue p others (d0, n0 ≫= (fun j => (pre ++ others) !! j)).
Proof.
  induction others as [|o rest IH]; intros pre d0 n0; simpl; auto.
  specialize (IH (pre ++ [o])).
  rewrite length_app, Nat.add_1_r, <- app_assoc in IH. simpl in IH.
  destruct (isAttached o); simpl.
  - destruct (lt (distance p o) d0).
    + rewrite (IH (distance p o) (Some (length pre))). simpl.
      now rewrite list_lookup_middle.
    + apply IH.
  - apply IH.
Qed.

Lemma attraction_value (p : Particle) (ps : list Particle) :
  attraction p ps = attractValue p (nearestValue p ps).
Proof.
  unfold attraction, nearestValue, findNearest.
  pose proof (scanNearest_value p ps [] INFINITY None) as H. simpl in H.
  rewrite <- H. unfold attractValue.
  destruct (scanNearest p ps 0 INFINITY None) as [d [j|]]; simpl; auto.
Qed.

Lemma scanValue_filter (p : Particle) (ps : list Particle) :
  forall best,
    scanValue p (filter (fun q => isAttached q = true) ps) best
    = scanValue p ps best.
Proof.
  induction ps as [|o rest IH]; intros best; simpl; auto.
  destruct (isAttached o) eqn:E.
  - rewrite filter_cons_True by done. simpl. rewrite E. simpl.
    destruct (lt (distance p o) (fst best)); apply IH.
  - rewrite filter_cons_False by (rewrite E; discriminate). simpl. apply IH.
Qed.

Lemma attraction_filter (p : Particle) (ps : list Particle) :
  attraction p ps = attraction p (filter (fun q => isAttached q = true) ps).
Proof.
  rewrite !attraction_value. unfold nearestValue. now rewrite scanValue_filter.
Qed.

Lemma nearestValue_spec (p : Particle) (ps : list Particle) :
  (nearestValue p ps = (INFINITY, None)
   \/ exists q, nearestValue p ps = (distance p q, Some q)
                /\ q ∈ ps /\ isAttached q = true
                /\ lt (distance p q) INFINITY = true)
  /\ (forall q, q ∈ ps -> isAttached q = true ->
                lt (distance p q) (fst (nearestValue p ps)) = false).
Proof.
  pose proof (scanNearest_value p ps [] INFINITY None) as H. simpl in H.
  fold (findNearest p ps) in H. fold (nearestValue p ps) in H.
  destruct (findNearest_spec p ps) as [Hr Hmin].
  rewrite <- H. simpl. split; auto.
  destruct Hr as [-> | (j & q & -> & Hj & Hq & Hd)]; auto.
  right. exists q. simpl. rewrite Hj. repeat split; auto.
  eapply list_elem_of_lookup_2; eauto.
Qed.

(** With distinct distances the nearest attached particle does not depend on
    the order of the vector. *)
Lemma nearestValue_perm (p : Particle) (ps ps' : list Particle) :
  ps ≡ₚ ps' ->
  (forall q1 q2, q1 ∈ ps -> q2 ∈ ps ->
                 isAttached q1 = true -> isAttached q2 = true -> q1 <> q2 ->
                 lt (distance p q1) (distance p q2) = true
                 \/ lt (distance p q2) (distance p q1) = true) ->
  nearestValue p ps = nearestValue p ps'.
Proof.
  intros Hperm Hdist.
  destruct (nearestValue_spec p ps) as [Hr Hmin].
  destruct (nearestValue_spec p ps') as [Hr' Hmin'].
  destruct Hr as [E | (q & E & Hq & Ha & Hd)],
           Hr' as [E' | (q' & E' & Hq' & Ha' & Hd')];
    rewrite E, E' in *; simpl in *.
  - reflexivity.
  - rewrite <- Hperm in Hq'. rewrite (Hmin q' Hq' Ha') in Hd'. discriminate.
  - rewrite Hperm in Hq. rewrite (Hmin' q Hq Ha) in Hd. discriminate.
  - destruct (decide (q = q')) as [-> | Hne]; auto.
    assert (Hq2 : q' ∈ ps) by now rewrite Hperm.
    assert (Hq3 : q ∈ ps') by now rewrite <- Hperm.
    destruct (Hdist q q' Hq Hq2 Ha Ha' Hne) as [L | L].
    + rewrite (Hmin' q Hq3 Ha) in L. discriminate.
    + rewrite (Hmin q' Hq2 Ha') in L. discriminate.
Qed.

(** ** A pass in which nothing becomes attached *)
Lemma moveParticle_ext (rand rand' : nat -> Z) (k k' : nat) (p : Particle) :
  rand k = rand' k' -> rand (k + 1)%nat = rand' (k' + 1)%nat ->
  rand (k + 2)%nat = rand' (k' + 2)%nat ->
  moveParticle rand k p = moveParticle rand' k' p.
Proof.
  intros E0 E1 E2. unfold moveParticle, brownianMotion, brownian.
  now rewrite E0, E1, E2.
Qed.

Lemma drawsOf_app (l1 l2 : list (Particle * Draws)) :
  drawsOf (l1 ++ l2) = drawsOf l1 ++ drawsOf l2.
Proof. apply flat_map_app. Qed.

Lemma drawsOf_single (t : Particle * Draws) :
  drawsOf [t] = if isAttached (fst t) then [] else drawList (snd t).
Proof. unfold drawsOf. simpl. apply app_nil_r. Qed.

Lemma randOf_middle (l1 l2 : list (Particle * Draws)) (t : Particle * Draws) (d : nat) :
  isAttached (fst t) = false -> (d < 3)%nat ->
  randOf (drawsOf (l1 ++ t :: l2)) (length (drawsOf l1) + d)
  = randOf (drawList (snd t)) d.
Proof.
  intros Ha Hd. unfold randOf.
  rewrite drawsOf_app. change (t :: l2) with ([t] ++ l2).
  rewrite drawsOf_app, app_nth2_plus, drawsOf_single, Ha.
  apply app_nth1. destruct (snd t) as [[a b] c]. simpl. lia.
Qed.

Lemma moved_middle (l1 l2 : list (Particle * Draws)) (t : Particle * Draws) :
  isAttached (fst t) = false ->
  moveParticle (randOf (drawsOf (l1 ++ t :: l2))) (length (drawsOf l1)) (fst t)
  = moved t.
Proof.
  intros Ha. unfold moved. apply moveParticle_ext.
  - rewrite <- (Nat.add_0_r (length (drawsOf l1))) at 1.
    now apply randOf_middle; [|lia].
  - now apply randOf_middle; [|lia].
  - now apply randOf_middle; [|lia].
Qed.

Lemma filter_settle (A : list Particle) (l : list (Particle * Draws)) :
  quiet A l ->
  filter (fun q => isAttached q = true) (settle A <$> l)
  = filter (fun q => isAttached q = true) (l.*1).
Proof.
  induction 1 as [|t l Ht _ IH]; auto.
  rewrite !fmap_cons. destruct (isAttached (fst t)) eqn:E.
  - assert (Hs : settle A t = fst t) by (unfold settle; now rewrite E).
    rewrite Hs, !filter_cons_True by done. now rewrite IH.
  - specialize (Ht eq_refl).
    rewrite filter_cons_False by (rewrite Ht; discriminate).
    rewrite filter_cons_False by (rewrite E; discriminate).
    exact IH.
Qed.

(** The iteration on a free element [t], the elements before it settled
    quietly. *)
Lemma settle_step (l1 l2 : list (Particle * Draws)) (t : Particle * Draws) :
  let ts := l1 ++ t :: l2 in
  let p1 := moveParticle (randOf (drawsOf ts)) (length (drawsOf l1)) (fst t) in
  quiet (attachedOf ts) l1 ->
  isAttached (fst t) = false ->
  attraction p1 (<[length l1 := p1]> ((settle (attachedOf ts) <$> l1) ++ fst t :: l2.*1))
  = settle (attachedOf ts) t.
Proof.
  cbv zeta. intros Hq Ha. rewrite moved_middle by done.
  set (A := attachedOf (l1 ++ t :: l2)) in *.
  replace (length l1) with (length (settle A <$> l1) + 0)%nat
    by (rewrite length_fmap; lia).
  rewrite insert_app_r. simpl.
  rewrite attraction_filter, filter_app, filter_settle by done.
  rewrite filter_cons_False
    by (unfold moved; rewrite moveParticle_isAttached, Ha; discriminate).
  unfold settle. rewrite Ha. f_equal.
  unfold A, attachedOf. rewrite fmap_app, fmap_cons, filter_app.
  rewrite filter_cons_False by (rewrite Ha; discriminate). reflexivity.
Qed.

Lemma before_S (rand : nat -> Z) (i : nat) (w : World) :
  before rand (S i) w = updateParticle rand i (before rand i w).
Proof.
  unfold before. replace (S i) with (i + 1)%nat by lia.
  now rewrite updateLoop_app.
Qed.

(** The state after the first [i] iterations of the pass over [ts], as long
    as no particle has become attached. *)
Lemma before_tagged (ts : list (Particle * Draws)) (i : nat) :
  (i <= length ts)%nat ->
  quiet (attachedOf ts) (take i ts) ->
  before (randOf (drawsOf ts)) i (mkWorld (ts.*1) 0)
  = mkWorld ((settle (attachedOf ts) <$> take i ts) ++ (drop i ts).*1)
            (length (drawsOf (take i ts))).
Proof.
  induction i as [|i IH]; intros Hi Hq.
  - now rewrite take_0, drop_0.
  - destruct (lookup_lt_is_Some_2 ts i ltac:(lia)) as [t Ht].
    rewrite (take_S_r _ _ _ Ht) in Hq |- *.
    apply Forall_app in Hq as [Hq Hqt].
    rewrite before_S, IH by (auto; lia).
    pose proof (settle_step (take i ts) (drop (S i) ts) t) as Hstep.
    rewrite (take_drop_middle _ _ _ Ht) in Hstep. simpl in Hstep.
    rewrite length_take_le in Hstep by lia.
    rewrite (drop_S _ _ _ Ht), fmap_cons.
    unfold updateParticle. simpl.
    assert (Hlen : length (settle (attachedOf ts) <$> take i ts) = i).
    { rewrite length_fmap, length_take_le; lia. }
    rewrite (list_lookup_middle _ _ _ i) by done.
    rewrite fmap_app, <- app_assoc, drawsOf_app, drawsOf_single. simpl.
    destruct (isAttached (fst t)) eqn:Ha.
    + unfold settle at 3. rewrite Ha. simpl. now rewrite app_nil_r.
    + f_equal.
      * rewrite Hstep by done.
        replace i with (length (settle (attachedOf ts) <$> take i ts) + 0)%nat
          at 1 2 by lia.
        now rewrite !insert_app_r.
      * rewrite length_app. destruct (snd t) as [[a b] c]. simpl. lia.
Qed.

(** A quiet pass settles each element on its own. *)
Lemma pass_tagged (ts : list (Particle * Draws)) :
  quiet (attachedOf ts) ts ->
  particles (updateParticles (randOf (drawsOf ts)) (mkWorld (ts.*1) 0))
  = settle (attachedOf ts) <$> ts.
Proof.
  intros Hq. unfold updateParticles. simpl. rewrite length_fmap.
  fold (before (randOf (drawsOf ts)) (length ts) (mkWorld (ts.*1) 0)).
  rewrite before_tagged; auto; rewrite ?take_ge, ?drop_ge; auto.
  simpl. now rewrite app_nil_r.
Qed.

Lemma noAttachment_flags (ts : list (Particle * Draws)) :
  noAttachment ts ->
  isAttached <$> particles (updateParticles (randOf (drawsOf ts)) (mkWorld (ts.*1) 0))
  = isAttached <$> ts.*1.
Proof.
  unfold noAttachment, advance. intros H.
  rewrite <- (fst_zip (particles _) (ts.*2)).
  - rewrite <- !list_fmap_compose. exact H.
  - rewrite updateParticles_length. simpl. rewrite !length_fmap. lia.
Qed.

(** When no particle becomes attached in the pass, every free particle
    settles free against the attached particles of the state. *)
Lemma noAttachment_quiet (ts : list (Particle * Draws)) :
  noAttachment ts -> quiet (attachedOf ts) ts.
Proof.
  intros Hno.
  assert (H : forall i, (i <= length ts)%nat -> quiet (attachedOf ts) (take i ts)).
  { induction i as [|i IH]; intros Hi.
    - rewrite take_0. constructor.
    - destruct (lookup_lt_is_Some_2 ts i ltac:(lia)) as [t Ht].
      rewrite (take_S_r _ _ _ Ht). apply Forall_app. split; [apply IH; lia|].
      constructor; [|constructor]. intros Ha.
      assert (Hw : particles (mkWorld (ts.*1) 0) !! i = Some (fst t)).
      { simpl. now rewrite list_lookup_fmap, Ht. }
      pose proof (updateParticles_lookup (randOf (drawsOf ts)) _ i _ Hw) as Hl.
      rewrite Ha, before_tagged in Hl by (first [lia | apply IH; lia]). simpl in Hl.
      pose proof (settle_step (take i ts) (drop (S i) ts) t) as Hstep.
      rewrite (take_drop_middle _ _ _ Ht) in Hstep. simpl in Hstep.
      rewrite length_take_le in Hstep by lia.
      rewrite (drop_S _ _ _ Ht), fmap_cons, Hstep in Hl
        by (first [exact Ha | apply IH; lia]).
      pose proof (noAttachment_flags ts Hno) as Hf.
      apply (f_equal (fun l => l !! i)) in Hf.
      rewrite !list_lookup_fmap, Hl, Ht in Hf. simpl in Hf.
      injection Hf as Hf. congruence. }
  specialize (H (length ts) ltac:(lia)). now rewrite take_ge in H.
Qed.

Lemma zip_fmap_snd {A B C : Type} (f : A * B -> C) (l : list (A * B)) :
  zip (f <$> l) (l.*2) = (fun t => (f t, snd t)) <$> l.
Proof. induction l as [|t l IH]; simpl; auto. f_equal. exact IH. Qed.

Lemma permute_fmap {A B : Type} (f : A -> B) (pi : list nat) (l : list A) :
  permute pi (f <$> l) = f <$> permute pi l.
Proof.
  unfold permute. induction pi as [|i pi IH]; auto.
  cbn [omap list_omap]. rewrite list_lookup_fmap.
  destruct (l !! i); cbn [fmap option_fmap option_map]; rewrite IH; reflexivity.
Qed.

Lemma permute_seq {A : Type} (l2 : list A) : forall l1 : list A,
  omap (fun i => (l1 ++ l2) !! i) (seq (length l1) (length l2)) = l2.
Proof.
  induction l2 as [|a l2 IH]; intros l1; simpl; auto.
  rewrite list_lookup_middle by done. f_equal.
  specialize (IH (l1 ++ [a])).
  rewrite length_app, Nat.add_1_r, <- app_assoc in IH. exact IH.
Qed.

Lemma permute_Permutation {A : Type} (pi : list nat) (l : list A) :
  pi ≡ₚ seq 0 (length l) -> permute pi l ≡ₚ l.
Proof.
  intros H. unfold permute. rewrite H.
  pose proof (permute_seq l []) as E. simpl in E. now rewrite E.
Qed.

(** C9 (as amended).  The pass commutes with every permutation of the
    particles, each keeping its random draws, provided that no particle
    becomes attached in the pass over the original sequence and that, seen
    from a free particle after its move, two different attached particles are
    never at the same distance. *)
Theorem order_irrelevant_while_quiet (ts : list (Particle * Draws)) (pi : list nat) :
  pi ≡ₚ seq 0 (length ts) ->
  noAttachment ts ->
  distinctDistances ts ->
  advance (permute pi ts) = permute pi (advance ts).
Proof.
  intros Hpi Hno Hdist.
  pose proof (permute_Permutation pi ts Hpi) as Hperm.
  pose proof (noAttachment_quiet ts Hno) as Hq.
  assert (HA : attachedOf (permute pi ts) ≡ₚ attachedOf ts).
  { unfold attachedOf. now rewrite Hperm. }
  assert (Hsettle : forall t, t ∈ ts ->
            settle (attachedOf (permute pi ts)) t = settle (attachedOf ts) t).
  { intros t Ht. unfold settle. destruct (isAttached (fst t)) eqn:Ha; auto.
    rewrite !attraction_value. f_equal. symmetry.
    apply nearestValue_perm; [now symmetry|].
    intros q1 q2 H1 H2 A1 A2 Hne.
    apply list_elem_of_filter in H1 as [_ H1].
    apply list_elem_of_filter in H2 as [_ H2].
    now apply Hdist. }
  assert (Hq' : quiet (attachedOf (permute pi ts)) (permute pi ts)).
  { apply Forall_forall. intros t Ht Ha.
    assert (Ht' : t ∈ ts) by now rewrite <- Hperm.
    rewrite Hsettle by done.
    unfold quiet in Hq. rewrite Forall_forall in Hq. now apply Hq. }
  unfold advance. rewrite (pass_tagged ts Hq), (pass_tagged _ Hq').
  rewrite !zip_fmap_snd, permute_fmap.
  apply list_fmap_ext. intros i t Ht.
  rewrite Hsettle; auto.
  rewrite <- Hperm. eapply list_elem_of_lookup_2; eauto.
Qed.

Lemma order_irrelevant_while_quiet_witness :
  [1; 0]%nat ≡ₚ seq 0 (length pairTagged)
  /\ noAttachment pairTagged
  /\ advance (permute [1; 0]%nat pairTagged)
     = permute [1; 0]%nat (advance pairTagged).
Proof.
  assert (Hpi : [1; 0]%nat ≡ₚ seq 0 (length pairTagged)) by apply perm_swap.
  assert (Hno : noAttachment pairTagged) by (vm_compute; reflexivity).
  assert (Hdist : distinctDistances pairTagged).
  { intros t q1 q2 _ _ H1 H2 A1 A2 Hne. exfalso. apply Hne.
    unfold pairTagged in H1, H2. simpl in H1, H2.
    apply elem_of_cons in H1 as [-> | H1];
      [|apply elem_of_cons in H1 as [-> | H1]; [discriminate | inversion H1]].
    apply elem_of_cons in H2 as [-> | H2];
      [|apply elem_of_cons in H2 as [-> | H2]; [discriminate | inversion H2]].
    reflexivity. }
  exact (conj Hpi (conj Hno
           (order_irrelevant_while_quiet pairTagged [1; 0]%nat Hpi Hno Hdist))).
Defined.

(** * Rounding, bounded *)

(** ** Digits *)

Lemma digits2_size (p : positive) : digits2_pos p = Pos.size p.
Proof. induction p as [p IH|p IH|]; simpl; congruence. Qed.

Lemma digits_bounds (p : positive) :
  2 ^ (Zpos (digits2_pos p) - 1) <= Zpos p < 2 ^ Zpos (digits2_pos p).
Proof.
  rewrite digits2_size. split.
  - pose proof (Pos.size_le p) as H.
    apply Pos2Z.pos_le_pos in H. rewrite Pos2Z.inj_pow in H.
    replace (Zpos (Pos.size p)) with (Zpos (Pos.size p) - 1 + 1) in H by lia.
    rewrite Z.pow_add_r, Z.pow_1_r in H by lia.
    change (Zpos p~0) with (2 * Zpos p) in H. lia.
  - pose proof (Pos.size_gt p) as H.
    apply Pos2Z.pos_lt_pos in H. now rewrite Pos2Z.inj_pow in H.
Qed.

Lemma digits_le (p : positive) (k : Z) :
  Zpos p < 2 ^ k -> Zpos (digits2_pos p) <= k.
Proof.
  intros H. destruct (Z.le_gt_cases (Zpos (digits2_pos p)) k) as [|Hgt]; auto.
  pose proof (digits_bounds p) as [Hlo _].
  assert (0 <= k) by (destruct (Z.le_gt_cases 0 k); auto;
                      rewrite Z.pow_neg_r in H by lia; lia).
  assert (2 ^ k <= 2 ^ (Zpos (digits2_pos p) - 1)) by (apply Z.pow_le_mono_r; lia).
  lia.
Qed.

Lemma digits_ge (p : positive) (k : Z) :
  2 ^ (k - 1) <= Zpos p -> k <= Zpos (digits2_pos p).
Proof.
  intros H. destruct (Z.le_gt_cases k (Zpos (digits2_pos p))) as [|Hgt]; auto.
  pose proof (digits_bounds p) as [_ Hhi].
  assert (2 ^ Zpos (digits2_pos p) <= 2 ^ (k - 1)) by (apply Z.pow_le_mono_r; lia).
  lia.
Qed.

(** ** Shifting a mantissa to the right *)

Lemma shifted_1 (mrs : shr_record) :
  0 <= shr_m mrs -> shifted 1 mrs (shr_1 mrs).
Proof.
  destruct mrs as [m r s]. unfold shifted, inexact. simpl. intros Hm.
  change (2 ^ 1) with 2.
  destruct m as [|[p|p|]|p]; simpl; try lia.
  - repeat split; try lia. intros H. right. now destruct r, s.
  - repeat split; try lia.
    + rewrite Pos2Z.inj_xI. apply Z.div_unique with 1; lia.
    + intros _. left. rewrite Pos2Z.inj_xI.
      rewrite Z.add_comm, Z.mul_comm, Z.mod_add by lia. discriminate.
  - repeat split; try lia.
    + rewrite Pos2Z.inj_xO. apply Z.div_unique with 0; lia.
    + intros H. right. now destruct r, s.
  - repeat split; try lia. intros _. left. discriminate.
Qed.

Lemma shifted_trans (j k : Z) (a b c : shr_record) :
  0 <= j -> 0 <= k -> 0 <= shr_m a ->
  shifted j a b -> shifted k b c -> shifted (j + k) a c.
Proof.
  intros Hj Hk Ha (Hb & Eb & Ib) (Hc & Ec & Ic).
  assert (0 < 2 ^ j) by (apply Z.pow_pos_nonneg; lia).
  assert (0 < 2 ^ k) by (apply Z.pow_pos_nonneg; lia).
  repeat split; auto.
  - rewrite Ec, Eb, Z.pow_add_r, Z.div_div by lia. reflexivity.
  - intros H1. destruct (Ic H1) as [Hmod | Hin].
    + left. intros Hz. apply Hmod. rewrite Eb.
      apply Z.mod_divide in Hz; [|rewrite Z.pow_add_r by lia; lia].
      destruct Hz as [t Ht]. rewrite Ht, Z.pow_add_r by lia.
      replace (t * (2 ^ j * 2 ^ k)) with (t * 2 ^ k * 2 ^ j) by ring.
      rewrite Z.div_mul by lia. apply Z.mod_mul. lia.
    + destruct (Ib Hin) as [Hmod | Hin']; auto.
      left. intros Hz. apply Hmod.
      apply Z.mod_divide in Hz; [|rewrite Z.pow_add_r by lia; lia].
      destruct Hz as [t Ht]. rewrite Ht, Z.pow_add_r by lia.
      replace (t * (2 ^ j * 2 ^ k)) with (t * 2 ^ k * 2 ^ j) by ring.
      apply Z.mod_mul. lia.
Qed.

Lemma shifted_iter (n : positive) : forall mrs : shr_record,
  0 <= shr_m mrs -> shifted (Zpos n) mrs (SpecFloat.iter_pos shr_1 n mrs).
Proof.
  induction n as [n IH|n IH|]; intros mrs Hm; simpl.
  - pose proof (shifted_1 mrs Hm) as H1.
    assert (H1m : 0 <= shr_m (shr_1 mrs)) by apply H1.
    pose proof (IH _ H1m) as H2.
    assert (H2m : 0 <= shr_m (SpecFloat.iter_pos shr_1 n (shr_1 mrs))) by apply H2.
    pose proof (IH _ H2m) as H3.
    replace (Zpos n~1) with (1 + Zpos n + Zpos n) by lia.
    eapply shifted_trans; [lia | lia | auto | | exact H3].
    eapply shifted_trans; [lia | lia | auto | exact H1 | exact H2].
  - pose proof (IH _ Hm) as H2.
    assert (H2m : 0 <= shr_m (SpecFloat.iter_pos shr_1 n mrs)) by apply H2.
    pose proof (IH _ H2m) as H3.
    replace (Zpos n~0) with (Zpos n + Zpos n) by lia.
    eapply shifted_trans; [lia | lia | auto | exact H2 | exact H3].
  - now apply shifted_1.
Qed.

(** [shr] by any amount. *)
Lemma shifted_shr (mrs : shr_record) (e n : Z) :
  0 <= shr_m mrs ->
  shifted (Z.max n 0) mrs (fst (shr mrs e n)) /\ snd (shr mrs e n) = e + Z.max n 0.
Proof.
  intros Hm. unfold shr. destruct n as [|p|p]; simpl.
  - split; [|lia]. unfold shifted. rewrite Z.div_1_r. repeat split; auto.
  - split; [|lia]. now apply shifted_iter.
  - split; [|lia]. unfold shifted. rewrite Z.div_1_r. repeat split; auto.
Qed.

(** ** The rounding of [binary_round_aux], step by step *)

Lemma record_of_loc (m : Z) (l : location) :
  shr_m (shr_record_of_loc m l) = m
  /\ (inexact (shr_record_of_loc m l) = true -> l <> loc_Exact).
Proof. destruct l as [|[| |]]; simpl; split; auto; discriminate. Qed.

Lemma round_nearest_even_cases (mrs : shr_record) :
  let r := round_nearest_even (shr_m mrs) (loc_of_shr_record mrs) in
  r = shr_m mrs \/ (r = shr_m mrs + 1 /\ inexact mrs = true).
Proof.
  destruct mrs as [m [|] [|]]; simpl; auto.
  destruct (Z.even m); auto.
Qed.

Lemma fexp_eq (k : Z) : fexp prec emax k = Z.max (k - 24) (-149).
Proof. reflexivity. Qed.

(** The outcome of a rounding: the mantissa is shifted to the exponent
    [e1], rounded to [mr], and shifted again to [e2]. *)
Lemma binary_round_aux_cases (s : bool) (m e : Z) (l : location) :
  0 <= m ->
  let e1 := e + Z.max (fexp prec emax (Zdigits2 m + e) - e) 0 in
  exists mr : Z,
    (mr = m / 2 ^ (e1 - e)
     \/ (mr = m / 2 ^ (e1 - e) + 1 /\ (l <> loc_Exact \/ m mod 2 ^ (e1 - e) <> 0)))
    /\ let e2 := e1 + Z.max (fexp prec emax (Zdigits2 mr + e1) - e1) 0 in
       0 <= mr / 2 ^ (e2 - e1)
       /\ binary_round_aux prec emax s m e l
          = match mr / 2 ^ (e2 - e1) with
            | Z0 => S754_zero s
            | Zpos p => if e2 <=? emax - prec then S754_finite s p e2
                        else S754_infinity s
            | Zneg _ => S754_nan
            end.
Proof.
  intros Hm e1. unfold binary_round_aux, shr_fexp.
  destruct (record_of_loc m l) as [Em Il].
  destruct (shifted_shr (shr_record_of_loc m l) e
              (fexp prec emax (Zdigits2 m + e) - e)) as [(H1 & E1 & I1) X1];
    [rewrite Em; exact Hm|].
  destruct (shr (shr_record_of_loc m l) e _) as [mrs' e'] eqn:S1.
  simpl in H1, E1, I1, X1. rewrite Em in E1, I1. fold e1 in X1. subst e'.
  replace (Z.max (fexp prec emax (Zdigits2 m + e) - e) 0) with (e1 - e) in E1, I1
    by (unfold e1; lia).
  set (mr := round_nearest_even (shr_m mrs') (loc_of_shr_record mrs')).
  assert (Hmr : 0 <= mr).
  { unfold mr. destruct (round_nearest_even_cases mrs') as [-> | [-> _]]; lia. }
  exists mr. split.
  - unfold mr. destruct (round_nearest_even_cases mrs') as [-> | [-> Hi]].
    + left. exact E1.
    + right. split; [now rewrite E1|]. destruct (I1 Hi) as [? | Hi']; auto.
  - destruct (record_of_loc mr loc_Exact) as [Em2 _].
    destruct (shifted_shr (shr_record_of_loc mr loc_Exact) e1
                (fexp prec emax (Zdigits2 mr + e1) - e1)) as [(H2 & E2 & _) X2];
      [rewrite Em2; exact Hmr|].
    destruct (shr (shr_record_of_loc mr loc_Exact) e1 _) as [mrs'' e''] eqn:S2.
    simpl in H2, E2, X2. try rewrite Em2 in E2. subst e''. cbv zeta.
    replace (e1 + Z.max (fexp prec emax (Zdigits2 mr + e1) - e1) 0 - e1)
      with (Z.max (fexp prec emax (Zdigits2 mr + e1) - e1) 0) by lia.
    rewrite <- E2. split; auto.
Qed.

(** ** Values and canonical floats *)

Lemma pow2_pos (k : Z) : 0 <= k -> 0 < 2 ^ k.
Proof. intros. apply Z.pow_pos_nonneg; lia. Qed.

Lemma div_pow_lt (m d k : Z) :
  0 <= m -> m < 2 ^ d -> 0 <= k <= d -> m / 2 ^ k < 2 ^ (d - k).
Proof.
  intros Hm Hd Hk. apply Z.div_lt_upper_bound; [apply pow2_pos; lia|].
  rewrite <- Z.pow_add_r by lia. now replace (k + (d - k)) with d by lia.
Qed.

Lemma div_pow_small (m d k : Z) :
  0 <= m -> m < 2 ^ d -> 0 <= d <= k -> m / 2 ^ k = 0.
Proof.
  intros Hm Hd Hk. apply Z.div_small. split; auto.
  assert (2 ^ d <= 2 ^ k) by (apply Z.pow_le_mono_r; lia). lia.
Qed.

Lemma div_pow_ge (m d k : Z) :
  2 ^ (d - 1) <= m -> 0 <= k <= d - 1 -> 2 ^ (d - 1 - k) <= m / 2 ^ k.
Proof.
  intros Hm Hk. apply Z.div_le_lower_bound; [apply pow2_pos; lia|].
  rewrite <- Z.pow_add_r by lia. now replace (k + (d - 1 - k)) with (d - 1) by lia.
Qed.

Lemma val_pos (m e : Z) : 0 < m -> -1000 <= e -> 0 < val m e.
Proof. intros Hm He. unfold val. pose proof (pow2_pos (e + 1000)). nia. Qed.

Lemma val_nonneg (m e : Z) : 0 <= m -> -1000 <= e -> 0 <= val m e.
Proof. intros Hm He. unfold val. pose proof (pow2_pos (e + 1000)). nia. Qed.

Lemma val_shift (m e j : Z) :
  0 <= j -> -1000 <= e -> val (m * 2 ^ j) e = val m (e + j).
Proof.
  intros Hj He. unfold val.
  replace (e + j + 1000) with (j + (e + 1000)) by lia.
  rewrite (Z.pow_add_r 2 j (e + 1000)) by lia. ring.
Qed.

Lemma val_div_le (m e j : Z) :
  0 <= m -> 0 <= j -> -1000 <= e -> val (m / 2 ^ j) (e + j) <= val m e.
Proof.
  intros Hm Hj He. rewrite <- val_shift by lia. unfold val.
  pose proof (pow2_pos (e + 1000) ltac:(lia)). pose proof (pow2_pos j Hj).
  pose proof (Z.mul_div_le m (2 ^ j) ltac:(lia)).
  apply Z.mul_le_mono_nonneg_r; lia.
Qed.

Lemma val_div_lt (m e j : Z) :
  0 <= m -> 0 <= j -> -1000 <= e -> m mod 2 ^ j <> 0 ->
  val (m / 2 ^ j) (e + j) < val m e.
Proof.
  intros Hm Hj He Hr. rewrite <- val_shift by lia. unfold val.
  pose proof (pow2_pos (e + 1000) ltac:(lia)). pose proof (pow2_pos j Hj).
  pose proof (Z.div_mod m (2 ^ j) ltac:(lia)).
  pose proof (Z.mod_pos_bound m (2 ^ j) ltac:(lia)).
  apply Z.mul_lt_mono_pos_r; lia.
Qed.

Lemma val_lt_pow (m e d : Z) :
  m < 2 ^ d -> 0 <= d -> -1000 <= e -> val m e < 2 ^ (d + e + 1000).
Proof.
  intros Hm Hd He. unfold val.
  replace (d + e + 1000) with (d + (e + 1000)) by lia.
  rewrite (Z.pow_add_r 2 d (e + 1000)) by lia. pose proof (pow2_pos (e + 1000) ltac:(lia)). nia.
Qed.

Lemma val_ge_pow (m e d : Z) :
  2 ^ (d - 1) <= m -> 1 <= d -> -1000 <= e -> 2 ^ (d - 1 + e + 1000) <= val m e.
Proof.
  intros Hm Hd He. unfold val.
  replace (d - 1 + e + 1000) with ((d - 1) + (e + 1000)) by lia.
  rewrite (Z.pow_add_r 2 (d - 1) (e + 1000)) by lia. pose proof (pow2_pos (e + 1000) ltac:(lia)). nia.
Qed.

Lemma pow2_lt_inv (a b : Z) : 0 <= b -> 2 ^ a < 2 ^ b -> a < b.
Proof.
  intros Hb H. destruct (Z.lt_ge_cases a b) as [|Hge]; auto.
  assert (2 ^ b <= 2 ^ a) by (apply Z.pow_le_mono_r; lia). lia.
Qed.

(** A finite float of binary32: its exponent is the one [fexp] gives to its
    number of digits. *)
Lemma bounded_canonical (m : positive) (e : Z) :
  bounded prec emax m e = true ->
  fexp prec emax (Zpos (digits2_pos m) + e) = e /\ -149 <= e <= 104.
Proof.
  unfold bounded, canonical_mantissa. rewrite andb_true_iff.
  intros [H1 H2]. apply Z.eqb_eq in H1. apply Z.leb_le in H2.
  split; auto. rewrite fexp_eq in H1. change (emax - prec) with 104 in H2. lia.
Qed.

Lemma canonical_bounded (m : positive) (e : Z) :
  fexp prec emax (Zpos (digits2_pos m) + e) = e -> e <= 104 ->
  bounded prec emax m e = true.
Proof.
  intros H1 H2. unfold bounded, canonical_mantissa. rewrite andb_true_iff. split.
  - rewrite H1. apply Z.eqb_refl.
  - apply Z.leb_le. change (emax - prec) with 104. lia.
Qed.

Lemma bounded_mantissa (m : positive) (e : Z) :
  bounded prec emax m e = true ->
  Zpos m < 2 ^ 24 /\ (-149 < e -> 2 ^ 23 <= Zpos m).
Proof.
  intros H. apply bounded_canonical in H as [H _]. rewrite fexp_eq in H.
  pose proof (digits_bounds m) as [Hlo Hhi]. split.
  - assert (2 ^ Zpos (digits2_pos m) <= 2 ^ 24) by (apply Z.pow_le_mono_r; lia). lia.
  - intros He. assert (Zpos (digits2_pos m) = 24) as E by lia.
    rewrite E in Hlo. exact Hlo.
Qed.

(** ** What a rounding returns *)

Lemma Zdigits2_bounds (m : Z) :
  0 <= m -> 0 <= Zdigits2 m /\ m < 2 ^ Zdigits2 m
            /\ (0 < m -> 2 ^ (Zdigits2 m - 1) <= m).
Proof.
  intros Hm. destruct m as [|p|p]; simpl; try lia.
  pose proof (digits_bounds p). lia.
Qed.

Lemma Zdigits2_le (m k : Z) : 0 <= m -> 0 <= k -> m < 2 ^ k -> Zdigits2 m <= k.
Proof.
  intros Hm Hk H. destruct m as [|p|p]; simpl; try lia. now apply digits_le.
Qed.

(** Rounding of [m * 2^e] when [e] is not above the exponent [q] that
    [fexp] gives: the mantissa is shifted to [q] and rounded to [mr]; the
    result is the float of value [mr * 2^q], which is canonical. *)
Lemma round_canonical (s : bool) (m : positive) (e : Z) (l : location) :
  let q := fexp prec emax (Zpos (digits2_pos m) + e) in
  e <= q ->
  exists mr : Z,
    (mr = Zpos m / 2 ^ (q - e)
     \/ (mr = Zpos m / 2 ^ (q - e) + 1
         /\ (l <> loc_Exact \/ Zpos m mod 2 ^ (q - e) <> 0)))
    /\ ((mr = 0 /\ binary_round_aux prec emax s (Zpos m) e l = S754_zero s)
        \/ exists (p : positive) (e2 : Z),
             Zpos p * 2 ^ (e2 - q) = mr /\ q <= e2
             /\ fexp prec emax (Zpos (digits2_pos p) + e2) = e2
             /\ binary_round_aux prec emax s (Zpos m) e l
                = if e2 <=? 104 then S754_finite s p e2 else S754_infinity s).
Proof.
  intros q Hq.
  pose proof (binary_round_aux_cases s (Zpos m) e l ltac:(lia)) as H.
  cbv zeta in H. change (Zdigits2 (Zpos m)) with (Zpos (digits2_pos m)) in H.
  fold q in H. replace (e + Z.max (q - e) 0) with q in H by lia.
  destruct H as (mr & Hmr & Hnn & Hres).
  pose proof (digits_bounds m) as [Hlo Hhi].
  set (d := Zpos (digits2_pos m)) in *.
  assert (Hqd : d + e - 24 <= q /\ -149 <= q
                /\ (q = d + e - 24 \/ q = -149)).
  { unfold q. rewrite fexp_eq. lia. }
  set (m1 := Zpos m / 2 ^ (q - e)) in *.
  assert (H1 : 0 <= m1 < 2 ^ 24).
  { unfold m1. split; [apply Z.div_pos; [lia | apply pow2_pos; lia]|].
    destruct (Z.le_gt_cases (q - e) d) as [Hk|Hk].
    - pose proof (div_pow_lt (Zpos m) d (q - e) ltac:(lia) Hhi ltac:(lia)).
      assert (2 ^ (d - (q - e)) <= 2 ^ 24) by (apply Z.pow_le_mono_r; lia). lia.
    - rewrite (div_pow_small (Zpos m) d (q - e)); try lia. }
  assert (H1' : -149 < q -> 2 ^ 23 <= m1).
  { intros Hn. unfold m1.
    pose proof (div_pow_ge (Zpos m) d (q - e) Hlo ltac:(lia)) as Hg.
    replace (d - 1 - (q - e)) with 23 in Hg by lia. exact Hg. }
  assert (Hr : 0 <= mr <= 2 ^ 24 /\ (-149 < q -> 2 ^ 23 <= mr)) by lia.
  exists mr. split; [exact Hmr|].
  destruct mr as [|pr|pr]; [| |lia].
  - left. split; [reflexivity | exact Hres].
  - right. change (Zdigits2 (Zpos pr)) with (Zpos (digits2_pos pr)) in *.
    pose proof (digits_bounds pr) as [Plo Phi].
    set (dr := Zpos (digits2_pos pr)) in *.
    destruct (Z.eq_dec (Zpos pr) (2 ^ 24)) as [E|NE].
    + assert (Edr : dr = 25).
      { assert (dr <= 25) by (apply digits_le; rewrite E; reflexivity).
        assert (25 <= dr) by (apply digits_ge; rewrite E; reflexivity). lia. }
      rewrite Edr in Hres, Hnn.
      replace (q + Z.max (fexp prec emax (25 + q) - q) 0) with (q + 1) in Hres, Hnn
        by (rewrite fexp_eq; lia).
      replace (q + 1 - q) with 1 in Hres, Hnn by lia.
      rewrite E in Hres, Hnn. change (2 ^ 24 / 2 ^ 1) with (Zpos 8388608) in Hres.
      exists 8388608%positive, (q + 1). split.
      { replace (q + 1 - q) with 1 by lia. rewrite E. reflexivity. }
      split; [lia|].
      change (emax - prec) with 104 in Hres. split; [|exact Hres].
      change (Zpos (digits2_pos 8388608)) with 24. rewrite fexp_eq. lia.
    + assert (Hlt : Zpos pr < 2 ^ 24) by lia.
      assert (Hdr : dr <= 24) by (now apply digits_le).
      replace (q + Z.max (fexp prec emax (dr + q) - q) 0) with q in Hres, Hnn
        by (rewrite fexp_eq; lia).
      rewrite Z.sub_diag in Hres.
      change (2 ^ 0) with 1 in Hres. rewrite Z.div_1_r in Hres.
      exists pr, q. split; [rewrite Z.sub_diag; change (2 ^ 0) with 1; lia|].
      split; [lia|].
      change (emax - prec) with 104 in Hres. split; [|exact Hres].
      fold dr. rewrite fexp_eq.
      destruct (Z.eq_dec q (-149)) as [Hn|Hn]; [lia|].
      assert (24 <= dr) by (apply digits_ge; apply Hr; lia). lia.
Qed.

(** Rounding does not pass a float of binary32: what is below [U] (or equal
    to it) is rounded to a float that is not above [U]. *)
Lemma round_upper (s : bool) (m : positive) (e : Z) (l : location)
    (mU : positive) (eU : Z) :
  -1000 <= e ->
  e <= fexp prec emax (Zpos (digits2_pos m) + e) ->
  bounded prec emax mU eU = true ->
  val (Zpos m) e < val (Zpos mU) eU
  \/ (l = loc_Exact /\ val (Zpos m) e <= val (Zpos mU) eU) ->
  binary_round_aux prec emax s (Zpos m) e l = S754_zero s
  \/ exists (p : positive) (e2 : Z),
       binary_round_aux prec emax s (Zpos m) e l = S754_finite s p e2
       /\ bounded prec emax p e2 = true
       /\ val (Zpos p) e2 <= val (Zpos mU) eU.
Proof.
  intros He Hq HU Hle.
  destruct (round_canonical s m e l Hq)
    as (mr & Hmr & [[_ R0] | (p & e2 & Ep & Hq2 & Hc & Hres)]); [now left|right].
  set (q := fexp prec emax (Zpos (digits2_pos m) + e)) in *.
  pose proof (digits_bounds m) as [Hlo Hhi].
  pose proof (digits_bounds mU) as [Ulo Uhi].
  pose proof (digits_bounds p) as [Plo Phi].
  pose proof (bounded_canonical mU eU HU) as [Uc Ue].
  set (d := Zpos (digits2_pos m)) in *.
  set (dU := Zpos (digits2_pos mU)) in *.
  set (dp := Zpos (digits2_pos p)) in *.
  assert (Hd : 1 <= d) by (unfold d; lia).
  assert (HdU : 1 <= dU) by (unfold dU; lia).
  assert (Hdp : 1 <= dp) by (unfold dp; lia).
  assert (Eq : q = Z.max (d + e - 24) (-149)) by (unfold q; now rewrite fexp_eq).
  rewrite fexp_eq in Uc, Hc.
  (* the bound is on the grid of the exponent [q] *)
  assert (HqU : q <= eU).
  { pose proof (val_ge_pow (Zpos m) e d Hlo Hd He) as V1.
    pose proof (val_lt_pow (Zpos mU) eU dU Uhi ltac:(lia) ltac:(lia)) as V2.
    assert (V3 : 2 ^ (d - 1 + e + 1000) < 2 ^ (dU + eU + 1000)) by lia.
    apply pow2_lt_inv in V3; lia. }
  set (m1 := Zpos m / 2 ^ (q - e)) in *.
  assert (V1 : val m1 q <= val (Zpos m) e).
  { pose proof (val_div_le (Zpos m) e (q - e) ltac:(lia) ltac:(lia) He) as V.
    now replace (e + (q - e)) with q in V by lia. }
  assert (Vr : val mr q <= val (Zpos mU) eU).
  { destruct Hmr as [-> | [-> Hi]]; [lia|].
    assert (V2 : val m1 q < val (Zpos mU) eU).
    { destruct Hle as [Hlt | [-> Hle]]; [lia|].
      destruct Hi as [Hi | Hi]; [congruence|].
      pose proof (val_div_lt (Zpos m) e (q - e) ltac:(lia) ltac:(lia) He Hi) as V.
      replace (e + (q - e)) with q in V by lia. fold m1 in V. lia. }
    pose proof (val_shift (Zpos mU) q (eU - q) ltac:(lia) ltac:(lia)) as VU.
    replace (q + (eU - q)) with eU in VU by lia. rewrite <- VU in V2 |- *.
    unfold val in V2 |- *. pose proof (pow2_pos (q + 1000) ltac:(lia)) as P.
    apply Z.mul_lt_mono_pos_r in V2; [|exact P].
    apply Z.mul_le_mono_nonneg_r; lia. }
  assert (Vp : val (Zpos p) e2 = val mr q).
  { rewrite <- Ep. rewrite val_shift by lia. f_equal. lia. }
  assert (He2 : e2 <= 104).
  { destruct (Z.le_gt_cases e2 104) as [|Hgt]; auto. exfalso.
    assert (dp = 24) as Edp by lia. rewrite Edp in Plo.
    pose proof (val_ge_pow (Zpos p) e2 24 Plo ltac:(lia) ltac:(lia)) as W1.
    pose proof (val_lt_pow (Zpos mU) eU dU Uhi ltac:(lia) ltac:(lia)) as W2.
    assert (W3 : 2 ^ (24 - 1 + e2 + 1000) < 2 ^ (dU + eU + 1000)) by lia.
    apply pow2_lt_inv in W3; lia. }
  exists p, e2. apply Z.leb_le in He2 as He2'. rewrite He2' in Hres.
  split; [exact Hres|]. split; [|lia].
  apply canonical_bounded; [|exact He2]. fold dp. rewrite fexp_eq. exact Hc.
Qed.

(** Rounding keeps the magnitude: the exponent of the result is at least the
    one of the canonical float of the same number of digits. *)
Lemma round_lower (s : bool) (m : positive) (e : Z) (l : location) :
  e <= fexp prec emax (Zpos (digits2_pos m) + e) ->
  -149 < Zpos (digits2_pos m) + e ->
  exists (p : positive) (e2 : Z),
    Zpos (digits2_pos m) + e - 24 <= e2
    /\ binary_round_aux prec emax s (Zpos m) e l
       = if e2 <=? 104 then S754_finite s p e2 else S754_infinity s.
Proof.
  intros Hq HD.
  destruct (round_canonical s m e l Hq)
    as (mr & Hmr & [[E0 _] | (p & e2 & Ep & Hq2 & Hc & Hres)]).
  - exfalso. pose proof (digits_bounds m) as [Hlo Hhi].
    rewrite fexp_eq in Hq, Hmr.
    set (d := Zpos (digits2_pos m)) in *.
    set (q := Z.max (d + e - 24) (-149)) in *.
    pose proof (div_pow_ge (Zpos m) d (q - e) Hlo ltac:(lia)) as Hg.
    pose proof (pow2_pos (d - 1 - (q - e)) ltac:(lia)). lia.
  - exists p, e2. split; [|exact Hres]. rewrite fexp_eq in Hq2. lia.
Qed.

(** Whatever is rounded, the mantissa of the result has at most 24 bits and
    its exponent is bounded by the magnitude of what is rounded. *)
Lemma round_bound (s : bool) (m e : Z) (l : location) :
  0 <= m ->
  binary_round_aux prec emax s m e l = S754_zero s
  \/ exists (p : positive) (e2 : Z),
       Zpos p < 2 ^ 24
       /\ e <= e2 <= Z.max e (fexp prec emax (Zdigits2 m + e + 1))
       /\ binary_round_aux prec emax s m e l
          = if e2 <=? 104 then S754_finite s p e2 else S754_infinity s.
Proof.
  intros Hm.
  destruct (binary_round_aux_cases s m e l Hm) as (mr & Hmr & Hnn & Hres).
  cbv zeta in Hnn, Hres. rewrite !fexp_eq in *.
  destruct (Zdigits2_bounds m Hm) as (Hd0 & Hdhi & _).
  set (d := Zdigits2 m) in *.
  set (e1 := e + Z.max (Z.max (d + e - 24) (-149) - e) 0) in *.
  set (m1 := m / 2 ^ (e1 - e)) in *.
  assert (H1 : 0 <= m1).
  { apply Z.div_pos; [lia | apply pow2_pos; lia]. }
  assert (Hj : exists j, 0 <= j /\ j + e1 <= Z.max (d + e) e1 /\ m1 < 2 ^ j).
  { destruct (Z.le_gt_cases (e1 - e) d) as [Hk|Hk].
    - exists (d - (e1 - e)). repeat split; try lia.
      apply div_pow_lt; lia.
    - exists 0. repeat split; try lia. unfold m1.
      rewrite (div_pow_small m d (e1 - e)); lia. }
  destruct Hj as (j & Hj0 & Hj1 & Hj2).
  assert (Hr : 0 <= mr < 2 ^ (j + 1)).
  { rewrite Z.pow_add_r by lia. change (2 ^ 1) with 2. lia. }
  assert (Hdr : Zdigits2 mr <= j + 1) by (apply Zdigits2_le; lia).
  destruct (Zdigits2_bounds mr ltac:(lia)) as (Hr0 & Hrhi & _).
  set (dr := Zdigits2 mr) in *.
  set (e2 := e1 + Z.max (Z.max (dr + e1 - 24) (-149) - e1) 0) in *.
  destruct (mr / 2 ^ (e2 - e1)) as [|p|p] eqn:E2; [now left| |lia].
  right. exists p, e2. change (emax - prec) with 104 in Hres.
  split; [|split; [|exact Hres]].
  - rewrite <- E2.
    destruct (Z.le_gt_cases (e2 - e1) dr) as [Hk|Hk].
    + pose proof (div_pow_lt mr dr (e2 - e1) ltac:(lia) Hrhi ltac:(lia)).
      assert (2 ^ (dr - (e2 - e1)) <= 2 ^ 24) by (apply Z.pow_le_mono_r; lia). lia.
    + rewrite (div_pow_small mr dr (e2 - e1)) in E2; lia.
  - lia.
Qed.

(** ** Alignment and normalisation *)

Lemma shl_align_spec (mx : positive) (ex ex' : Z) :
  snd (shl_align mx ex ex') = Z.min ex ex'
  /\ Zpos (fst (shl_align mx ex ex')) = Zpos mx * 2 ^ (ex - Z.min ex ex').
Proof.
  unfold shl_align. destruct (ex' - ex) as [|d|d] eqn:E; simpl.
  - replace (Z.min ex ex') with ex by lia. rewrite Z.sub_diag. simpl. lia.
  - replace (Z.min ex ex') with ex by lia. rewrite Z.sub_diag. simpl. lia.
  - replace (Z.min ex ex') with ex' by lia. split; auto.
    change (Pos.iter xO mx d) with (shift_pos d mx).
    rewrite shift_pos_correct, Z.pow_pos_fold.
    replace (ex - ex') with (Zpos d) by lia. ring.
Qed.

Lemma digits_shift (m mz : positive) (k : Z) :
  0 <= k -> Zpos mz = Zpos m * 2 ^ k ->
  Zpos (digits2_pos mz) = Zpos (digits2_pos m) + k.
Proof.
  intros Hk E. pose proof (digits_bounds m) as [Hlo Hhi].
  pose proof (pow2_pos k Hk) as P.
  set (d := Zpos (digits2_pos m)) in *. assert (1 <= d) by (unfold d; lia).
  apply Z.le_antisymm.
  - apply digits_le. rewrite E, Z.pow_add_r by lia. nia.
  - apply digits_ge. rewrite E. replace (d + k - 1) with (d - 1 + k) by lia.
    rewrite Z.pow_add_r by lia. nia.
Qed.

(** [binary_round] aligns the mantissa so that the rounding starts at or
    below the exponent of the result. *)
Lemma binary_round_aligned (s : bool) (m : positive) (e : Z) :
  exists (mz : positive) (ez : Z),
    binary_round prec emax s m e = binary_round_aux prec emax s (Zpos mz) ez loc_Exact
    /\ ez = Z.min e (fexp prec emax (Zpos (digits2_pos m) + e))
    /\ Zpos mz = Zpos m * 2 ^ (e - ez)
    /\ Zpos (digits2_pos mz) + ez = Zpos (digits2_pos m) + e.
Proof.
  unfold binary_round.
  pose proof (shl_align_spec m e (fexp prec emax (Zpos (digits2_pos m) + e)))
    as [E1 E2].
  destruct (shl_align m e _) as [mz ez]. simpl in E1, E2.
  exists mz, ez. split; [reflexivity|]. split; [exact E1|].
  rewrite <- E1 in E2. split; [exact E2|].
  rewrite (digits_shift m mz (e - ez)); [lia | lia | exact E2].
Qed.

Lemma binary_round_upper (s : bool) (m : positive) (e : Z)
    (mU : positive) (eU : Z) :
  -600 <= e -> bounded prec emax mU eU = true ->
  val (Zpos m) e <= val (Zpos mU) eU ->
  binary_round prec emax s m e = S754_zero s
  \/ exists (p : positive) (e2 : Z),
       binary_round prec emax s m e = S754_finite s p e2
       /\ bounded prec emax p e2 = true
       /\ val (Zpos p) e2 <= val (Zpos mU) eU.
Proof.
  intros He HU Hle.
  destruct (binary_round_aligned s m e) as (mz & ez & -> & Ez & Em & Ed).
  assert (Hz : -1000 <= ez) by (rewrite fexp_eq in Ez; lia).
  apply round_upper; auto.
  - rewrite Ed. lia.
  - right. split; auto. rewrite Em, val_shift by lia.
    now replace (ez + (e - ez)) with e by lia.
Qed.

Lemma binary_round_lower (s : bool) (m : positive) (e : Z) :
  -149 < Zpos (digits2_pos m) + e ->
  exists (p : positive) (e2 : Z),
    Zpos (digits2_pos m) + e - 24 <= e2
    /\ binary_round prec emax s m e
       = if e2 <=? 104 then S754_finite s p e2 else S754_infinity s.
Proof.
  intros HD.
  destruct (binary_round_aligned s m e) as (mz & ez & -> & Ez & Em & Ed).
  rewrite <- Ed in HD |- *. apply round_lower; auto. rewrite Ed. lia.
Qed.

Lemma binary_round_valid (s : bool) (m : positive) (e : Z) :
  valid_binary prec emax (binary_round prec emax s m e) = true.
Proof.
  destruct (binary_round_aligned s m e) as (mz & ez & -> & Ez & Em & Ed).
  destruct (round_canonical s mz ez loc_Exact ltac:(rewrite Ed; lia))
    as (mr & _ & [[_ ->] | (p & e2 & _ & _ & Hc & ->)]); auto.
  destruct (Z.leb_spec e2 104); auto. simpl. now apply canonical_bounded.
Qed.

Lemma binary_normalize_valid (m e : Z) (szero : bool) :
  valid_binary prec emax (binary_normalize prec emax m e szero) = true.
Proof. destruct m; simpl; auto using binary_round_valid. Qed.

(** ** Magnitudes *)

Lemma atMost_nonneg (v : Z) (a : float) : atMost v a -> 0 <= v.
Proof.
  destruct a as [s|s| |s m e]; simpl; try tauto.
  intros [He Hv]. pose proof (val_pos (Zpos m) e ltac:(lia) ltac:(lia)). lia.
Qed.

Lemma atMost_le (v v' : Z) (a : float) : v <= v' -> atMost v a -> atMost v' a.
Proof. destruct a as [s|s| |s m e]; simpl; try tauto; lia. Qed.

Lemma boundedBy_le (v v' : Z) (a : float) :
  v <= v' -> boundedBy v a -> boundedBy v' a.
Proof. intros H [Hc Ha]. split; eauto using atMost_le. Qed.

Lemma atMost_finite (v : Z) (a : float) : atMost v a -> is_finite a = true.
Proof. destruct a; simpl; tauto. Qed.

Lemma canonical_exponent (s : bool) (m : positive) (e : Z) :
  canonical (S754_finite s m e) = true -> -149 <= e <= 104.
Proof. intros H. now apply bounded_canonical in H. Qed.

Lemma normalize_upper (M e : Z) (mU : positive) (eU : Z) :
  -600 <= e -> bounded prec emax mU eU = true ->
  val (Z.abs M) e <= val (Zpos mU) eU ->
  boundedBy (val (Zpos mU) eU) (binary_normalize prec emax M e false).
Proof.
  intros He HU Hle. split; [apply binary_normalize_valid|].
  pose proof (bounded_canonical mU eU HU) as [_ HeU].
  pose proof (val_pos (Zpos mU) eU ltac:(lia) ltac:(lia)) as PU.
  destruct M as [|m|m]; simpl; [lia| |];
    [destruct (binary_round_upper false m e mU eU He HU Hle)
       as [-> | (p & e2 & -> & Hb & Hv)]
    |destruct (binary_round_upper true m e mU eU He HU Hle)
       as [-> | (p & e2 & -> & Hb & Hv)]];
    simpl; try lia; apply bounded_canonical in Hb; lia.
Qed.

(** ** Sums and differences *)

Lemma aligned_val (m : positive) (e ez : Z) :
  -600 <= ez <= e ->
  val (Zpos (fst (shl_align m e ez))) ez = val (Zpos m) e.
Proof.
  intros H. destruct (shl_align_spec m e ez) as [_ ->].
  replace (Z.min e ez) with ez by lia. rewrite val_shift by lia.
  now replace (ez + (e - ez)) with e by lia.
Qed.

Lemma val_plus (a b e : Z) : val (a + b) e = val a e + val b e.
Proof. unfold val. ring. Qed.

Lemma val_mono (a b e : Z) : a <= b -> -1000 <= e -> val a e <= val b e.
Proof.
  intros H He. unfold val. pose proof (pow2_pos (e + 1000) ltac:(lia)).
  apply Z.mul_le_mono_nonneg_r; lia.
Qed.

Lemma add_canonical (a b : float) :
  canonical a = true -> canonical b = true -> canonical (add a b) = true.
Proof.
  unfold canonical, add, SFadd.
  destruct a as [sa|sa| |sa ma ea], b as [sb|sb| |sb mb eb]; intros Ha Hb; auto;
    try (destruct sa, sb; now auto).
  apply binary_normalize_valid.
Qed.

Lemma add_boundedBy (a b : float) (va vb : Z) (mU : positive) (eU : Z) :
  boundedBy va a -> boundedBy vb b -> bounded prec emax mU eU = true ->
  va + vb <= val (Zpos mU) eU ->
  boundedBy (val (Zpos mU) eU) (add a b).
Proof.
  intros [Ca Ha] [Cb Hb] HU Hle.
  pose proof (atMost_nonneg _ _ Ha). pose proof (atMost_nonneg _ _ Hb).
  destruct a as [sa|sa| |sa ma ea]; try contradiction;
    destruct b as [sb|sb| |sb mb eb]; try contradiction.
  - split; [now apply add_canonical|]. destruct sa, sb; simpl; lia.
  - split; auto. simpl in *. lia.
  - split; auto. simpl in *. lia.
  - apply canonical_exponent in Ca as Ea. apply canonical_exponent in Cb as Eb.
    destruct Ha as [_ Ha]. destruct Hb as [_ Hb].
    unfold add, SFadd. apply normalize_upper; auto; [lia|].
    set (ez := Z.min ea eb).
    pose proof (aligned_val ma ea ez ltac:(lia)) as Va.
    pose proof (aligned_val mb eb ez ltac:(lia)) as Vb.
    set (X := Zpos (fst (shl_align ma ea ez))) in *.
    set (Y := Zpos (fst (shl_align mb eb ez))) in *.
    apply Z.le_trans with (val (X + Y) ez).
    + apply val_mono; [|lia]. unfold X, Y. destruct sa, sb; simpl; lia.
    + rewrite val_plus. lia.
Qed.

Lemma sub_boundedBy (a b : float) (va vb : Z) (mU : positive) (eU : Z) :
  boundedBy va a -> boundedBy vb b -> bounded prec emax mU eU = true ->
  va + vb <= val (Zpos mU) eU ->
  boundedBy (val (Zpos mU) eU) (sub a b).
Proof.
  intros [Ca Ha] [Cb Hb] HU Hle.
  pose proof (atMost_nonneg _ _ Ha). pose proof (atMost_nonneg _ _ Hb).
  destruct a as [sa|sa| |sa ma ea]; try contradiction;
    destruct b as [sb|sb| |sb mb eb]; try contradiction.
  - split; [destruct sa, sb; reflexivity|]. destruct sa, sb; simpl; lia.
  - split; auto. simpl in *. lia.
  - split; auto. simpl in *. lia.
  - apply canonical_exponent in Ca as Ea. apply canonical_exponent in Cb as Eb.
    destruct Ha as [_ Ha]. destruct Hb as [_ Hb].
    unfold sub, SFsub. apply normalize_upper; auto; [lia|].
    set (ez := Z.min ea eb).
    pose proof (aligned_val ma ea ez ltac:(lia)) as Va.
    pose proof (aligned_val mb eb ez ltac:(lia)) as Vb.
    set (X := Zpos (fst (shl_align ma ea ez))) in *.
    set (Y := Zpos (fst (shl_align mb eb ez))) in *.
    apply Z.le_trans with (val (X + Y) ez).
    + apply val_mono; [|lia]. unfold X, Y. destruct sa, sb; simpl; lia.
    + rewrite val_plus. lia.
Qed.

(** ** Order and value of canonical floats *)

Lemma canonical_le_val (m1 : positive) (e1 : Z) (m2 : positive) (e2 : Z) :
  bounded prec emax m1 e1 = true -> bounded prec emax m2 e2 = true ->
  e1 < e2 \/ (e1 = e2 /\ Zpos m1 <= Zpos m2) ->
  val (Zpos m1) e1 <= val (Zpos m2) e2.
Proof.
  intros H1 H2 Hle.
  pose proof (bounded_canonical _ _ H1) as [_ E1].
  pose proof (bounded_canonical _ _ H2) as [_ E2].
  pose proof (bounded_mantissa _ _ H1) as [M1 _].
  pose proof (bounded_mantissa _ _ H2) as [_ M2].
  destruct Hle as [Hlt | [-> Hm]].
  - pose proof (val_lt_pow (Zpos m1) e1 24 M1 ltac:(lia) ltac:(lia)) as V1.
    pose proof (val_ge_pow (Zpos m2) e2 24 (M2 ltac:(lia)) ltac:(lia) ltac:(lia)) as V2.
    assert (2 ^ (24 + e1 + 1000) <= 2 ^ (24 - 1 + e2 + 1000))
      by (apply Z.pow_le_mono_r; lia).
    lia.
  - apply val_mono; lia.
Qed.

(** A float of binary32 that lies in the cube has a magnitude of at most
    one. *)
Lemma inside_boundedBy (c : float) :
  canonical c = true -> inside c = true -> boundedBy (val 8388608 (-23)) c.
Proof.
  intros Hc Hi. split; auto. pose proof (inside_finite c Hi) as Hf.
  unfold inside in Hi. apply andb_true_iff in Hi.
  destruct Hi as [L1 L2]. apply le_iff in L1 as (_ & _ & L1).
  apply le_iff in L2 as (_ & _ & L2).
  destruct c as [s|s| |s m e]; [|discriminate Hf|discriminate Hf|].
  - apply Z.lt_le_incl, val_pos; lia.
  - apply canonical_exponent in Hc as He. split; [lia|].
    apply canonical_le_val; auto.
    destruct s; simpl in L1, L2; unfold lexlt in L1, L2; lia.
Qed.

(** A float whose exponent is above the one of [BOUNDARY] is out of the
    cube. *)
Lemma outside_large (s : bool) (p : positive) (e : Z) :
  -22 <= e -> outside (S754_finite s p e) = true.
Proof.
  intros He. unfold outside. apply orb_true_iff.
  destruct s; [left | right]; apply lt_iff; repeat split; auto;
    simpl; unfold lexlt; lia.
Qed.

Lemma outside_infinity (s : bool) : outside (S754_infinity s) = true.
Proof. now destruct s. Qed.

(** A coordinate of the cube to which a velocity of magnitude four or more
    is added leaves the cube. *)
Lemma add_large (c v : float) :
  boundedBy (val 8388608 (-23)) c -> canonical v = true ->
  atLeast (val 8388608 (-21)) v ->
  outside (add c v) = true.
Proof.
  intros [Cc Hc] Cv Hv.
  replace (val 8388608 (-23)) with (2 ^ 1000) in Hc by (vm_compute; reflexivity).
  replace (val 8388608 (-21)) with (2 ^ 1002) in Hv by (vm_compute; reflexivity).
  destruct v as [sv|sv| |sv mv ev]; try contradiction. unfold atLeast in Hv.
  apply canonical_exponent in Cv as Ev.
  destruct c as [sc|sc| |sc mc ec]; try contradiction.
  - simpl. apply outside_large.
    pose proof (bounded_mantissa _ _ Cv) as [Mv _].
    pose proof (val_lt_pow (Zpos mv) ev 24 Mv ltac:(lia) ltac:(lia)) as V.
    assert (V' : 2 ^ 1002 < 2 ^ (24 + ev + 1000)) by lia.
    apply pow2_lt_inv in V'; lia.
  - apply canonical_exponent in Cc as Ec. destruct Hc as [_ Hc].
    unfold add, SFadd. set (ez := Z.min ec ev).
    pose proof (aligned_val mc ec ez ltac:(lia)) as Vc.
    pose proof (aligned_val mv ev ez ltac:(lia)) as Vv.
    set (X := Zpos (fst (shl_align mc ec ez))) in *.
    set (Y := Zpos (fst (shl_align mv ev ez))) in *.
    assert (HX : 0 < X) by (unfold X; lia).
    assert (HYX : 2 ^ 1001 <= val (Y - X) ez).
    { replace (Y - X) with (Y + - X) by lia. rewrite val_plus.
      replace (2 ^ 1002) with (4 * 2 ^ 1000) in Hv by (vm_compute; reflexivity).
      replace (2 ^ 1001) with (2 * 2 ^ 1000) by (vm_compute; reflexivity).
      replace (val (- X) ez) with (- val X ez) by (unfold val; ring).
      pose proof (pow2_pos 1000 ltac:(lia)). lia. }
    assert (HYX' : X < Y).
    { destruct (Z.lt_ge_cases X Y) as [|Hge]; auto. exfalso.
      assert (H0 : val (Y - X) ez <= val 0 ez) by (apply val_mono; lia).
      replace (val 0 ez) with 0 in H0 by (unfold val; ring).
      pose proof (pow2_pos 1001 ltac:(lia)). lia. }
    assert (Hsum : exists m : positive,
               cond_Zopp sc X + cond_Zopp sv Y = cond_Zopp sv (Zpos m)
               /\ Y - X <= Zpos m).
    { destruct sc, sv; simpl.
      - exists (Z.to_pos (X + Y)). lia.
      - exists (Z.to_pos (Y - X)). lia.
      - exists (Z.to_pos (Y - X)). lia.
      - exists (Z.to_pos (X + Y)). lia. }
    destruct Hsum as (m & -> & Hm).
    assert (Hd : 2 <= Zpos (digits2_pos m) + ez).
    { pose proof (digits_bounds m) as [_ Hhi].
      pose proof (val_lt_pow (Zpos m) ez (Zpos (digits2_pos m)) Hhi
                    ltac:(lia) ltac:(lia)) as V.
      pose proof (val_mono (Y - X) (Zpos m) ez Hm ltac:(lia)) as V'.
      assert (V2 : 2 ^ 1001 < 2 ^ (Zpos (digits2_pos m) + ez + 1000)) by lia.
      apply pow2_lt_inv in V2; lia. }
    assert (Hr : binary_normalize prec emax (cond_Zopp sv (Zpos m)) ez false
                 = binary_round prec emax sv m ez) by (now destruct sv).
    rewrite Hr.
    destruct (binary_round_lower sv m ez ltac:(lia)) as (p & e2 & He2 & ->).
    destruct (e2 <=? 104); [apply outside_large; lia | apply outside_infinity].
Qed.

(** ** Products and quotients *)

Lemma mul_boundedBy (a : float) (sc : bool) (mc : positive) (ec : Z)
    (va : Z) (mU : positive) (eU : Z) :
  atMost va a -> 2 ^ 23 <= Zpos mc -> -200 <= ec <= 0 ->
  bounded prec emax mU eU = true ->
  va * Zpos mc <= val (Zpos mU) eU * 2 ^ (- ec) ->
  boundedBy (val (Zpos mU) eU) (mul a (S754_finite sc mc ec)).
Proof.
  intros Ha Hmc Hec HU Hle.
  pose proof (bounded_canonical mU eU HU) as [_ HeU].
  pose proof (val_pos (Zpos mU) eU ltac:(lia) ltac:(lia)) as PU.
  destruct a as [sa|sa| |sa ma ea]; try contradiction.
  - split; [reflexivity | simpl; lia].
  - destruct Ha as [Hea Ha]. unfold mul, SFmul.
    assert (Hprod : 2 ^ 23 <= Zpos (ma * mc)) by (rewrite Pos2Z.inj_mul; nia).
    pose proof (digits_ge (ma * mc) 24 Hprod) as Hd.
    destruct (round_upper (xorb sa sc) (ma * mc) (ea + ec) loc_Exact mU eU)
      as [-> | (p & e2 & -> & Hb & Hv)]; auto.
    + lia.
    + rewrite fexp_eq. lia.
    + right. split; auto.
      pose proof (pow2_pos (- ec) ltac:(lia)) as P.
      apply Z.mul_le_mono_pos_r with (p := 2 ^ (- ec)); [exact P|].
      eapply Z.le_trans; [|exact Hle].
      apply Z.le_trans with (val (Zpos ma) ea * Zpos mc).
      * unfold val. rewrite Pos2Z.inj_mul.
        replace (ea + 1000) with ((ea + ec + 1000) + - ec) by lia.
        rewrite (Z.pow_add_r 2 (ea + ec + 1000) (- ec)) by lia.
        apply Z.eq_le_incl. ring.
      * apply Z.mul_le_mono_nonneg_r; lia.
    + split; [reflexivity | simpl; lia].
    + split; [exact Hb|]. apply bounded_canonical in Hb. simpl. lia.
Qed.

(** The quotient of a float of magnitude at most two by a finite float
    whose exponent is at least [-28]. *)
Lemma div_atMost (a : float) (sb : bool) (mb : positive) (eb : Z) :
  boundedBy (val 8388608 (-22)) a -> -28 <= eb <= 104 ->
  atMost (2 ^ 1031) (div a (S754_finite sb mb eb)).
Proof.
  intros [Ca Ha] Heb.
  replace (val 8388608 (-22)) with (2 ^ 1001) in Ha by (vm_compute; reflexivity).
  destruct a as [sa|sa| |sa ma ea]; try contradiction.
  - simpl. apply Z.lt_le_incl, pow2_pos. lia.
  - apply canonical_exponent in Ca as Ea. destruct Ha as [_ Ha].
    pose proof (digits_bounds ma) as [Alo Ahi].
    pose proof (digits_bounds mb) as [Blo Bhi].
    unfold div, SFdiv, SFdiv_core_binary.
    change (Zdigits2 (Zpos ma)) with (Zpos (digits2_pos ma)).
    change (Zdigits2 (Zpos mb)) with (Zpos (digits2_pos mb)).
    set (da := Zpos (digits2_pos ma)) in *.
    set (db := Zpos (digits2_pos mb)) in *.
    assert (Hda : 1 <= da) by (unfold da; lia).
    assert (Hdb : 1 <= db) by (unfold db; lia).
    assert (Hmag : da + ea <= 2).
    { pose proof (val_ge_pow (Zpos ma) ea da Alo Hda ltac:(lia)) as V.
      assert (V' : 2 ^ (da - 1 + ea + 1000) < 2 ^ 1002).
      { replace (2 ^ 1002) with (2 * 2 ^ 1001) by (vm_compute; reflexivity).
        pose proof (pow2_pos 1001 ltac:(lia)). lia. }
      apply pow2_lt_inv in V'; lia. }
    cbv zeta. rewrite fexp_eq.
    set (e' := Z.min (Z.max (da + ea - (db + eb) - 24) (-149)) (ea - eb)).
    set (s := ea - eb - e').
    assert (Hs : 0 <= s) by (unfold s, e'; lia).
    set (m' := match s with
               | 0 => Zpos ma
               | Zpos _ => Z.shiftl (Zpos ma) s
               | Zneg _ => 0
               end).
    assert (Em' : m' = Zpos ma * 2 ^ s).
    { unfold m'. destruct s as [|k|k] eqn:Es; [simpl; lia | | lia].
      apply Z.shiftl_mul_pow2. lia. }
    destruct (Z.div_eucl m' (Zpos mb)) as [q r] eqn:Eq.
    assert (Hq : q = m' / Zpos mb) by (unfold Z.div; now rewrite Eq).
    pose proof (pow2_pos s Hs) as Ps.
    assert (Hq0 : 0 <= q) by (rewrite Hq; apply Z.div_pos; nia).
    assert (Hqm : q <= m').
    { rewrite Hq. apply Z.div_le_upper_bound; nia. }
    assert (Hdq : Zdigits2 q <= da + s).
    { apply Zdigits2_le; try lia. rewrite Z.pow_add_r by lia. nia. }
    destruct (Zdigits2_bounds q Hq0) as (Hdq0 & _ & _).
    destruct (round_bound (xorb sa sb) q e' (new_location (Zpos mb) r) Hq0)
      as [-> | (p & e2 & Hp & He2 & ->)].
    + simpl. apply Z.lt_le_incl, pow2_pos. lia.
    + rewrite fexp_eq in He2.
      assert (He2' : -600 <= e2 <= 7) by (unfold s, e' in *; lia).
      destruct (Z.leb_spec e2 104) as [_|]; [|lia]. simpl. split; [lia|].
      pose proof (val_lt_pow (Zpos p) e2 24 Hp ltac:(lia) ltac:(lia)) as V.
      assert (2 ^ (24 + e2 + 1000) <= 2 ^ 1031) by (apply Z.pow_le_mono_r; lia).
      lia.
Qed.

(** ** The bounds of a run *)

Lemma boundedByb_spec (v : Z) (a : float) : boundedByb v a = true -> boundedBy v a.
Proof.
  unfold boundedByb, boundedBy. rewrite andb_true_iff. intros [Hc H].
  split; auto. destruct a as [s|s| |s m e]; try discriminate.
  - apply Z.leb_le in H. exact H.
  - apply andb_true_iff in H as [H1 H2]. apply Z.leb_le in H1, H2. split; auto.
Qed.

Lemma zero_boundedBy (v : Z) : 0 <= v -> boundedBy v zero.
Proof. intros H. split; [reflexivity | exact H]. Qed.

Lemma boundedBy_not_nan (v : Z) (a : float) : boundedBy v a -> is_nan a = false.
Proof. intros [_ H]. destruct a; simpl in *; tauto. Qed.

Lemma contained_le (v v' : Z) (p : Particle) :
  v <= v' -> contained v p -> contained v' p.
Proof.
  intros H (Hb & Cx & Cy & Cz & Vx & Vy & Vz).
  repeat split; auto; eapply boundedBy_le; eauto.
Qed.

(** The Brownian term is one of 199 floats, of magnitude at most [1/4]. *)
Lemma brownian_boundedBy (rand : nat -> Z) (k : nat) :
  boundedBy brownianBound (brownian rand k).
Proof.
  unfold brownian. pose proof (Z.rem_bound_abs (rand k) 100 ltac:(lia)) as Hb.
  set (v := Z.rem (rand k) 100 - 50).
  assert (Hv : exists n, (n < 199)%nat /\ v = Z.of_nat n - 149).
  { exists (Z.to_nat (v + 149)). unfold v. lia. }
  destruct Hv as (n & Hn & ->).
  assert (Hall : forallb (fun n => boundedByb brownianBound
                                     (mul (of_int (Z.of_nat n - 149)) BROWNIAN_MOTION))
                         (seq 0 199) = true) by (vm_compute; reflexivity).
  rewrite forallb_forall in Hall. apply boundedByb_spec, Hall. apply in_seq. lia.
Qed.

Lemma randomVelocity_boundedBy (rand : nat -> Z) (k : nat) :
  boundedBy speedBound (randomVelocity rand k).
Proof.
  unfold randomVelocity. pose proof (Z.rem_bound_abs (rand k) 100 ltac:(lia)) as Hb.
  set (v := Z.rem (rand k) 100 - 50).
  assert (Hv : exists n, (n < 199)%nat /\ v = Z.of_nat n - 149).
  { exists (Z.to_nat (v + 149)). unfold v. lia. }
  destruct Hv as (n & Hn & ->).
  assert (Hall : forallb (fun n => boundedByb speedBound
                                     (div (of_int (Z.of_nat n - 149)) (of_int 50000)))
                         (seq 0 199) = true) by (vm_compute; reflexivity).
  rewrite forallb_forall in Hall. apply boundedByb_spec, Hall. apply in_seq. lia.
Qed.

Lemma randomCoordinate_canonical (rand : nat -> Z) (k : nat) :
  canonical (randomCoordinate rand k) = true.
Proof.
  unfold randomCoordinate. pose proof (Z.rem_bound_abs (rand k) 200 ltac:(lia)) as Hb.
  set (v := Z.rem (rand k) 200 - 100).
  assert (Hv : exists n, (n < 399)%nat /\ v = Z.of_nat n - 299).
  { exists (Z.to_nat (v + 299)). unfold v. lia. }
  destruct Hv as (n & Hn & ->).
  assert (Hall : forallb (fun n => canonical (div (of_int (Z.of_nat n - 299))
                                                 (of_int 100)))
                         (seq 0 399) = true) by (vm_compute; reflexivity).
  rewrite forallb_forall in Hall. apply Hall. apply in_seq. lia.
Qed.

(** ** The boundary checks bound the velocity *)

Lemma damped_boundedBy (v : float) :
  boundedBy movedBound v -> boundedBy bouncedBound (mul v (neg half)).
Proof.
  intros [_ Hv]. change (neg half) with (S754_finite true 8388608 (-24)).
  apply mul_boundedBy with (va := movedBound); auto.
  - apply Z.leb_le. reflexivity.
  - lia.
  - apply Z.leb_le. vm_compute. reflexivity.
Qed.

Lemma bounce_sound (c v : float) :
  canonical c = true -> inside c = true -> boundedBy movedBound v ->
  inside (fst (bounce (add c v) v)) = true
  /\ canonical (fst (bounce (add c v) v)) = true
  /\ boundedBy bouncedBound (snd (bounce (add c v) v)).
Proof.
  intros Cc Hc Hv.
  assert (Hn : is_nan (add c v) = false).
  { apply add_not_nan_l; [now apply inside_finite | eapply boundedBy_not_nan; eauto]. }
  split; [now apply bounce_inside|].
  unfold bounce. destruct (lt (add c v) (neg BOUNDARY)) eqn:E1.
  - replace (lt BOUNDARY (fst (neg BOUNDARY, mul v (neg half)))) with false
      by reflexivity.
    split; [reflexivity | now apply damped_boundedBy].
  - cbn [fst snd]. destruct (lt BOUNDARY (add c v)) eqn:E2; cbn [fst snd].
    + split; [reflexivity | now apply damped_boundedBy].
    + split; [apply add_canonical; [exact Cc | apply Hv]|].
      destruct Hv as [Cv Hv]. split; [exact Cv|].
      destruct v as [s|s| |s m e]; try contradiction.
      * apply Z.leb_le. vm_compute. reflexivity.
      * destruct Hv as [He Hv]. split; [exact He|].
        destruct (Z.le_gt_cases (val (Zpos m) e) bouncedBound) as [|Hgt]; auto.
        exfalso.
        assert (Ho : outside (add c (S754_finite s m e)) = true).
        { apply add_large; auto; [now apply inside_boundedBy|].
          unfold atLeast.
          assert (val 8388608 (-21) <= bouncedBound)
            by (apply Z.leb_le; vm_compute; reflexivity).
          lia. }
        unfold outside in Ho. rewrite E1, E2 in Ho. discriminate.
Qed.

Section Bounds.

Variable rand : nat -> Z.

Lemma moveParticle_contained (k : nat) (p : Particle) :
  contained speedBound p -> contained bouncedBound (moveParticle rand k p).
Proof.
  intros (Hb & Cx & Cy & Cz & Vx & Vy & Vz).
  unfold inBox in Hb. apply andb_true_iff in Hb as [Hb Iz].
  apply andb_true_iff in Hb as [Ix Iy].
  assert (Hsum : speedBound + brownianBound <= val 8388609 0)
    by (apply Z.leb_le; vm_compute; reflexivity).
  pose proof (add_boundedBy _ _ _ _ 8388609 0 Vx (brownian_boundedBy rand k)
                eq_refl Hsum) as Mx.
  pose proof (add_boundedBy _ _ _ _ 8388609 0 Vy (brownian_boundedBy rand (k + 1))
                eq_refl Hsum) as My.
  pose proof (add_boundedBy _ _ _ _ 8388609 0 Vz (brownian_boundedBy rand (k + 2))
                eq_refl Hsum) as Mz.
  destruct (bounce_sound _ _ Cx Ix Mx) as (Jx & Kx & Lx).
  destruct (bounce_sound _ _ Cy Iy My) as (Jy & Ky & Ly).
  destruct (bounce_sound _ _ Cz Iz Mz) as (Jz & Kz & Lz).
  unfold contained, inBox, moveParticle, boundaryChecks, updatePosition,
    brownianMotion, set_position, set_velocity.
  cbn [x y z dx dy dz radius isAttached].
  rewrite Jx, Jy, Jz.
  exact (conj eq_refl (conj Kx (conj Ky (conj Kz (conj Lx (conj Ly Lz)))))).
Qed.

End Bounds.

(** ** The attraction bounds the velocity *)

(** A distance within [ATTRACTION_RANGE] that is not below the attachment
    threshold of a run is a positive float of exponent at least [-28]. *)
Lemma far_enough (d other_radius : float) :
  other_radius = radius seedParticle \/ other_radius = grownRadius ->
  lt d ATTRACTION_RANGE = true ->
  lt d (mul (add other_radius PARTICLE_RADIUS) nine_tenths) = false ->
  exists (m : positive) (e : Z), d = S754_finite false m e /\ -28 <= e <= 104.
Proof.
  intros Hr H1 H2.
  assert (Ht : exists mt, mul (add other_radius PARTICLE_RADIUS) nine_tenths
                          = S754_finite false mt (-28)).
  { destruct Hr as [-> | ->]; eexists; vm_compute; reflexivity. }
  destruct Ht as (mt & Et). rewrite Et in H2.
  apply lt_iff in H1 as (Nd & _ & L1).
  destruct d as [s|s| |s m e].
  - assert (lt (S754_zero s) (S754_finite false mt (-28)) = true) by reflexivity.
    congruence.
  - destruct s.
    + assert (lt (S754_infinity true) (S754_finite false mt (-28)) = true)
        by reflexivity.
      congruence.
    + simpl in L1. unfold lexlt in L1. lia.
  - discriminate Nd.
  - destruct s.
    + assert (lt (S754_finite true m e) (S754_finite false mt (-28)) = true)
        by reflexivity.
      congruence.
    + exists m, e. split; auto. simpl in L1. unfold lexlt in L1.
      destruct (Z.lt_ge_cases e (-28)) as [Hlt|]; [|lia].
      assert (lt (S754_finite false m e) (S754_finite false mt (-28)) = true).
      { apply lt_iff. repeat split; auto. simpl. unfold lexlt. lia. }
      congruence.
Qed.

Lemma pulled_boundedBy (a b d v : float) :
  canonical a = true -> inside a = true ->
  canonical b = true -> inside b = true ->
  (exists (m : positive) (e : Z), d = S754_finite false m e /\ -28 <= e <= 104) ->
  boundedBy bouncedBound v ->
  boundedBy speedBound (add v (mul (div (sub a b) d) ATTRACTION_FORCE)).
Proof.
  intros Ca Ia Cb Ib (m & e & -> & He) Hv.
  assert (Hraw : boundedBy (val 8388608 (-22)) (sub a b)).
  { apply sub_boundedBy with (va := val 8388608 (-23)) (vb := val 8388608 (-23));
      auto using inside_boundedBy.
    apply Z.leb_le. vm_compute. reflexivity. }
  pose proof (div_atMost _ false m e Hraw He) as Hdir.
  assert (Hpull : boundedBy pullBound
                    (mul (div (sub a b) (S754_finite false m e)) ATTRACTION_FORCE)).
  { unfold ATTRACTION_FORCE.
    apply mul_boundedBy with (va := 2 ^ 1031); auto.
    - apply Z.leb_le. reflexivity.
    - lia.
    - apply Z.leb_le. vm_compute. reflexivity. }
  apply add_boundedBy with (va := bouncedBound) (vb := pullBound); auto.
  apply Z.leb_le. vm_compute. reflexivity.
Qed.

Lemma attract_contained (p other : Particle) :
  contained bouncedBound p -> radius p = PARTICLE_RADIUS ->
  contained speedBound other ->
  radius other = radius seedParticle \/ radius other = grownRadius ->
  lt (distance p other) ATTRACTION_RANGE = true ->
  contained speedBound (attract p other (distance p other)).
Proof.
  intros (Hb & Cx & Cy & Cz & Vx & Vy & Vz) Hr (Hb' & Cx' & Cy' & Cz' & _) Hr' Hd.
  assert (H0 : 0 <= speedBound) by (apply Z.leb_le; vm_compute; reflexivity).
  unfold inBox in Hb, Hb'.
  apply andb_true_iff in Hb as [Hb Iz]. apply andb_true_iff in Hb as [Ix Iy].
  apply andb_true_iff in Hb' as [Hb' Iz']. apply andb_true_iff in Hb' as [Ix' Iy'].
  unfold attract, pull.
  destruct (direction p other) as [[dirX dirY] dirZ] eqn:Edir.
  cbn [radius set_velocity]. rewrite Hr.
  destruct (lt (distance p other)
              (mul (add (radius other) PARTICLE_RADIUS) nine_tenths)) eqn:Ethr.
  - unfold attach, contained, inBox. cbn [x y z dx dy dz set_velocity]. rewrite Ix, Iy, Iz.
    pose proof (zero_boundedBy speedBound H0) as Z0.
    exact (conj eq_refl (conj Cx (conj Cy (conj Cz (conj Z0 (conj Z0 Z0)))))).
  - pose proof (far_enough _ _ Hr' Hd Ethr) as Hfar.
    unfold direction in Edir. rewrite dirLength_distance in Edir.
    unfold rawDirection in Edir.
    assert (Hpos : lt zero (distance p other) = true).
    { destruct Hfar as (m & e & -> & _). reflexivity. }
    rewrite Hpos in Edir. injection Edir as <- <- <-.
    unfold contained, inBox. cbn [x y z dx dy dz set_velocity].
    rewrite Ix, Iy, Iz.
    exact (conj eq_refl (conj Cx (conj Cy (conj Cz
             (conj (pulled_boundedBy _ _ _ _ Cx' Ix' Cx Ix Hfar Vx)
                (conj (pulled_boundedBy _ _ _ _ Cy' Iy' Cy Iy Hfar Vy)
                      (pulled_boundedBy _ _ _ _ Cz' Iz' Cz Iz Hfar Vz))))))).
Qed.

Lemma attraction_contained (p : Particle) (ps : list Particle) :
  contained bouncedBound p -> radius p = PARTICLE_RADIUS ->
  Forall sound ps ->
  contained speedBound (attraction p ps).
Proof.
  intros Hp Hr Hps.
  assert (Hle : bouncedBound <= speedBound)
    by (apply Z.leb_le; vm_compute; reflexivity).
  pose proof (contained_le _ _ p Hle Hp) as Hp'.
  unfold attraction.
  destruct (findNearest_spec p ps) as [[-> | (j & q & -> & Hj & Hq & _)] _]; auto.
  rewrite Hj. destruct (lt (distance p q) ATTRACTION_RANGE) eqn:Hd; auto.
  destruct (Forall_lookup_1 _ _ _ _ Hps Hj) as [Cq Sq].
  unfold settled in Sq. rewrite Hq in Sq. destruct Sq as (_ & _ & _ & Rq).
  now apply attract_contained.
Qed.

Section Run.

Variable rand : nat -> Z.

Lemma updateParticle_sound (i : nat) (w : World) :
  Forall sound (particles w) -> Forall sound (particles (updateParticle rand i w)).
Proof.
  intros Hw. pose proof (updateParticle_evolves rand i w) as Hev.
  unfold updateParticle in *.
  destruct (particles w !! i) as [p|] eqn:Hi; auto.
  destruct (isAttached p) eqn:Ha; auto.
  cbn [particles] in *.
  destruct (Forall_lookup_1 _ _ _ _ Hw Hi) as [Cp Sp].
  assert (Hr : radius p = PARTICLE_RADIUS).
  { unfold settled in Sp. now rewrite Ha in Sp. }
  pose proof (moveParticle_contained rand (calls w) p Cp) as C1.
  set (p1 := moveParticle rand (calls w) p) in *.
  assert (S1 : sound p1).
  { split.
    - eapply contained_le; [|exact C1]. apply Z.leb_le. vm_compute. reflexivity.
    - unfold settled. unfold p1. rewrite moveParticle_isAttached, Ha.
      now rewrite moveParticle_radius. }
  assert (Hps1 : Forall sound (<[i := p1]> (particles w))).
  { apply Forall_insert; auto. }
  apply Forall_insert; auto. split.
  - apply attraction_contained; auto.
  - apply evolves_settled with p1; [|apply S1].
    apply attraction_evolves. unfold p1. now rewrite moveParticle_isAttached.
Qed.

Lemma updateLoop_sound (n : nat) : forall (i : nat) (w : World),
  Forall sound (particles w) -> Forall sound (particles (updateLoop rand n i w)).
Proof.
  induction n as [|n IH]; intros i w Hw; simpl; auto.
  apply IH, updateParticle_sound, Hw.
Qed.

Lemma initialize_sound (n : nat) :
  (forall k, 0 <= rand k) -> Forall sound (particles (initialize rand n)).
Proof.
  intros Hrand.
  assert (H0 : 0 <= speedBound) by (apply Z.leb_le; vm_compute; reflexivity).
  pose proof (zero_boundedBy speedBound H0) as Z0.
  induction n as [|n IH].
  - constructor; [|constructor]. split.
    + exact (conj eq_refl (conj eq_refl (conj eq_refl (conj eq_refl
               (conj Z0 (conj Z0 Z0)))))).
    + unfold settled. simpl. auto.
  - change (initialize rand (S n)) with (spawnParticle rand (initialize rand n)).
    unfold spawnParticle. cbn [particles]. apply Forall_app. split; auto.
    constructor; [|constructor]. split; [|reflexivity].
    unfold contained, inBox. cbn [x y z dx dy dz newParticle set_velocity].
    rewrite !randomCoordinate_inside by auto.
    exact (conj eq_refl
             (conj (randomCoordinate_canonical _ _)
                (conj (randomCoordinate_canonical _ _)
                   (conj (randomCoordinate_canonical _ _)
                      (conj (randomVelocity_boundedBy _ _)
                         (conj (randomVelocity_boundedBy _ _)
                               (randomVelocity_boundedBy _ _))))))).
Qed.

Lemma simulation_sound (n t : nat) :
  (forall k, 0 <= rand k) ->
  Forall sound (particles (run rand (initialize rand n) t)).
Proof.
  intros Hrand. induction t as [|t IH].
  - now apply initialize_sound.
  - change (run rand (initialize rand n) (S t))
      with (updateParticles rand (run rand (initialize rand n) t)).
    apply updateLoop_sound, IH.
Qed.

End Run.

(** ** Distances in the cube are finite *)

Lemma digits_mul (a b : positive) :
  Zpos (digits2_pos a) + Zpos (digits2_pos b) - 1 <= Zpos (digits2_pos (a * b)).
Proof.
  pose proof (digits_bounds a) as [Alo _]. pose proof (digits_bounds b) as [Blo _].
  set (da := Zpos (digits2_pos a)) in *. set (db := Zpos (digits2_pos b)) in *.
  assert (1 <= da) by (unfold da; lia). assert (1 <= db) by (unfold db; lia).
  apply digits_ge. rewrite Pos2Z.inj_mul.
  replace (da + db - 1 - 1) with ((da - 1) + (db - 1)) by lia.
  rewrite Z.pow_add_r by lia.
  pose proof (pow2_pos (da - 1) ltac:(lia)). pose proof (pow2_pos (db - 1) ltac:(lia)).
  apply Z.mul_le_mono_nonneg; lia.
Qed.

Lemma mul_canonical_boundedBy (a b : float) (va vb : Z) (mU : positive) (eU : Z) :
  boundedBy va a -> boundedBy vb b -> bounded prec emax mU eU = true ->
  va * vb <= val (Zpos mU) eU * 2 ^ 1000 ->
  boundedBy (val (Zpos mU) eU) (mul a b).
Proof.
  intros [Ca Ha] [Cb Hb] HU Hle.
  pose proof (bounded_canonical mU eU HU) as [_ HeU].
  pose proof (val_pos (Zpos mU) eU ltac:(lia) ltac:(lia)) as PU.
  destruct a as [sa|sa| |sa ma ea]; try contradiction;
    destruct b as [sb|sb| |sb mb eb]; try contradiction;
    try (split; [reflexivity | simpl; lia]).
  pose proof (bounded_canonical _ _ Ca) as [Fa Ea].
  pose proof (bounded_canonical _ _ Cb) as [Fb Eb].
  destruct Ha as [_ Ha]. destruct Hb as [_ Hb].
  pose proof (digits_mul ma mb) as Hd. rewrite fexp_eq in Fa, Fb.
  unfold mul, SFmul.
  destruct (round_upper (xorb sa sb) (ma * mb) (ea + eb) loc_Exact mU eU)
    as [-> | (p & e2 & -> & Hb2 & Hv)]; auto.
  - lia.
  - rewrite fexp_eq. lia.
  - right. split; auto.
    pose proof (pow2_pos 1000 ltac:(lia)) as P.
    apply Z.mul_le_mono_pos_r with (p := 2 ^ 1000); [exact P|].
    eapply Z.le_trans; [|exact Hle].
    apply Z.le_trans with (val (Zpos ma) ea * val (Zpos mb) eb).
    + unfold val. rewrite Pos2Z.inj_mul.
      replace (ea + eb + 1000) with ((ea + 1000) + eb) by lia.
      apply Z.eq_le_incl.
      transitivity (Zpos ma * Zpos mb * (2 ^ (ea + 1000 + eb) * 2 ^ 1000)); [ring|].
      rewrite <- Z.pow_add_r by lia.
      replace (ea + 1000 + eb + 1000) with ((ea + 1000) + (eb + 1000)) by lia.
      rewrite Z.pow_add_r by lia. ring.
    + pose proof (val_pos (Zpos ma) ea ltac:(lia) ltac:(lia)).
      pose proof (val_pos (Zpos mb) eb ltac:(lia) ltac:(lia)).
      apply Z.mul_le_mono_nonneg; lia.
  - split; [reflexivity | simpl; lia].
  - split; [exact Hb2|]. apply bounded_canonical in Hb2. simpl. lia.
Qed.

Lemma round_nonneg (m e : Z) (l : location) :
  0 <= m -> nonneg (binary_round_aux prec emax false m e l).
Proof.
  intros Hm. destruct (round_bound false m e l Hm) as [-> | (p & e2 & _ & _ & ->)].
  - exact I.
  - now destruct (e2 <=? 104).
Qed.

Lemma square_nonneg (a : float) : is_finite a = true -> nonneg (mul a a).
Proof.
  destruct a as [s|s| |s m e]; try discriminate; intros _.
  - exact I.
  - unfold mul, SFmul. rewrite xorb_nilpotent. apply round_nonneg. lia.
Qed.

Lemma add_nonneg (a b : float) : nonneg a -> nonneg b -> nonneg (add a b).
Proof.
  destruct a as [sa|[|]| |[|] ma ea]; try contradiction;
    destruct b as [sb|[|]| |[|] mb eb]; try contradiction; intros _ _;
    try exact I.
  - now destruct sa, sb.
  - unfold add, SFadd. cbn [cond_Zopp]. rewrite <- Pos2Z.inj_add.
    cbn [binary_normalize].
    match goal with
    | |- nonneg (binary_round _ _ _ ?m ?e) =>
        destruct (binary_round_aligned false m e) as (mz & ez & -> & _)
    end.
    apply round_nonneg. lia.
Qed.

(** The square root of a finite float of binary32 that is not negative is
    finite. *)
Lemma sqrt_finite (a : float) :
  canonical a = true -> is_finite a = true -> nonneg a ->
  is_finite (sqrt a) = true.
Proof.
  destruct a as [s|s| |[|] m e]; try discriminate; try contradiction;
    intros Ca _ _; [reflexivity|].
  pose proof (bounded_canonical _ _ Ca) as [_ He].
  pose proof (bounded_mantissa _ _ Ca) as [Hm _].
  pose proof (digits_bounds m) as [_ Hhi].
  assert (Hd : 1 <= Zpos (digits2_pos m) <= 24).
  { split; [lia|]. now apply digits_le. }
  unfold sqrt, SFsqrt, SFsqrt_core_binary.
  change (Zdigits2 (Zpos m)) with (Zpos (digits2_pos m)).
  set (d := Zpos (digits2_pos m)) in *. cbv zeta.
  rewrite fexp_eq, !Z.div2_div.
  set (e' := Z.min (Z.max ((d + e + 1) / 2 - 24) (-149)) (e / 2)).
  set (s := e - 2 * e').
  assert (Hs : 0 <= s) by (unfold s, e'; Z.div_mod_to_equations; lia).
  set (m' := match s with
             | 0 => Zpos m
             | Zpos _ => Z.shiftl (Zpos m) s
             | Zneg _ => 0
             end).
  assert (Em' : m' = Zpos m * 2 ^ s).
  { unfold m'. destruct s as [|k|k] eqn:Es; [simpl; lia | | lia].
    apply Z.shiftl_mul_pow2. lia. }
  pose proof (pow2_pos s Hs) as Ps.
  assert (Hm' : 0 <= m' < 2 ^ (d + s)).
  { rewrite Em', Z.pow_add_r by lia. split.
    - apply Z.mul_nonneg_nonneg; lia.
    - apply Z.mul_lt_mono_pos_r; lia. }
  pose proof (Z.sqrtrem_sqrt m') as Eq.
  destruct (Z.sqrtrem m') as [q r]. simpl in Eq. subst q.
  pose proof (Z.sqrt_nonneg m') as Hq0.
  pose proof (Z.sqrt_spec m' ltac:(lia)) as [Hq _].
  set (q := Z.sqrt m') in *.
  set (h := (d + s + 1) / 2).
  assert (Hh : 0 <= h /\ d + s <= 2 * h /\ 2 * h <= d + s + 1)
    by (unfold h; Z.div_mod_to_equations; lia).
  assert (Hqh : q < 2 ^ h).
  { destruct (Z.lt_ge_cases q (2 ^ h)) as [|Hge]; auto. exfalso.
    pose proof (pow2_pos h ltac:(lia)) as Ph.
    assert (2 ^ (d + s) <= 2 ^ (2 * h)) by (apply Z.pow_le_mono_r; lia).
    replace (2 * h) with (h + h) in H by lia.
    rewrite (Z.pow_add_r 2 h h) in H by lia.
    assert (2 ^ h * 2 ^ h <= q * q) by (apply Z.mul_le_mono_nonneg; lia).
    lia. }
  assert (Hdq : Zdigits2 q <= h) by (apply Zdigits2_le; lia).
  destruct (Zdigits2_bounds q Hq0) as (Hdq0 & _ & _).
  match goal with
  | |- context [binary_round_aux _ _ _ _ _ ?l] =>
      destruct (round_bound false q e' l Hq0) as [-> | (p & e2 & _ & He2 & ->)]
  end; [reflexivity|].
  rewrite fexp_eq in He2.
  assert (He' : e' <= e / 2) by (unfold e'; lia).
  assert (e2 <= 104) by (unfold s in *; Z.div_mod_to_equations; lia).
  destruct (Z.leb_spec e2 104); [reflexivity | lia].
Qed.

Lemma finite_below_infinity (a : float) :
  is_finite a = true -> lt a INFINITY = true.
Proof. now destruct a as [s|s| |[|] m e]. Qed.

(** The distance between two points of the cube is a finite float. *)
Lemma distance_finite (p q : Particle) :
  inBox p = true ->
  canonical (x p) = true -> canonical (y p) = true -> canonical (z p) = true ->
  inBox q = true ->
  canonical (x q) = true -> canonical (y q) = true -> canonical (z q) = true ->
  is_finite (distance p q) = true.
Proof.
  intros Hp Cx Cy Cz Hq Cx' Cy' Cz'.
  unfold inBox in Hp, Hq.
  apply andb_true_iff in Hp as [Hp Iz]. apply andb_true_iff in Hp as [Ix Iy].
  apply andb_true_iff in Hq as [Hq Iz']. apply andb_true_iff in Hq as [Ix' Iy'].
  assert (Hsub : forall a b, canonical a = true -> inside a = true ->
                   canonical b = true -> inside b = true ->
                   boundedBy (val 8388608 (-22)) (sub a b)).
  { intros a b Ca Ia Cb Ib.
    apply sub_boundedBy with (va := val 8388608 (-23)) (vb := val 8388608 (-23));
      auto using inside_boundedBy.
    apply Z.leb_le. vm_compute. reflexivity. }
  assert (Hsq : forall a, boundedBy (val 8388608 (-22)) a ->
                  boundedBy (val 8388608 (-21)) (mul a a) /\ nonneg (mul a a)).
  { intros a Ha. split.
    - apply mul_canonical_boundedBy
        with (va := val 8388608 (-22)) (vb := val 8388608 (-22)); auto.
      apply Z.leb_le. vm_compute. reflexivity.
    - apply square_nonneg. destruct Ha as [_ Ha]. now apply atMost_finite in Ha. }
  unfold distance. cbv zeta.
  destruct (Hsq _ (Hsub _ _ Cx Ix Cx' Ix')) as [Bx Nx].
  destruct (Hsq _ (Hsub _ _ Cy Iy Cy' Iy')) as [By Ny].
  destruct (Hsq _ (Hsub _ _ Cz Iz Cz' Iz')) as [Bz Nz].
  assert (Bxy : boundedBy (val 8388608 (-20)) (add (mul (sub (x p) (x q)) (sub (x p) (x q)))
                                                   (mul (sub (y p) (y q)) (sub (y p) (y q))))).
  { eapply add_boundedBy; eauto. apply Z.leb_le. vm_compute. reflexivity. }
  assert (Bxyz : boundedBy (val 8388608 (-19))
                   (add (add (mul (sub (x p) (x q)) (sub (x p) (x q)))
                             (mul (sub (y p) (y q)) (sub (y p) (y q))))
                        (mul (sub (z p) (z q)) (sub (z p) (z q))))).
  { eapply add_boundedBy; eauto. apply Z.leb_le. vm_compute. reflexivity. }
  apply sqrt_finite.
  - apply Bxyz.
  - destruct Bxyz as [_ H]. now apply atMost_finite in H.
  - auto using add_nonneg.
Qed.

(** * The runs of the simulation *)

(** ** The seed stays where it is *)

Section Seed.

Variable rand : nat -> Z.

Lemma evolves_seed (l l' : list Particle) :
  Forall2 evolves l l' -> l !! 0%nat = Some seedParticle ->
  l' !! 0%nat = Some seedParticle.
Proof.
  intros Hev Hl. destruct (Forall2_lookup_l _ _ _ _ _ Hev Hl) as (q & Hq & Hsq).
  unfold evolves in Hsq. simpl in Hsq. now subst q.
Qed.

Lemma run_seed (n t : nat) :
  particles (run rand (initialize rand n) t) !! 0%nat = Some seedParticle.
Proof.
  apply evolves_seed with (particles (initialize rand n)); [apply run_evolves|].
  destruct (initialize_particles rand n) as (free & -> & _). reflexivity.
Qed.

(** What the scan of the iteration [j] of a pass reads, in a run: the moved
    particle and every other particle lie in the cube, and the seed is there,
    attached. *)
Lemma scan_input (n t j : nat) (p : Particle) :
  (forall k, 0 <= rand k) ->
  let w := before rand j (run rand (initialize rand n) t) in
  particles w !! j = Some p -> isAttached p = false ->
  let p1 := moveParticle rand (calls w) p in
  let ps1 := <[j := p1]> (particles w) in
  contained speedBound p1
  /\ Forall (contained speedBound) ps1
  /\ seedParticle ∈ ps1.
Proof.
  intros Hrand w Hj Ha p1 ps1.
  assert (Hw : Forall sound (particles w)).
  { unfold w, before. apply updateLoop_sound, simulation_sound, Hrand. }
  assert (Hseed : particles w !! 0%nat = Some seedParticle).
  { unfold w, before.
    eapply evolves_seed; [apply updateLoop_evolves | apply run_seed]. }
  assert (Hj0 : j <> 0%nat).
  { intros ->. rewrite Hseed in Hj. injection Hj as <-. discriminate Ha. }
  destruct (Forall_lookup_1 _ _ _ _ Hw Hj) as [Cp _].
  assert (C1 : contained speedBound p1).
  { eapply contained_le; [|apply moveParticle_contained, Cp].
    apply Z.leb_le. vm_compute. reflexivity. }
  split; [exact C1|]. split.
  - apply Forall_insert; auto. eapply Forall_impl; [exact Hw|]. now intros q [Cq _].
  - apply list_elem_of_lookup_2 with 0%nat. unfold ps1.
    now rewrite list_lookup_insert_ne.
Qed.

End Seed.

Lemma contained_distance_finite (v v' : Z) (p q : Particle) :
  contained v p -> contained v' q -> is_finite (distance p q) = true.
Proof.
  intros (Hb & Cx & Cy & Cz & _) (Hb' & Cx' & Cy' & Cz' & _).
  now apply distance_finite.
Qed.

(** C5 (as amended).  The search returns the attached particle that is
    nearest by the distances that [distance] computes in [float].  Whenever
    some attached particle of the vector is at a distance below [INFINITY]
    from [p], the search returns an attached particle [q] of the vector with
    [minDist] its distance, and no attached particle of the vector is nearer:
    its distance is not below that of [q], hence, unless it is a NaN, at least
    that of [q].  In a run of the simulation ([rand()] being non-negative),
    for every free particle processed in a pass, moved to [p1] and written
    back to the vector, the search returns an attached particle [q] whose
    distance to [p1] is at most the distance from [p1] to every attached
    particle of the vector. *)
Theorem nearest_is_minimal :
  (forall (p : Particle) (ps : list Particle) (q0 : Particle),
      q0 ∈ ps -> isAttached q0 = true -> lt (distance p q0) INFINITY = true ->
      exists j q,
        findNearest p ps = (distance p q, Some j)
        /\ ps !! j = Some q /\ isAttached q = true
        /\ forall q', q' ∈ ps -> isAttached q' = true ->
             lt (distance p q') (distance p q) = false
             /\ (is_nan (distance p q') = false ->
                 le (distance p q) (distance p q') = true))
  /\ (forall (rand : nat -> Z) (n t j : nat) (p : Particle),
        (forall k, 0 <= rand k) ->
        let w := before rand j (run rand (initialize rand n) t) in
        particles w !! j = Some p -> isAttached p = false ->
        let p1 := moveParticle rand (calls w) p in
        let ps1 := <[j := p1]> (particles w) in
        exists i q,
          findNearest p1 ps1 = (distance p1 q, Some i)
          /\ ps1 !! i = Some q /\ isAttached q = true
          /\ forall q', q' ∈ ps1 -> isAttached q' = true ->
               le (distance p1 q) (distance p1 q') = true).
Proof.
  split; [exact findNearest_minimal|].
  intros rand n t j p Hrand w Hj Ha p1 ps1.
  destruct (scan_input rand n t j p Hrand Hj Ha) as (C1 & Cps & Hseed).
  fold w p1 ps1 in C1, Cps, Hseed.
  rewrite Forall_forall in Cps.
  destruct (findNearest_minimal p1 ps1 seedParticle Hseed eq_refl)
    as (i & q & Hf & Hi & Hq & Hmin).
  { apply finite_below_infinity.
    eapply contained_distance_finite; [exact C1 | apply (Cps _ Hseed)]. }
  exists i, q. split; [exact Hf|]. split; [exact Hi|]. split; [exact Hq|].
  intros q' Hq' Ha'. apply (Hmin q' Hq' Ha').
  assert (Hfin : is_finite (distance p1 q') = true).
  { eapply contained_distance_finite; [exact C1 | apply (Cps _ Hq')]. }
  now destruct (distance p1 q').
Qed.

Lemma nearest_is_minimal_witness :
  (exists j q,
      findNearest chainB (particles chainWorld) = (distance chainB q, Some j)
      /\ particles chainWorld !! j = Some q /\ isAttached q = true
      /\ forall q', q' ∈ particles chainWorld -> isAttached q' = true ->
           lt (distance chainB q') (distance chainB q) = false
           /\ (is_nan (distance chainB q') = false ->
               le (distance chainB q) (distance chainB q') = true))
  /\ (let w := before rand50 1 (run rand50 (initialize rand50 2) 1) in
      exists p,
        particles w !! 1%nat = Some p /\ isAttached p = false
        /\ let p1 := moveParticle rand50 (calls w) p in
           let ps1 := <[1%nat := p1]> (particles w) in
           exists i q,
             findNearest p1 ps1 = (distance p1 q, Some i)
             /\ ps1 !! i = Some q /\ isAttached q = true
             /\ forall q', q' ∈ ps1 -> isAttached q' = true ->
                  le (distance p1 q) (distance p1 q') = true).
Proof.
  split.
  - exact (proj1 nearest_is_minimal chainB (particles chainWorld) seedParticle
             (list_elem_of_here _ _) eq_refl eq_refl).
  - intros w.
    assert (Hp : exists p, particles w !! 1%nat = Some p /\ isAttached p = false).
    { eexists. split; [vm_compute; reflexivity | reflexivity]. }
    destruct Hp as (p & Hp & Ha). exists p. split; [exact Hp|]. split; [exact Ha|].
    exact (proj2 nearest_is_minimal rand50 2%nat 1%nat 1%nat p
             (fun _ => Pos2Z.is_nonneg 50) Hp Ha).
Defined.

(** The nearest by the computed distance is not always the nearest.  In the
    first pass of the run made by the draws of [randNearTie], all
    non-negative, the particle 1 has attached to the seed when the particle 2
    is processed.  For the particle 2, moved, the search returns the
    particle 1, whose computed distance is below that of the seed; yet the
    seed is strictly nearer: the exact square of its Euclidean distance is the
    smaller one. *)
Lemma nearest_by_float_not_by_value :
  (forall k, 0 <= randNearTie k)
  /\ let w := before randNearTie 2 (run randNearTie (initialize randNearTie 2) 0) in
     exists p other,
       particles w !! 2%nat = Some p /\ isAttached p = false
       /\ let p1 := moveParticle randNearTie (calls w) p in
          let ps1 := <[2%nat := p1]> (particles w) in
          findNearest p1 ps1 = (distance p1 other, Some 1%nat)
          /\ ps1 !! 1%nat = Some other /\ isAttached other = true
          /\ ps1 !! 0%nat = Some seedParticle
          /\ lt (distance p1 other) (distance p1 seedParticle) = true
          /\ exactSquaredDistance p1 seedParticle < exactSquaredDistance p1 other.
Proof.
  split.
  - intros k. unfold randNearTie.
    do 18 (destruct k as [|k]; [simpl; lia|]). simpl. destruct k; simpl; lia.
  - cbv zeta.
    exists (nth 2 (particles (initialize randNearTie 2)) seedParticle).
    exists (nth 1 (particles (before randNearTie 2 (initialize randNearTie 2)))
                seedParticle).
    split; [vm_compute; reflexivity|]. split; [vm_compute; reflexivity|].
    split; [vm_compute; reflexivity|].
    split; [vm_compute; reflexivity|]. split; [vm_compute; reflexivity|].
    split; [vm_compute; reflexivity|].
    split; [vm_compute; reflexivity|].
    apply Z.ltb_lt. vm_compute. reflexivity.
Qed.

Section Containment.

Variable rand : nat -> Z.

Lemma sound_velocityDefined (p : Particle) : sound p -> velocityDefined p = true.
Proof.
  intros [(_ & _ & _ & _ & Vx & Vy & Vz) _]. unfold velocityDefined.
  now rewrite (boundedBy_not_nan _ _ Vx), (boundedBy_not_nan _ _ Vy),
    (boundedBy_not_nan _ _ Vz).
Qed.

(** C3 (as amended).  When every coordinate of every particle lies in
    [[-BOUNDARY, BOUNDARY]] and no component of a velocity is a NaN, every
    coordinate lies in [[-BOUNDARY, BOUNDARY]] after one pass.  In particular,
    in a run of the simulation ([rand()] being non-negative), after any
    number of passes every coordinate of every particle lies in
    [[-BOUNDARY, BOUNDARY]], and no component of a velocity is a NaN. *)
Theorem boundary_containment :
  (forall w : World,
      (forall p, p ∈ particles w -> inBox p = true /\ velocityDefined p = true) ->
      forall p', p' ∈ particles (updateParticles rand w) -> inBox p' = true)
  /\ ((forall k, 0 <= rand k) ->
      forall (n t : nat) (p : Particle),
        p ∈ particles (run rand (initialize rand n) t) ->
        inBox p = true /\ velocityDefined p = true).
Proof.
  split.
  - intros w Hw p' Hp'. apply list_elem_of_lookup in Hp' as [j Hp'].
    assert (Hj : (j < length (particles w))%nat).
    { apply lookup_lt_Some in Hp'. now rewrite updateParticles_length in Hp'. }
    destruct (lookup_lt_is_Some_2 _ _ Hj) as [p Hp].
    rewrite (updateParticles_lookup rand w j p Hp) in Hp'. injection Hp' as <-.
    destruct (Hw p) as [Hb Hv]; [eapply list_elem_of_lookup_2; eauto|].
    destruct (isAttached p); auto.
    simpl. rewrite attraction_inBox. now apply moveParticle_inBox.
  - intros Hrand n t p Hp.
    pose proof (simulation_sound rand n t Hrand) as H.
    rewrite Forall_forall in H. specialize (H p Hp).
    split; [apply H | now apply sound_velocityDefined].
Qed.

(** In a run of the simulation ([rand()] being non-negative), after any
    number of passes every component of the velocity of every particle is a
    finite float of binary32, of magnitude at most [2^23]: no velocity is ever
    an infinity or a NaN. *)
Theorem velocity_stays_bounded (n t : nat) (p : Particle) :
  (forall k, 0 <= rand k) ->
  p ∈ particles (run rand (initialize rand n) t) ->
  (boundedBy speedBound (dx p) /\ boundedBy speedBound (dy p)
   /\ boundedBy speedBound (dz p))
  /\ is_finite (dx p) = true /\ is_finite (dy p) = true /\ is_finite (dz p) = true
  /\ speedBound = 2 ^ 23 * 2 ^ 1000.
Proof.
  intros Hrand Hp.
  pose proof (simulation_sound rand n t Hrand) as H.
  rewrite Forall_forall in H. destruct (H p Hp) as [(_ & _ & _ & _ & Vx & Vy & Vz) _].
  split; [auto|].
  split; [eapply atMost_finite, Vx|].
  split; [eapply atMost_finite, Vy|].
  split; [eapply atMost_finite, Vz|].
  vm_compute. reflexivity.
Qed.

End Containment.

Lemma boundary_containment_witness :
  Forall (fun p => inBox p = true) (particles (updateParticles rand50 chainWorld))
  /\ Forall (fun p => inBox p = true /\ velocityDefined p = true)
            (particles (run rand50 (initialize rand50 2) 3)).
Proof.
  split.
  - apply Forall_forall.
    apply (proj1 (boundary_containment rand50) chainWorld).
    intros p Hp. unfold chainWorld in Hp. simpl in Hp.
    repeat (apply elem_of_cons in Hp as [-> | Hp]; [split; reflexivity|]).
    inversion Hp.
  - apply Forall_forall. intros p.
    apply (proj2 (boundary_containment rand50)). intros k. discriminate.
Defined.

Lemma velocity_stays_bounded_witness :
  Forall (fun p => is_finite (dx p) = true /\ is_finite (dy p) = true
                   /\ is_finite (dz p) = true)
         (particles (run rand50 (initialize rand50 2) 3)).
Proof.
  apply Forall_forall. intros p Hp.
  destruct (velocity_stays_bounded rand50 2 3 p (fun _ => Pos2Z.is_nonneg 50) Hp)
    as (_ & Fx & Fy & Fz & _).
  exact (conj Fx (conj Fy Fz)).
Defined.

(** ** The calls of [rand()] *)

Section Facts.

Variable rand : nat -> Z.

Lemma updateParticle_calls (i : nat) (w : World) :
  calls (updateParticle rand i w)
  = (calls w + 3 * length (filter (fun p => isAttached p = false)
                                  (take 1 (drop i (particles w)))))%nat.
Proof.
  unfold updateParticle. destruct (particles w !! i) as [p|] eqn:Hi.
  - rewrite (drop_S _ _ _ Hi). cbn [take].
    destruct (isAttached p) eqn:Ha.
    + rewrite filter_cons_False by (rewrite Ha; discriminate). simpl. lia.
    + rewrite filter_cons_True by exact Ha. simpl. lia.
  - rewrite drop_ge by (now apply lookup_ge_None). simpl. lia.
Qed.

Lemma updateParticle_drop (i : nat) (w : World) :
  drop (S i) (particles (updateParticle rand i w)) = drop (S i) (particles w).
Proof.
  unfold updateParticle. destruct (particles w !! i) as [p|]; auto.
  destruct (isAttached p); auto. cbn [particles].
  now rewrite !drop_insert_lt by lia.
Qed.

Lemma updateLoop_calls (n : nat) : forall (i : nat) (w : World),
  calls (updateLoop rand n i w)
  = (calls w + 3 * length (filter (fun p => isAttached p = false)
                                  (take n (drop i (particles w)))))%nat.
Proof.
  induction n as [|n IH]; intros i w.
  - simpl. lia.
  - cbn [updateLoop]. rewrite IH, updateParticle_drop, updateParticle_calls.
    destruct (particles w !! i) as [p|] eqn:Hi.
    + rewrite (drop_S _ _ _ Hi). cbn [take]. rewrite take_0, !filter_cons, filter_nil.
      destruct (decide (isAttached p = false)); cbn [length]; lia.
    + rewrite !drop_ge by (apply lookup_ge_None in Hi; lia).
      rewrite !take_nil. simpl. lia.
Qed.

(** One pass calls [rand()] three times for each particle that is free when
    the pass begins, and for no other. *)
Theorem three_draws_per_free_particle (w : World) :
  calls (updateParticles rand w)
  = (calls w + 3 * length (filter (fun p => isAttached p = false) (particles w)))%nat.
Proof.
  unfold updateParticles. rewrite updateLoop_calls.
  now rewrite drop_0, take_ge by lia.
Qed.

(** In a run of the simulation ([rand()] being non-negative) the distance
    between any two particles, as [distance] computes it, is a finite float:
    neither an infinity nor a NaN. *)
Theorem distances_are_finite (n t : nat) (p q : Particle) :
  (forall k, 0 <= rand k) ->
  p ∈ particles (run rand (initialize rand n) t) ->
  q ∈ particles (run rand (initialize rand n) t) ->
  is_finite (distance p q) = true /\ is_nan (distance p q) = false
  /\ lt (distance p q) INFINITY = true.
Proof.
  intros Hrand Hp Hq.
  pose proof (simulation_sound rand n t Hrand) as H. rewrite Forall_forall in H.
  destruct (H p Hp) as [Cp _]. destruct (H q Hq) as [Cq _].
  pose proof (contained_distance_finite _ _ p q Cp Cq) as Hf.
  split; [exact Hf|]. split; [now destruct (distance p q)|].
  now apply finite_below_infinity.
Qed.

(** In a run of the simulation every radius is one of three floats: a free
    particle has the radius [PARTICLE_RADIUS]; an attached particle has the
    radius of the seed, [PARTICLE_RADIUS * 2], or the radius
    [PARTICLE_RADIUS + GROWTH_RATE] of a particle that was attached in a
    pass. *)
Theorem radii_of_a_run (n t : nat) (p : Particle) :
  p ∈ particles (run rand (initialize rand n) t) ->
  (isAttached p = false /\ radius p = PARTICLE_RADIUS)
  \/ (isAttached p = true
      /\ (radius p = mul PARTICLE_RADIUS (of_int 2)
          \/ radius p = add PARTICLE_RADIUS GROWTH_RATE)).
Proof.
  intros Hp. pose proof (simulation_settled rand n t) as H.
  rewrite Forall_forall in H. specialize (H p Hp). unfold settled in H.
  destruct (isAttached p); [right | left]; split; auto.
  destruct H as (_ & _ & _ & H). exact H.
Qed.

End Facts.

Lemma distances_are_finite_witness :
  Forall (fun p => is_finite (distance p seedParticle) = true)
         (particles (run rand50 (initialize rand50 2) 3)).
Proof.
  apply Forall_forall. intros p Hp.
  apply (distances_are_finite rand50 2 3 p seedParticle
           (fun _ => Pos2Z.is_nonneg 50) Hp).
  apply list_elem_of_lookup_2 with 0%nat. apply run_seed.
Defined.

Lemma radii_of_a_run_witness :
  (isAttached seedParticle = false /\ radius seedParticle = PARTICLE_RADIUS)
  \/ (isAttached seedParticle = true
      /\ (radius seedParticle = mul PARTICLE_RADIUS (of_int 2)
          \/ radius seedParticle = add PARTICLE_RADIUS GROWTH_RATE)).
Proof.
  apply (radii_of_a_run rand50 2 3 seedParticle).
  apply list_elem_of_lookup_2 with 0%nat. apply run_seed.
Defined.

(** * The distance *)

(** The distance does not depend on the order of its arguments.
    [distance a b] is a NaN exactly when [distance b a] is one; when it is not
    a NaN, [distance b a] is the same float.  (Of a NaN the model keeps
    neither sign nor payload: which NaN is returned is not stated.) *)
Theorem distance_symmetric (a b : Particle) :
  is_nan (distance a b) = is_nan (distance b a)
  /\ (is_nan (distance a b) = false -> distance a b = distance b a).
Proof.
  assert (E : distance a b = distance b a).
  { unfold distance.
    now rewrite (mul_sub_swap (x a) (x b)), (mul_sub_swap (y a) (y b)),
      (mul_sub_swap (z a) (z b)). }
  split; [now rewrite E | intros _; exact E].
Qed.

Lemma round_lengthLike (m e : Z) (l : location) :
  0 <= m -> lengthLike (binary_round_aux prec emax false m e l).
Proof.
  intros Hm. destruct (round_bound false m e l Hm) as [-> | (p & e2 & _ & _ & ->)].
  - exact I.
  - now destruct (e2 <=? 104).
Qed.

Lemma square_lengthLike (u : float) : lengthLike (mul u u).
Proof.
  destruct u as [[|]|[|]| |s m e]; try exact I.
  unfold mul, SFmul. rewrite xorb_nilpotent. apply round_lengthLike. lia.
Qed.

Lemma add_lengthLike (a b : float) :
  lengthLike a -> lengthLike b -> lengthLike (add a b).
Proof.
  destruct a as [[|]|[|]| |[|] ma ea]; try contradiction;
    destruct b as [[|]|[|]| |[|] mb eb]; try contradiction; intros _ _;
    try exact I.
  unfold add, SFadd. cbn [cond_Zopp]. rewrite <- Pos2Z.inj_add.
  cbn [binary_normalize].
  match goal with
  | |- lengthLike (binary_round _ _ _ ?m ?e) =>
      destruct (binary_round_aligned false m e) as (mz & ez & -> & _)
  end.
  apply round_lengthLike. lia.
Qed.

Lemma sqrt_lengthLike (a : float) : lengthLike a -> lengthLike (sqrt a).
Proof.
  destruct a as [[|]|[|]| |[|] m e]; try contradiction; intros _; try exact I.
  unfold sqrt, SFsqrt.
  destruct (SFsqrt_core_binary prec emax (Zpos m) e) as [[q e'] l] eqn:E.
  apply round_lengthLike.
  unfold SFsqrt_core_binary in E.
  destruct (Z.sqrtrem _) as [q' r] eqn:Eq in E.
  injection E as <- _ _.
  pose proof (Z.sqrtrem_sqrt) as Hs.
  match type of Eq with Z.sqrtrem ?n = _ =>
    specialize (Hs n); rewrite Eq in Hs; simpl in Hs; rewrite Hs
  end.
  apply Z.sqrt_nonneg.
Qed.

Lemma sub_finite_not_nan (a b : float) :
  is_finite a = true -> is_finite b = true -> is_nan (sub a b) = false.
Proof.
  destruct a as [sa|sa| |sa ma ea]; try discriminate;
    destruct b as [sb|sb| |sb mb eb]; try discriminate; intros _ _;
    try reflexivity.
  - now destruct sa, sb.
  - apply binary_normalize_not_nan.
Qed.

Lemma square_not_nan (u : float) : is_nan u = false -> is_nan (mul u u) = false.
Proof.
  destruct u as [s|s| |s m e]; try discriminate; intros _; try reflexivity.
  apply binary_round_aux_not_nan. lia.
Qed.

Lemma add_lengthLike_not_nan (a b : float) :
  lengthLike a -> lengthLike b -> is_nan a = false -> is_nan b = false ->
  is_nan (add a b) = false.
Proof.
  destruct a as [[|]|[|]| |[|] ma ea]; try contradiction; try discriminate;
    destruct b as [[|]|[|]| |[|] mb eb]; try contradiction; try discriminate;
    intros _ _ _ _; try reflexivity.
  apply binary_normalize_not_nan.
Qed.

Lemma sqrt_lengthLike_not_nan (a : float) :
  lengthLike a -> is_nan a = false -> is_nan (sqrt a) = false.
Proof.
  intros Hl Hn. pose proof (sqrt_lengthLike a Hl) as H.
  destruct a as [[|]|[|]| |[|] m e]; try contradiction; try discriminate;
    try reflexivity.
  unfold sqrt, SFsqrt in *.
  destruct (SFsqrt_core_binary prec emax (Zpos m) e) as [[q e'] l] eqn:E.
  apply binary_round_aux_not_nan.
  unfold SFsqrt_core_binary in E.
  destruct (Z.sqrtrem _) as [q' r] eqn:Eq in E.
  injection E as <- _ _.
  pose proof (Z.sqrtrem_sqrt) as Hs.
  match type of Eq with Z.sqrtrem ?n = _ =>
    specialize (Hs n); rewrite Eq in Hs; simpl in Hs; rewrite Hs
  end.
  apply Z.sqrt_nonneg.
Qed.

(** What [distance] returns.  For all arguments it is [+0], a positive
    float, [+infinity] or a NaN: never a negative float, never [-0], and never
    below zero in the order of [float].  When the six coordinates are finite
    it is no NaN; it can still be [+infinity], by overflow, as between the
    points [(FLT_MAX, 0, 0)] and [(-FLT_MAX, 0, 0)]. *)
Theorem distance_is_a_length :
  (forall a b : Particle,
      lengthLike (distance a b) /\ lt (distance a b) zero = false)
  /\ (forall a b : Particle,
        finitePosition a -> finitePosition b -> is_nan (distance a b) = false)
  /\ distance (newParticle FLT_MAX zero zero false)
              (newParticle (neg FLT_MAX) zero zero false) = INFINITY.
Proof.
  assert (Hlen : forall a b, lengthLike (distance a b)).
  { intros a b. unfold distance. cbv zeta.
    apply sqrt_lengthLike.
    repeat apply add_lengthLike; apply square_lengthLike. }
  split; [|split].
  - intros a b. split; [apply Hlen|].
    specialize (Hlen a b). now destruct (distance a b) as [[|]|[|]| |[|] m e].
  - intros a b (Ax & Ay & Az) (Bx & By & Bz). unfold distance. cbv zeta.
    apply sqrt_lengthLike_not_nan.
    + repeat apply add_lengthLike; apply square_lengthLike.
    + repeat apply add_lengthLike_not_nan;
        try (repeat apply add_lengthLike; apply square_lengthLike);
        apply square_not_nan; now apply sub_finite_not_nan.
  - vm_compute. reflexivity.
Qed.

Lemma distance_is_a_length_witness :
  is_nan (distance chainA chainB) = false.
Proof.
  apply (proj1 (proj2 distance_is_a_length) chainA chainB); repeat split.
Defined.

(** * The cluster is connected *)

Lemma distance_position (a a' b : Particle) :
  x a' = x a -> y a' = y a -> z a' = z a -> distance a' b = distance a b.
Proof. unfold distance. now intros -> -> ->. Qed.

Lemma linked_member (ps : list Particle) (p : Particle) :
  linked ps p -> p ∈ ps /\ isAttached p = true.
Proof. destruct 1; auto. Qed.

Lemma linked_mono (ps ps' : list Particle) (p : Particle) :
  (forall q, q ∈ ps -> isAttached q = true -> q ∈ ps') ->
  linked ps p -> linked ps' p.
Proof.
  intros Hsub H. induction H as [Hs | p q Hq IH Hp Ha Hd].
  - apply linked_seed. now apply Hsub.
  - apply linked_touch with q; auto.
Qed.

(** A particle that the attraction step attaches is below the attachment
    threshold of an attached particle of the vector. *)
Lemma attraction_attached (p : Particle) (ps : list Particle) :
  isAttached p = false -> isAttached (attraction p ps) = true ->
  exists other,
    other ∈ ps /\ isAttached other = true
    /\ lt (distance p other) (mul (add (radius other) (radius p)) nine_tenths) = true.
Proof.
  intros Hp Ha. unfold attraction in Ha.
  destruct (findNearest_spec p ps) as [[E | (j & q & E & Hj & Hq & _)] _];
    rewrite E in Ha.
  - congruence.
  - rewrite Hj in Ha. destruct (lt (distance p q) ATTRACTION_RANGE); [|congruence].
    unfold attract in Ha.
    assert (Hr : radius (pull p q) = radius p).
    { unfold pull. now destruct (direction p q) as [[a b] c]. }
    assert (Hf : isAttached (pull p q) = false).
    { unfold pull. now destruct (direction p q) as [[a b] c]. }
    rewrite Hr in Ha.
    destruct (lt (distance p q) (mul (add (radius q) (radius p)) nine_tenths)) eqn:Ht;
      [|congruence].
    exists q. split; [eapply list_elem_of_lookup_2; eauto|]. auto.
Qed.

Section Cluster.

Variable rand : nat -> Z.

Lemma updateParticle_clustered (i : nat) (w : World) :
  clustered (particles w) -> clustered (particles (updateParticle rand i w)).
Proof.
  intros Hw. unfold updateParticle.
  destruct (particles w !! i) as [p|] eqn:Hi; auto.
  destruct (isAttached p) eqn:Ha; auto.
  cbn [particles].
  set (p1 := moveParticle rand (calls w) p).
  set (ps1 := <[i := p1]> (particles w)).
  set (p3 := attraction p1 ps1).
  pose proof (lookup_lt_Some _ _ _ Hi) as Hlen.
  unfold clustered in Hw. rewrite Forall_forall in Hw.
  assert (Hrp : radius p = PARTICLE_RADIUS).
  { specialize (Hw p (list_elem_of_lookup_2 _ _ _ Hi)). now rewrite Ha in Hw. }
  assert (Hsub : forall q, q ∈ particles w -> isAttached q = true ->
                           q ∈ <[i := p3]> ps1).
  { intros q Hq Hqa. apply list_elem_of_lookup in Hq as [j Hj].
    assert (j <> i) by (intros ->; congruence).
    apply list_elem_of_lookup_2 with j. unfold ps1.
    now rewrite !list_lookup_insert_ne by done. }
  assert (Hsub1 : forall q, q ∈ ps1 -> isAttached q = true -> q ∈ particles w).
  { intros q Hq Hqa. apply list_elem_of_lookup in Hq as [j Hj]. unfold ps1 in Hj.
    destruct (decide (i = j)) as [<- | Hne].
    - rewrite list_lookup_insert_eq in Hj by exact Hlen. injection Hj as <-.
      unfold p1 in Hqa. rewrite moveParticle_isAttached in Hqa. congruence.
    - rewrite list_lookup_insert_ne in Hj by done.
      eapply list_elem_of_lookup_2; eauto. }
  assert (Hf1 : isAttached p1 = false).
  { unfold p1. now rewrite moveParticle_isAttached. }
  apply Forall_lookup. intros j p' Hj.
  destruct (decide (i = j)) as [<- | Hne].
  - rewrite list_lookup_insert_eq in Hj by (unfold ps1; now rewrite length_insert).
    injection Hj as <-.
    destruct (isAttached p3) eqn:Ha3.
    + destruct (attraction_attached p1 ps1 Hf1 Ha3) as (other & Ho & Hoa & Hd).
      apply linked_touch with other.
      * apply linked_mono with (particles w); [exact Hsub|].
        specialize (Hw other (Hsub1 other Ho Hoa)). now rewrite Hoa in Hw.
      * apply list_elem_of_lookup_2 with i.
        apply list_lookup_insert_eq. unfold ps1. now rewrite length_insert.
      * exact Ha3.
      * destruct (attraction_position p1 ps1) as (Ex & Ey & Ez).
        rewrite (distance_position p1 p3 other Ex Ey Ez).
        unfold p1 in Hd. rewrite moveParticle_radius, Hrp in Hd. exact Hd.
    + pose proof (attraction_evolves p1 ps1 Hf1) as Hev.
      unfold evolves in Hev. rewrite Hf1 in Hev. fold p3 in Hev.
      destruct Hev as [[_ Hr] | [Hc _]]; [|congruence].
      rewrite Hr. unfold p1. now rewrite moveParticle_radius.
  - unfold ps1 in Hj. rewrite !list_lookup_insert_ne in Hj by done.
    specialize (Hw p' (list_elem_of_lookup_2 _ _ _ Hj)).
    destruct (isAttached p') eqn:Ha'; [|exact Hw].
    apply linked_mono with (particles w); [exact Hsub | exact Hw].
Qed.

Lemma updateLoop_clustered (n : nat) : forall (i : nat) (w : World),
  clustered (particles w) -> clustered (particles (updateLoop rand n i w)).
Proof.
  induction n as [|n IH]; intros i w Hw; simpl; auto.
  apply IH, updateParticle_clustered, Hw.
Qed.

Lemma initialize_clustered (n : nat) : clustered (particles (initialize rand n)).
Proof.
  destruct (initialize_particles rand n) as (free & E & _ & Hfree).
  unfold clustered. rewrite E. constructor.
  - simpl. apply linked_seed. apply list_elem_of_here.
  - eapply Forall_impl; [exact Hfree|]. intros p [Ha Hr]. now rewrite Ha.
Qed.

Lemma simulation_clustered (n t : nat) :
  clustered (particles (run rand (initialize rand n) t)).
Proof.
  induction t as [|t IH].
  - apply initialize_clustered.
  - change (run rand (initialize rand n) (S t))
      with (updateParticles rand (run rand (initialize rand n) t)).
    apply updateLoop_clustered, IH.
Qed.

(** In a run of the simulation the cluster is connected.  Every attached
    particle is linked to the seed through attached particles, each below the
    attachment threshold of the next; and an attached particle other than
    the seed has, at a distance below [0.9f * (seed radius + PARTICLE_RADIUS)],
    an attached particle that is itself linked to the seed. *)
Theorem cluster_is_connected (n t : nat) (p : Particle) :
  p ∈ particles (run rand (initialize rand n) t) ->
  isAttached p = true ->
  linked (particles (run rand (initialize rand n) t)) p
  /\ (p = seedParticle
      \/ exists q,
           linked (particles (run rand (initialize rand n) t)) q
           /\ lt (distance p q) attachThreshold = true).
Proof.
  intros Hp Ha.
  pose proof (simulation_clustered n t) as Hc. unfold clustered in Hc.
  rewrite Forall_forall in Hc. specialize (Hc p Hp). rewrite Ha in Hc.
  split; [exact Hc|].
  destruct Hc as [Hs | p q Hq Hp' Ha' Hd]; [now left | right].
  exists q. split; [exact Hq|].
  destruct (linked_member _ _ Hq) as [Hqin Hqa].
  pose proof (simulation_settled rand n t) as Hs. rewrite Forall_forall in Hs.
  specialize (Hs q Hqin). unfold settled in Hs. rewrite Hqa in Hs.
  destruct Hs as (_ & _ & _ & [Hr | Hr]); rewrite Hr in Hd.
  - exact Hd.
  - eapply lt_trans; [exact Hd|]. reflexivity.
Qed.

End Cluster.

Lemma cluster_is_connected_witness :
  exists p,
    particles (run randNear (initialize randNear 1) 1) !! 1%nat = Some p
    /\ isAttached p = true
    /\ p <> seedParticle
    /\ linked (particles (run randNear (initialize randNear 1) 1)) p.
Proof.
  assert (Hp : exists p, particles (run randNear (initialize randNear 1) 1) !! 1%nat
                         = Some p /\ isAttached p = true /\ radius p <> radius seedParticle).
  { eexists. split; [vm_compute; reflexivity|]. split; [reflexivity|].
    vm_compute. discriminate. }
  destruct Hp as (p & Hp & Ha & Hr). exists p.
  split; [exact Hp|]. split; [exact Ha|]. split; [congruence|].
  exact (proj1 (cluster_is_connected randNear 1 1 p
                  (list_elem_of_lookup_2 _ _ _ Hp) Ha)).
Defined.

(** * Without an attached particle, and with nothing but attached particles *)

Section Extremes.

Variable rand : nat -> Z.

Lemma updateParticle_allFree (i : nat) (w : World) :
  allFree (particles w) -> allFree (particles (updateParticle rand i w)).
Proof.
  intros Hw. unfold updateParticle.
  destruct (particles w !! i) as [p|] eqn:Hi; auto.
  destruct (isAttached p) eqn:Ha; auto.
  cbn [particles]. set (p1 := moveParticle rand (calls w) p).
  assert (H1 : allFree (<[i := p1]> (particles w))).
  { apply Forall_insert; auto. }
  apply Forall_insert; auto.
  rewrite attraction_out_of_range; auto.
  intros q Hq Hqa. unfold allFree in H1. rewrite Forall_forall in H1.
  specialize (H1 q Hq). congruence.
Qed.

Lemma updateLoop_allFree (n : nat) : forall (i : nat) (w : World),
  allFree (particles w) -> allFree (particles (updateLoop rand n i w)).
Proof.
  induction n as [|n IH]; intros i w Hw; simpl; auto.
  apply IH, updateParticle_allFree, Hw.
Qed.

Lemma allFree_filter (ps : list Particle) :
  allFree ps -> filter (fun p => isAttached p = false) ps = ps.
Proof.
  induction 1 as [|p ps Hp _ IH]; auto.
  rewrite filter_cons_True by exact Hp. now rewrite IH.
Qed.

(** Without an attached particle nothing is ever attached: when no particle
    of a state is attached, a pass moves each particle by lines 71-87 alone,
    the particle [j] with the draws [3j], [3j+1] and [3j+2] of the pass, and
    after any number of passes no particle is attached. *)
Theorem no_seed_no_cluster (w : World) :
  allFree (particles w) ->
  (forall (j : nat) (p : Particle),
      particles w !! j = Some p ->
      particles (updateParticles rand w) !! j
      = Some (moveParticle rand (calls w + 3 * j) p))
  /\ (forall t, allFree (particles (run rand w t))).
Proof.
  intros Hw. split.
  - intros j p Hp. rewrite (updateParticles_lookup rand w j p Hp).
    assert (Ha : isAttached p = false).
    { unfold allFree in Hw. rewrite Forall_lookup in Hw. eauto. }
    rewrite Ha. cbv zeta.
    assert (Hc : calls (before rand j w) = (calls w + 3 * j)%nat).
    { unfold before. rewrite updateLoop_calls, drop_0.
      rewrite allFree_filter.
      - rewrite length_take. apply lookup_lt_Some in Hp. lia.
      - unfold allFree. apply Forall_take, Hw. }
    rewrite Hc. f_equal. apply attraction_out_of_range.
    intros q Hq Hqa.
    assert (Hb : allFree (<[j := moveParticle rand (calls w + 3 * j) p]>
                            (particles (before rand j w)))).
    { apply Forall_insert; [apply updateLoop_allFree, Hw | exact Ha]. }
    unfold allFree in Hb. rewrite Forall_forall in Hb. specialize (Hb q Hq).
    congruence.
  - intros t. induction t as [|t IH]; [exact Hw|].
    change (run rand w (S t)) with (updateParticles rand (run rand w t)).
    apply updateLoop_allFree, IH.
Qed.

Lemma updateLoop_allAttached (n : nat) : forall (i : nat) (w : World),
  allAttached (particles w) -> updateLoop rand n i w = w.
Proof.
  induction n as [|n IH]; intros i w Hw; simpl; auto.
  assert (E : updateParticle rand i w = w).
  { unfold updateParticle. destruct (particles w !! i) as [p|] eqn:Hi; auto.
    unfold allAttached in Hw. rewrite Forall_lookup in Hw.
    now rewrite (Hw i p Hi). }
  rewrite E. now apply IH.
Qed.

(** When every particle is attached, and when the vector is empty, a pass
    changes nothing and calls [rand()] not once: the state is the same after
    any number of passes. *)
Theorem finished_simulation_is_still (w : World) (t : nat) :
  allAttached (particles w) ->
  updateParticles rand w = w /\ run rand w t = w.
Proof.
  intros Hw.
  assert (E : updateParticles rand w = w) by now apply updateLoop_allAttached.
  split; [exact E|].
  induction t as [|t IH]; auto.
  change (run rand w (S t)) with (updateParticles rand (run rand w t)).
  now rewrite IH.
Qed.

(** ** The particles of initializeSimulation *)

Lemma initialize_calls (n : nat) : calls (initialize rand n) = (6 * n)%nat.
Proof.
  induction n as [|n IH]; auto.
  change (initialize rand (S n)) with (spawnParticle rand (initialize rand n)).
  unfold spawnParticle. cbn [calls]. lia.
Qed.

(** The vector built by [initialize]: the seed first; then the free
    particle [i], made of the six draws [6i .. 6i+5], three for its position
    and three for its velocity; [6n] calls of [rand()] in all.  [rand()]
    being non-negative, every coordinate drawn is one of the 200 floats
    [k / 100.0f] with [-100 <= k <= 99], at least [-1] and at most [0.99f],
    and every component of a velocity is [k / 50000.0f] with
    [-50 <= k <= 49]. *)
Theorem initial_particles (n : nat) :
  particles (initialize rand n) !! 0%nat = Some seedParticle
  /\ calls (initialize rand n) = (6 * n)%nat
  /\ (forall i : nat, (i < n)%nat ->
        particles (initialize rand n) !! (S i)
        = Some (mkParticle (randomCoordinate rand (6 * i))
                           (randomCoordinate rand (6 * i + 1))
                           (randomCoordinate rand (6 * i + 2))
                           PARTICLE_RADIUS false
                           (randomVelocity rand (6 * i + 3))
                           (randomVelocity rand (6 * i + 4))
                           (randomVelocity rand (6 * i + 5))))
  /\ (forall k : nat, 0 <= rand k ->
        (exists c, -100 <= c <= 99
                   /\ randomCoordinate rand k = div (of_int c) (of_int 100))
        /\ le (neg BOUNDARY) (randomCoordinate rand k) = true
        /\ le (randomCoordinate rand k) (decimal 99 100) = true
        /\ (exists v, -50 <= v <= 49
                      /\ randomVelocity rand k = div (of_int v) (of_int 50000))).
Proof.
  split; [|split; [apply initialize_calls|split]].
  - destruct (initialize_particles rand n) as (free & -> & _). reflexivity.
  - induction n as [|n IH]; intros i Hi; [lia|].
    change (initialize rand (S n)) with (spawnParticle rand (initialize rand n)).
    unfold spawnParticle. cbn [particles]. rewrite initialize_calls.
    pose proof (initialize_length rand n) as Hlen.
    destruct (decide (i = n)) as [-> | Hne].
    + rewrite lookup_app_r by lia. rewrite Hlen, Nat.sub_diag. reflexivity.
    + rewrite lookup_app_l by lia. apply IH. lia.
  - intros k Hk.
    pose proof (Z.rem_bound_pos (rand k) 200 Hk ltac:(lia)) as Hb.
    pose proof (Z.rem_bound_pos (rand k) 100 Hk ltac:(lia)) as Hb'.
    split; [|split; [|split]].
    + exists (Z.rem (rand k) 200 - 100). split; [lia | reflexivity].
    + pose proof (randomCoordinate_inside rand k Hk) as Hin.
      unfold inside in Hin. now apply andb_true_iff in Hin.
    + unfold randomCoordinate. set (v := Z.rem (rand k) 200 - 100).
      assert (Hv : exists m, (m < 200)%nat /\ v = Z.of_nat m - 100).
      { exists (Z.to_nat (v + 100)). unfold v. lia. }
      destruct Hv as (m & Hm & ->).
      assert (Hall : forallb (fun m => le (div (of_int (Z.of_nat m - 100)) (of_int 100))
                                          (decimal 99 100))
                             (seq 0 200) = true) by (vm_compute; reflexivity).
      rewrite forallb_forall in Hall. apply Hall. apply in_seq. lia.
    + exists (Z.rem (rand k) 100 - 50). split; [lia | reflexivity].
Qed.

End Extremes.

Lemma no_seed_no_cluster_witness :
  allFree (particles (run rand50 (mkWorld [chainA; chainB] 0) 3))
  /\ particles (updateParticles rand50 (mkWorld [chainA; chainB] 0)) !! 1%nat
     = Some (moveParticle rand50 3 chainB).
Proof.
  assert (Hf : allFree (particles (mkWorld [chainA; chainB] 0)))
    by (repeat constructor).
  destruct (no_seed_no_cluster rand50 (mkWorld [chainA; chainB] 0) Hf) as [H1 H2].
  split; [exact (H2 3%nat) | exact (H1 1%nat chainB eq_refl)].
Defined.

Lemma finished_simulation_is_still_witness :
  run rand50 (mkWorld [seedParticle] 0) 5 = mkWorld [seedParticle] 0
  /\ updateParticles rand50 (mkWorld [] 7) = mkWorld [] 7.
Proof.
  split.
  - refine (proj2 (finished_simulation_is_still rand50 (mkWorld [seedParticle] 0) 5 _)).
    repeat constructor.
  - refine (proj1 (finished_simulation_is_still rand50 (mkWorld [] 7) 0 _)).
    constructor.
Defined.

Lemma initial_particles_witness :
  particles (initialize rand50 2) !! 2%nat
  = Some (mkParticle (randomCoordinate rand50 6) (randomCoordinate rand50 7)
                     (randomCoordinate rand50 8) PARTICLE_RADIUS false
                     (randomVelocity rand50 9) (randomVelocity rand50 10)
                     (randomVelocity rand50 11))
  /\ le (randomCoordinate rand50 0) (decimal 99 100) = true.
Proof.
  pose proof (initial_particles rand50 2) as (_ & _ & H3 & H4).
  split.
  - exact (H3 1%nat ltac:(lia)).
  - destruct (H4 0%nat (Pos2Z.is_nonneg 50)) as (_ & _ & H & _). exact H.
Defined.

(** * The scene *)

Lemma glCalls_app (depth : MatrixMode -> nat) (cs cs' : list GLCall) (s : GLState) :
  glCalls depth s (cs ++ cs') = glCalls depth (glCalls depth s cs) cs'.
Proof. apply fold_left_app. Qed.

Lemma spheres_app (depth : MatrixMode -> nat) (cs cs' : list GLCall) :
  forall s : GLState,
    spheres depth s (cs ++ cs')
    = spheres depth s cs ++ spheres depth (glCalls depth s cs) cs'.
Proof.
  induction cs as [|c cs IH]; intros s; [reflexivity|].
  destruct c; cbn [app spheres]; rewrite ?IH; reflexivity.
Qed.

(** The body of the loop, from a state in the mode [GL_MODELVIEW] whose
    stack has room for one matrix: one sphere, under the current matrix
    multiplied by the translation to the particle; the matrices are left as
    they were found. *)
Lemma renderParticle_calls (depth : MatrixMode -> nat) (s : GLState) (p : Particle) :
  matrixMode s = GL_MODELVIEW ->
  (S (length (modelviewSaved s)) < depth GL_MODELVIEW)%nat ->
  glCalls depth s (renderParticle p)
  = mkGLState GL_MODELVIEW (modelview s) (modelviewSaved s)
              (projection s) (projectionSaved s) (color p)
  /\ spheres depth s (renderParticle p)
     = [(modelview s ++ [translation (x p) (y p) (z p)], color p,
         converted (radius p))].
Proof.
  intros Hm Hd. apply Nat.ltb_lt in Hd.
  destruct s as [mode mv mvs pr prs df].
  cbn [matrixMode modelviewSaved] in Hm, Hd. subst mode.
  unfold renderParticle, glCalls.
  cbn [fold_left spheres glCall savedMatrices currentMatrix setMatrices multiply
       matrixMode modelview modelviewSaved projection projectionSaved diffuse].
  rewrite Hd.
  cbn [fold_left spheres glCall savedMatrices currentMatrix setMatrices multiply
       matrixMode modelview modelviewSaved projection projectionSaved diffuse].
  split; reflexivity.
Qed.

Lemma renderLoop_calls (depth : MatrixMode -> nat) (ps : list Particle) :
  forall s : GLState,
    matrixMode s = GL_MODELVIEW ->
    (S (length (modelviewSaved s)) < depth GL_MODELVIEW)%nat ->
    spheres depth s (flat_map renderParticle ps)
    = map (fun p => (modelview s ++ [translation (x p) (y p) (z p)], color p,
                     converted (radius p))) ps
    /\ matrixMode (glCalls depth s (flat_map renderParticle ps)) = GL_MODELVIEW
    /\ modelview (glCalls depth s (flat_map renderParticle ps)) = modelview s
    /\ modelviewSaved (glCalls depth s (flat_map renderParticle ps))
       = modelviewSaved s
    /\ projection (glCalls depth s (flat_map renderParticle ps)) = projection s
    /\ projectionSaved (glCalls depth s (flat_map renderParticle ps))
       = projectionSaved s.
Proof.
  induction ps as [|p ps IH]; intros s Hm Hd.
  - unfold glCalls. cbn [flat_map map spheres fold_left].
    split; [reflexivity|]. split; [exact Hm|]. repeat split.
  - cbn [flat_map map]. rewrite spheres_app, glCalls_app.
    destruct (renderParticle_calls depth s p Hm Hd) as [-> ->].
    destruct (IH (mkGLState GL_MODELVIEW (modelview s) (modelviewSaved s)
                    (projection s) (projectionSaved s) (color p))
                eq_refl Hd) as (-> & -> & -> & -> & -> & ->).
    repeat split.
Qed.

(** The state in which the loop is entered: lines 135-142. *)
Lemma renderScene_prologue (depth : MatrixMode -> nat) (s : GLState) :
  glCalls depth s
    [ glClear [GL_COLOR_BUFFER_BIT; GL_DEPTH_BUFFER_BIT];
      glMatrixMode GL_MODELVIEW;
      glLoadIdentity;
      gluLookAt (literal 2 1) (literal 2 1) (literal 2 1)
                (literal 0 1) (literal 0 1) (literal 0 1)
                (literal 0 1) (literal 1 1) (literal 0 1) ]
  = mkGLState GL_MODELVIEW [camera] (modelviewSaved s)
              (projection s) (projectionSaved s) (diffuse s).
Proof. reflexivity. Qed.

Lemma renderScene_split (ps : list Particle) :
  renderScene ps
  = [ glClear [GL_COLOR_BUFFER_BIT; GL_DEPTH_BUFFER_BIT];
      glMatrixMode GL_MODELVIEW;
      glLoadIdentity;
      gluLookAt (literal 2 1) (literal 2 1) (literal 2 1)
                (literal 0 1) (literal 0 1) (literal 0 1)
                (literal 0 1) (literal 1 1) (literal 0 1) ]
    ++ (flat_map renderParticle ps ++ [glutSwapBuffers]).
Proof. reflexivity. Qed.

Lemma spheres_renderScene (depth : MatrixMode -> nat) (s : GLState)
    (ps : list Particle) :
  (S (length (modelviewSaved s)) < depth GL_MODELVIEW)%nat ->
  spheres depth s (renderScene ps) = map shown ps.
Proof.
  intros Hd. rewrite renderScene_split, spheres_app, renderScene_prologue.
  rewrite spheres_app.
  destruct (renderLoop_calls depth ps
              (mkGLState GL_MODELVIEW [camera] (modelviewSaved s)
                 (projection s) (projectionSaved s) (diffuse s)) eq_refl Hd)
    as (-> & _).
  cbn [spheres modelview app]. rewrite app_nil_r. reflexivity.
Qed.

Lemma glCalls_renderScene (depth : MatrixMode -> nat) (s : GLState)
    (ps : list Particle) :
  (S (length (modelviewSaved s)) < depth GL_MODELVIEW)%nat ->
  matrixMode (glCalls depth s (renderScene ps)) = GL_MODELVIEW
  /\ modelview (glCalls depth s (renderScene ps)) = [camera]
  /\ modelviewSaved (glCalls depth s (renderScene ps)) = modelviewSaved s
  /\ projection (glCalls depth s (renderScene ps)) = projection s
  /\ projectionSaved (glCalls depth s (renderScene ps)) = projectionSaved s.
Proof.
  intros Hd. rewrite renderScene_split, glCalls_app, renderScene_prologue.
  rewrite glCalls_app.
  destruct (renderLoop_calls depth ps
              (mkGLState GL_MODELVIEW [camera] (modelviewSaved s)
                 (projection s) (projectionSaved s) (diffuse s)) eq_refl Hd)
    as (_ & Hm & Hv & Hs & Hp & Hq).
  cbn [glCalls fold_left glCall]. auto.
Qed.

(** The matrices saved at every point of the loop of lines 145-159. *)
Lemma renderLoop_saved (depth : MatrixMode -> nat) (ps : list Particle)
    (rest : list GLCall) (saved : list Matrix) :
  (S (length saved) < depth GL_MODELVIEW)%nat ->
  (forall s k, matrixMode s = GL_MODELVIEW -> modelviewSaved s = saved ->
               modelviewSaved (glCalls depth s (take k rest)) = saved) ->
  forall s k,
    matrixMode s = GL_MODELVIEW -> modelviewSaved s = saved ->
    modelviewSaved (glCalls depth s (take k (flat_map renderParticle ps ++ rest)))
    = saved
    \/ exists m, modelviewSaved
                   (glCalls depth s (take k (flat_map renderParticle ps ++ rest)))
                 = m :: saved.
Proof.
  intros Hd Hrest. induction ps as [|p ps IH]; intros s k Hm Hs.
  - left. now apply Hrest.
  - cbn [flat_map]. rewrite <- app_assoc.
    assert (Hd' : (S (length (modelviewSaved s)) <? depth GL_MODELVIEW)%nat = true).
    { rewrite Hs. now apply Nat.ltb_lt. }
    destruct s as [mode mv mvs pr prs df].
    cbn [matrixMode modelviewSaved] in Hm, Hs, Hd'. subst mode mvs.
    destruct k as [|k]; [left; reflexivity|].
    destruct k as [|k].
    { right. exists mv. unfold glCalls.
      cbn [take app renderParticle fold_left glCall savedMatrices currentMatrix
           setMatrices multiply matrixMode modelview modelviewSaved projection
           projectionSaved diffuse].
      rewrite Hd'. reflexivity. }
    destruct k as [|k].
    { right. exists mv. unfold glCalls.
      cbn [take app renderParticle fold_left glCall savedMatrices currentMatrix
           setMatrices multiply matrixMode modelview modelviewSaved projection
           projectionSaved diffuse].
      rewrite Hd'. reflexivity. }
    destruct k as [|k].
    { right. exists mv. unfold glCalls.
      cbn [take app renderParticle fold_left glCall savedMatrices currentMatrix
           setMatrices multiply matrixMode modelview modelviewSaved projection
           projectionSaved diffuse].
      rewrite Hd'. reflexivity. }
    destruct k as [|k].
    { right. exists mv. unfold glCalls.
      cbn [take app renderParticle fold_left glCall savedMatrices currentMatrix
           setMatrices multiply matrixMode modelview modelviewSaved projection
           projectionSaved diffuse].
      rewrite Hd'. reflexivity. }
    change (take (S (S (S (S (S k)))))
              (renderParticle p ++ flat_map renderParticle ps ++ rest))
      with (renderParticle p ++ take k (flat_map renderParticle ps ++ rest)).
    rewrite glCalls_app.
    destruct (renderParticle_calls depth
                (mkGLState GL_MODELVIEW mv saved pr prs df) p eq_refl Hd) as [-> _].
    apply IH; reflexivity.
Qed.

Lemma color_cases (p : Particle) :
  color p = (if isAttached p then blue else red).
Proof. reflexivity. Qed.

(** What [renderScene] draws, whatever the state of OpenGL in which it is
    called, provided the modelview stack has room for one more matrix.  The
    spheres are those of the particles of the vector, one for each, in the
    order of the vector; each is drawn under the matrix of the camera
    multiplied by the translation to the position of its particle, and by
    nothing else: the translations do not add up from a particle to the next.
    Each has the radius and the colour of its particle, and the colour tells
    the attached from the free.  At the end the mode is [GL_MODELVIEW], the
    current matrix is the camera's, the matrices saved on the modelview stack
    and the projection are as they were found; at every point at most one
    matrix more is saved than [renderScene] found. *)
Theorem renderScene_draws_the_particles (depth : MatrixMode -> nat) (s : GLState)
    (ps : list Particle) :
  (S (length (modelviewSaved s)) < depth GL_MODELVIEW)%nat ->
  spheres depth s (renderScene ps) = map shown ps
  /\ (forall p q : Particle, color p = color q <-> isAttached p = isAttached q)
  /\ matrixMode (glCalls depth s (renderScene ps)) = GL_MODELVIEW
  /\ modelview (glCalls depth s (renderScene ps)) = [camera]
  /\ modelviewSaved (glCalls depth s (renderScene ps)) = modelviewSaved s
  /\ projection (glCalls depth s (renderScene ps)) = projection s
  /\ projectionSaved (glCalls depth s (renderScene ps)) = projectionSaved s
  /\ (forall k : nat,
        modelviewSaved (glCalls depth s (take k (renderScene ps))) = modelviewSaved s
        \/ exists m, modelviewSaved (glCalls depth s (take k (renderScene ps)))
                     = m :: modelviewSaved s).
Proof.
  intros Hd.
  split; [now apply spheres_renderScene|].
  split.
  { intros p q. rewrite !color_cases.
    destruct (isAttached p), (isAttached q); split; auto; intros H;
      try discriminate; vm_compute in H; discriminate. }
  destruct (glCalls_renderScene depth s ps Hd) as (H1 & H2 & H3 & H4 & H5).
  split; [exact H1|]. split; [exact H2|]. split; [exact H3|].
  split; [exact H4|]. split; [exact H5|].
  intros k. rewrite renderScene_split.
  do 4 (destruct k as [|k]; [left; reflexivity|]).
  match goal with
  | |- context [take (S (S (S (S k)))) (?pre ++ ?l)] =>
      change (take (S (S (S (S k)))) (pre ++ l)) with (pre ++ take k l)
  end.
  rewrite glCalls_app, renderScene_prologue.
  apply renderLoop_saved; auto.
  intros s' j Hm Hs. destruct j as [|[|j]]; cbn; exact Hs.
Qed.

Lemma renderScene_draws_the_particles_witness :
  spheres (fun _ => 32%nat) initialGLState (renderScene [seedParticle; chainA])
  = [ ([camera; translation zero zero zero], blue,
       converted (mul PARTICLE_RADIUS (of_int 2)));
      ([camera; translation (decimal 5 100) zero zero], red,
       converted PARTICLE_RADIUS) ].
Proof.
  refine (proj1 (renderScene_draws_the_particles (fun _ => 32%nat) initialGLState
                   [seedParticle; chainA] _)).
  vm_compute. lia.
Defined.

(** ** The frames of a run *)

Lemma blueCount_attached (ps : list Particle) :
  blueCount (map shown ps) = length (filter (fun p => isAttached p = true) ps).
Proof.
  unfold blueCount.
  induction ps as [|p ps IH]; auto.
  cbn [map]. rewrite !filter_cons. cbn [shown fst snd]. rewrite color_cases.
  destruct (isAttached p) eqn:Ha.
  - rewrite decide_True by reflexivity. rewrite decide_True by reflexivity.
    cbn [length]. f_equal. exact IH.
  - rewrite decide_False by (vm_compute; discriminate).
    rewrite decide_False by discriminate. exact IH.
Qed.

Lemma evolves_attached_count (l l' : list Particle) :
  Forall2 evolves l l' ->
  (length (filter (fun p => isAttached p = true) l)
   <= length (filter (fun p => isAttached p = true) l'))%nat.
Proof.
  induction 1 as [|p p' l l' Hev _ IH]; auto.
  rewrite !filter_cons. unfold evolves in Hev.
  destruct (isAttached p) eqn:Ha.
  - subst p'. rewrite ?Ha. rewrite !decide_True by reflexivity. cbn [length]. lia.
  - rewrite decide_False by discriminate.
    destruct (decide (isAttached p' = true)); cbn [length]; lia.
Qed.

Lemma frame_run (rand : nat -> Z) (w : World) (k : nat) :
  frame rand w k = renderScene (particles (run rand w k)).
Proof. reflexivity. Qed.

(** The frames of a run: what [renderScene] draws after [k] firings of the
    timer, from [initialize] with [n] free particles ([rand()] being
    non-negative, the modelview stack having room for one more matrix).  One
    sphere for each of the [1 + n] particles; the first is the seed, blue, of
    radius [PARTICLE_RADIUS * 2], drawn under the camera and the translation
    to the origin; every sphere is drawn under the camera and one translation,
    to a point of the cube, is blue or red, and has one of three radii; and
    the number of blue spheres, at least one and at most [1 + n], never
    decreases from a frame to the next. *)
Theorem frames_of_a_run (rand : nat -> Z) (n k : nat)
    (depth : MatrixMode -> nat) (s : GLState) :
  (forall j, 0 <= rand j) ->
  (S (length (modelviewSaved s)) < depth GL_MODELVIEW)%nat ->
  length (spheres depth s (frame rand (initialize rand n) k)) = S n
  /\ spheres depth s (frame rand (initialize rand n) k) !! 0%nat
     = Some ([camera; translation zero zero zero], blue,
             converted (mul PARTICLE_RADIUS (of_int 2)))
  /\ (forall M m r,
        (M, m, r) ∈ spheres depth s (frame rand (initialize rand n) k) ->
        (exists tx ty tz,
            M = [camera; translation tx ty tz]
            /\ inside tx = true /\ inside ty = true /\ inside tz = true)
        /\ ((m = red /\ r = converted PARTICLE_RADIUS)
            \/ (m = blue
                /\ (r = converted (mul PARTICLE_RADIUS (of_int 2))
                    \/ r = converted (add PARTICLE_RADIUS GROWTH_RATE)))))
  /\ (1 <= blueCount (spheres depth s (frame rand (initialize rand n) k))
      <= blueCount (spheres depth s (frame rand (initialize rand n) (S k))))%nat
  /\ (blueCount (spheres depth s (frame rand (initialize rand n) (S k))) <= S n)%nat.
Proof.
  intros Hrand Hd.
  rewrite !frame_run, !(spheres_renderScene depth s _ Hd), !blueCount_attached.
  set (w := run rand (initialize rand n) k).
  assert (Hlen : length (particles w) = S n).
  { unfold w. rewrite run_length. apply initialize_length. }
  assert (Hseed : particles w !! 0%nat = Some seedParticle) by apply run_seed.
  split; [now rewrite length_map|].
  split; [now rewrite list_lookup_fmap, Hseed|].
  split; [|split].
  - intros M m r Hs. apply list_elem_of_fmap in Hs as (p & E & Hp).
    unfold shown in E. injection E as -> -> ->.
    pose proof (simulation_sound rand n k Hrand) as Hso.
    rewrite Forall_forall in Hso. destruct (Hso p Hp) as [(Hb & _) Hset].
    unfold inBox in Hb. apply andb_true_iff in Hb as [Hb Iz].
    apply andb_true_iff in Hb as [Ix Iy].
    split; [exists (x p), (y p), (z p); auto|].
    rewrite color_cases. unfold settled in Hset.
    destruct (isAttached p).
    + right. split; [reflexivity|].
      destruct Hset as (_ & _ & _ & [-> | ->]); [left | right]; reflexivity.
    + left. now rewrite Hset.
  - split.
    + destruct (particles w) as [|p ps] eqn:E; [discriminate|].
      injection Hseed as ->. rewrite filter_cons_True by reflexivity.
      cbn [length]. lia.
    + change (run rand (initialize rand n) (S k)) with (updateParticles rand w).
      apply evolves_attached_count, updateParticles_evolves.
  - change (run rand (initialize rand n) (S k)) with (updateParticles rand w).
    rewrite <- Hlen, <- (updateParticles_length rand w).
    apply length_filter.
Qed.

Lemma frames_of_a_run_witness :
  length (spheres (fun _ => 32%nat) initialGLState
            (frame rand50 (initialize rand50 2) 3)) = 3%nat
  /\ (1 <= blueCount (spheres (fun _ => 32%nat) initialGLState
                        (frame rand50 (initialize rand50 2) 3)))%nat.
Proof.
  assert (Hd : (S (length (modelviewSaved initialGLState)) < 32)%nat)
    by (vm_compute; lia).
  pose proof (frames_of_a_run rand50 2 3 (fun _ => 32%nat) initialGLState
                (fun _ => Pos2Z.is_nonneg 50) Hd)
    as (H1 & _ & _ & [H2 _] & _).
  exact (conj H1 H2).
Defined.

(** * The aspect ratio of reshape *)

(** An [int] that is not zero converts to a normal float, of its sign. *)
Lemma of_int_normal (n : Z) :
  isInt n -> n <> 0 ->
  exists (m : positive) (e : Z),
    of_int n = S754_finite (n <? 0) m e
    /\ 2 ^ 23 <= Zpos m < 2 ^ 24 /\ -23 <= e <= 8.
Proof.
  intros Hn Hn0. unfold isInt in Hn.
  assert (H : exists p : positive, Zpos p <= 2 ^ 31
                /\ of_int n = binary_round prec emax (n <? 0) p 0).
  { destruct n as [|p|p]; [lia | |].
    - exists p. split; [lia | reflexivity].
    - exists p. split; [lia | reflexivity]. }
  destruct H as (p & Hp & ->). set (s := n <? 0). clearbody s.
  assert (HU : val (Zpos p) 0 <= val 8388608 8).
  { replace (val 8388608 8) with (val (2 ^ 31) 0) by (vm_compute; reflexivity).
    apply val_mono; lia. }
  destruct (binary_round_lower s p 0 ltac:(lia)) as (p1 & e1 & He1 & E1).
  destruct (binary_round_upper s p 0 8388608 8 ltac:(lia) eq_refl HU)
    as [E0 | (p2 & e2 & E2 & Hb & Hv)].
  - rewrite E0 in E1. destruct (e1 <=? 104); discriminate.
  - exists p2, e2. split; [exact E2|].
    rewrite E2 in E1.
    assert (e2 = e1) as -> by (destruct (e1 <=? 104); congruence).
    pose proof (bounded_canonical _ _ Hb) as [_ Hr].
    pose proof (bounded_mantissa _ _ Hb) as [Hm1 Hm2].
    assert (-23 <= e1) by lia.
    split; [split; [apply Hm2; lia | exact Hm1]|]. split; [lia|].
    destruct (Z.le_gt_cases e1 8) as [|Hgt]; auto. exfalso.
    pose proof (val_ge_pow (Zpos p2) e1 24 (Hm2 ltac:(lia)) ltac:(lia) ltac:(lia)) as V.
    replace (val 8388608 8) with (2 ^ 1031) in Hv by (vm_compute; reflexivity).
    assert (2 ^ 1032 <= 2 ^ (24 - 1 + e1 + 1000)) by (apply Z.pow_le_mono_r; lia).
    assert (2 ^ 1031 < 2 ^ 1032) by (apply Z.pow_lt_mono_r; lia).
    lia.
Qed.

Lemma digits_normal (m : positive) :
  2 ^ 23 <= Zpos m < 2 ^ 24 -> Zpos (digits2_pos m) = 24.
Proof.
  intros [H1 H2]. apply Z.le_antisymm; [now apply digits_le | now apply digits_ge].
Qed.

(** The quotient of two normal floats of moderate exponents is a finite
    float, not zero, of the sign of the quotient. *)
Lemma div_normal (sa sb : bool) (ma mb : positive) (ea eb : Z) :
  2 ^ 23 <= Zpos ma < 2 ^ 24 -> 2 ^ 23 <= Zpos mb < 2 ^ 24 ->
  -23 <= ea <= 8 -> -23 <= eb <= 8 ->
  exists (p : positive) (e : Z),
    div (S754_finite sa ma ea) (S754_finite sb mb eb) = S754_finite (xorb sa sb) p e.
Proof.
  intros Ha Hb Hea Heb. unfold div, SFdiv, SFdiv_core_binary.
  change (Zdigits2 (Zpos ma)) with (Zpos (digits2_pos ma)).
  change (Zdigits2 (Zpos mb)) with (Zpos (digits2_pos mb)).
  rewrite (digits_normal ma Ha), (digits_normal mb Hb). cbv zeta.
  rewrite fexp_eq.
  replace (Z.min (Z.max (24 + ea - (24 + eb) - 24) (-149)) (ea - eb))
    with (ea - eb - 24) by lia.
  replace (ea - eb - (ea - eb - 24)) with 24 by lia.
  cbv iota. rewrite Z.shiftl_mul_pow2 by lia.
  destruct (Z.div_eucl (Zpos ma * 2 ^ 24) (Zpos mb)) as [q r] eqn:Eq.
  assert (Hq : q = Zpos ma * 2 ^ 24 / Zpos mb) by (unfold Z.div; now rewrite Eq).
  assert (Hq1 : 2 ^ 23 <= q).
  { rewrite Hq. apply Z.div_le_lower_bound; [lia|].
    apply Z.le_trans with (2 ^ 24 * 2 ^ 23); [apply Z.mul_le_mono_nonneg_r; lia|].
    rewrite (Z.mul_comm (Zpos ma)). apply Z.mul_le_mono_nonneg_l; lia. }
  assert (Hq2 : q < 2 ^ 25).
  { rewrite Hq. apply Z.div_lt_upper_bound; [lia|].
    apply Z.lt_le_trans with (2 ^ 24 * 2 ^ 24); [apply Z.mul_lt_mono_pos_r; lia|].
    change (2 ^ 25) with (2 * 2 ^ 24). change (2 ^ 24 * 2 ^ 24) with (2 ^ 23 * (2 * 2 ^ 24)).
    apply Z.mul_le_mono_nonneg_r; lia. }
  destruct q as [|q|q]; try lia.
  assert (Hd : 24 <= Zpos (digits2_pos q) <= 25).
  { split; [now apply digits_ge | apply digits_le; lia]. }
  set (l := new_location (Zpos mb) r).
  destruct (round_lower (xorb sa sb) q (ea - eb - 24) l) as (p1 & e1 & _ & E1).
  { rewrite fexp_eq. lia. }
  { lia. }
  destruct (round_bound (xorb sa sb) (Zpos q) (ea - eb - 24) l ltac:(lia))
    as [E0 | (p2 & e2 & _ & He2 & E2)].
  - rewrite E0 in E1. destruct (e1 <=? 104); discriminate.
  - change (Zdigits2 (Zpos q)) with (Zpos (digits2_pos q)) in He2.
    rewrite fexp_eq in He2.
    destruct (Z.leb_spec e2 104); [|lia]. exists p2, e2. exact E2.
Qed.

(** A float divided by itself is exactly one. *)
Lemma div_self (s : bool) (m : positive) (e : Z) :
  div (S754_finite s m e) (S754_finite s m e) = of_int 1.
Proof.
  unfold div, SFdiv, SFdiv_core_binary. cbv zeta.
  replace (Zdigits2 (Zpos m) + e - (Zdigits2 (Zpos m) + e)) with 0 by lia.
  rewrite Z.sub_diag.
  change (Z.min (fexp prec emax 0) 0) with (-24).
  change (0 - -24) with 24. cbv iota.
  rewrite Z.shiftl_mul_pow2 by lia.
  assert (Eq : Z.div_eucl (Zpos m * 2 ^ 24) (Zpos m) = (2 ^ 24, 0)).
  { pose proof (Z.div_eucl_eq (Zpos m * 2 ^ 24) (Zpos m) ltac:(lia)) as H.
    pose proof (Z.mod_pos_bound (Zpos m * 2 ^ 24) (Zpos m) ltac:(lia)) as Hr.
    unfold Z.modulo in Hr.
    destruct (Z.div_eucl (Zpos m * 2 ^ 24) (Zpos m)) as [q r].
    assert (q = 2 ^ 24 /\ r = 0) as [-> ->]; [|reflexivity].
    assert (Zpos m * (2 ^ 24 - q) = r) by lia.
    assert (2 ^ 24 - q = 0) by nia. lia. }
  rewrite Eq, xorb_nilpotent.
  assert (El : new_location (Zpos m) 0 = loc_Exact).
  { unfold new_location, new_location_even, new_location_odd.
    destruct (Z.even (Zpos m)); reflexivity. }
  rewrite El. vm_compute. reflexivity.
Qed.

(** The aspect ratio that [reshape] passes to [gluPerspective] is a finite
    float exactly when [height] is not zero.  With a height of zero the
    division is made all the same: the ratio is a NaN for a width of zero and
    an infinity of the sign of [width] otherwise. *)
Theorem reshape_with_zero_height (width height : Z) :
  isInt width -> isInt height ->
  (is_finite (aspectRatio width height) = true <-> height <> 0)
  /\ aspectRatio width 0
     = (if width =? 0 then S754_nan else S754_infinity (width <? 0))
  /\ gluPerspective (literal 45 1) (converted (aspectRatio width height))
                    (literal 1 10) (literal 100 1)
     ∈ reshape width height.
Proof.
  intros Hw Hh.
  assert (H0 : aspectRatio width 0
               = (if width =? 0 then S754_nan else S754_infinity (width <? 0))).
  { unfold aspectRatio. destruct (Z.eqb_spec width 0) as [-> | Hne]; [reflexivity|].
    destruct (of_int_normal width Hw Hne) as (m & e & -> & _).
    simpl. now rewrite xorb_false_r. }
  split; [|split; [exact H0|]].
  - split.
    + intros Hf ->. rewrite H0 in Hf. destruct (width =? 0); discriminate.
    + intros Hne. unfold aspectRatio.
      destruct (of_int_normal height Hh Hne) as (mb & eb & -> & Hmb & Heb).
      destruct (Z.eq_dec width 0) as [-> | Hw0]; [reflexivity|].
      destruct (of_int_normal width Hw Hw0) as (ma & ea & -> & Hma & Hea).
      destruct (div_normal (width <? 0) (height <? 0) ma mb ea eb Hma Hmb Hea Heb)
        as (p & e & ->).
      reflexivity.
  - unfold reshape. do 3 apply list_elem_of_further. apply list_elem_of_here.
Qed.

(** For a window of positive width and height the aspect ratio is a
    positive finite float, and for a square window it is exactly [1]. *)
Theorem reshape_aspect (width height : Z) :
  isInt width -> isInt height -> 0 < width -> 0 < height ->
  is_finite (aspectRatio width height) = true
  /\ lt zero (aspectRatio width height) = true
  /\ aspectRatio width width = of_int 1.
Proof.
  intros Hw Hh Hw0 Hh0. unfold aspectRatio.
  destruct (of_int_normal width Hw ltac:(lia)) as (ma & ea & Ea & Hma & Hea).
  destruct (of_int_normal height Hh ltac:(lia)) as (mb & eb & Eb & Hmb & Heb).
  rewrite Ea, Eb.
  destruct (div_normal (width <? 0) (height <? 0) ma mb ea eb Hma Hmb Hea Heb)
    as (p & e & ->).
  replace (width <? 0) with false by (symmetry; apply Z.ltb_ge; lia).
  replace (height <? 0) with false by (symmetry; apply Z.ltb_ge; lia).
  split; [reflexivity|]. split; [reflexivity|]. apply div_self.
Qed.

Lemma reshape_with_zero_height_witness :
  is_finite (aspectRatio 800 600) = true
  /\ aspectRatio 800 0 = S754_infinity false
  /\ aspectRatio 0 0 = S754_nan.
Proof.
  assert (H800 : isInt 800) by (unfold isInt; lia).
  assert (H600 : isInt 600) by (unfold isInt; lia).
  assert (H0 : isInt 0) by (unfold isInt; lia).
  split; [|split].
  - apply (proj1 (reshape_with_zero_height 800 600 H800 H600)). discriminate.
  - exact (proj1 (proj2 (reshape_with_zero_height 800 0 H800 H0))).
  - exact (proj1 (proj2 (reshape_with_zero_height 0 0 H0 H0))).
Defined.

Lemma reshape_aspect_witness :
  lt zero (aspectRatio 800 600) = true /\ aspectRatio 800 800 = of_int 1.
Proof.
  assert (H800 : isInt 800) by (unfold isInt; lia).
  assert (H600 : isInt 600) by (unfold isInt; lia).
  destruct (reshape_aspect 800 600 H800 H600 ltac:(lia) ltac:(lia)) as (_ & H1 & H2).
  exact (conj H1 H2).
Defined.

(** * Ties in the search *)

Lemma lt_not_le (a b : float) : lt a b = true -> le b a = false.
Proof.
  intros H. apply lt_iff in H as (Na & Nb & L).
  destruct (le b a) eqn:E; auto.
  apply le_iff in E as (_ & _ & N). contradiction.
Qed.

Lemma le_lt_trans (a b c : float) : le a b = true -> lt b c = true -> lt a c = true.
Proof.
  rewrite le_iff, !lt_iff. intros (Na & Nb & L1) (_ & Nc & L2).
  repeat split; auto.
  destruct (rank a) as [[? ?] ?], (rank b) as [[? ?] ?], (rank c) as [[? ?] ?].
  unfold lexlt in *. lia.
Qed.

(** The attached particles that the scan meets before the one it returns
    are not at a distance below or equal to the one returned. *)
Lemma scanNearest_first (p : Particle) (others : list Particle) :
  forall (j : nat) (d0 : float) (n0 : option nat) (k : nat),
    snd (scanNearest p others j d0 n0) = Some (j + k)%nat ->
    (forall m, n0 = Some m -> (m < j)%nat) ->
    forall (i : nat) (q : Particle),
      (i < k)%nat -> others !! i = Some q -> isAttached q = true ->
      le (distance p q) (fst (scanNearest p others j d0 n0)) = false.
Proof.
  induction others as [|o rest IH]; intros j d0 n0 k Hr Hn0 i q Hi Hq Ha.
  - discriminate Hq.
  - destruct k as [|k]; [lia|].
    replace (j + S k)%nat with (S j + k)%nat in Hr by lia.
    cbn [scanNearest] in Hr |- *.
    set (d1 := if negb (isAttached o) then d0
               else if lt (distance p o) d0 then distance p o else d0).
    set (n1 := if negb (isAttached o) then n0
               else if lt (distance p o) d0 then Some j else n0).
    assert (E : (if negb (isAttached o)
                 then scanNearest p rest (S j) d0 n0
                 else if lt (distance p o) d0
                      then scanNearest p rest (S j) (distance p o) (Some j)
                      else scanNearest p rest (S j) d0 n0)
                = scanNearest p rest (S j) d1 n1).
    { unfold d1, n1. destruct (negb (isAttached o)); auto.
      destruct (lt (distance p o) d0); auto. }
    rewrite E in Hr |- *.
    assert (Hn1 : forall m, n1 = Some m -> (m < S j)%nat).
    { intros m. unfold n1. destruct (negb (isAttached o)).
      - intros H. specialize (Hn0 m H). lia.
      - destruct (lt (distance p o) d0).
        + intros H. injection H as <-. lia.
        + intros H. specialize (Hn0 m H). lia. }
    destruct i as [|i].
    + injection Hq as ->.
      destruct (scanNearest_spec p rest (S j) d1 n1) as [[[E1 E2] | (L & _)] _].
      * rewrite Hr in E2. symmetry in E2. specialize (Hn1 _ E2). lia.
      * unfold d1 in L |- *. rewrite Ha in L |- *. cbn [negb] in L |- *.
        destruct (lt (distance p q) d0) eqn:Hlt.
        -- now apply lt_not_le.
        -- destruct (le (distance p q) (fst (scanNearest p rest (S j) d0 n1))) eqn:Hle;
             auto.
           pose proof (le_lt_trans _ _ _ Hle L). congruence.
    + apply (IH (S j) d1 n1 k Hr Hn1 i q); auto. lia.
Qed.

(** The first of the nearest wins.  When the search returns the particle of
    index [j], every attached particle before it in the vector is strictly
    farther, or at a distance that is a NaN: among attached particles at the
    same least distance the search returns the one of least index. *)
Theorem first_of_the_nearest_wins (p : Particle) (ps : list Particle)
    (d : float) (j i : nat) (q : Particle) :
  findNearest p ps = (d, Some j) ->
  (i < j)%nat -> ps !! i = Some q -> isAttached q = true ->
  le (distance p q) d = false
  /\ (is_nan (distance p q) = false -> lt d (distance p q) = true).
Proof.
  intros Hf Hi Hq Ha. unfold findNearest in Hf.
  assert (H : le (distance p q) (fst (scanNearest p ps 0 INFINITY None)) = false).
  { apply (scanNearest_first p ps 0 INFINITY None j) with i; auto.
    - now rewrite Hf.
    - discriminate. }
  rewrite Hf in H. cbn [fst] in H. split; [exact H|].
  intros Hn.
  destruct (findNearest_spec p ps) as [[E | (j' & q' & E & _ & _ & Hd)] _];
    unfold findNearest in E; rewrite Hf in E; [discriminate|].
  injection E as -> _. apply lt_not_nan in Hd as [Nd _].
  destruct (lt (distance p q') (distance p q)) eqn:L; auto.
  rewrite (not_lt_le _ _ Nd Hn L) in H. discriminate.
Qed.

Lemma first_of_the_nearest_wins_witness :
  findNearest chainA [tieLeft; seedParticle] = (distance chainA seedParticle, Some 1%nat)
  /\ le (distance chainA tieLeft) (distance chainA seedParticle) = false
  /\ lt (distance chainA seedParticle) (distance chainA tieLeft) = true.
Proof.
  assert (Hf : findNearest chainA [tieLeft; seedParticle]
               = (distance chainA seedParticle, Some 1%nat))
    by (vm_compute; reflexivity).
  destruct (first_of_the_nearest_wins chainA [tieLeft; seedParticle]
              (distance chainA seedParticle) 1 0 tieLeft Hf
              ltac:(lia) eq_refl eq_refl) as [H1 H2].
  split; [exact Hf|]. split; [exact H1|]. apply H2. reflexivity.
Defined.

(** * The boundary checks, twice *)

Lemma bounce_bounce (c v : float) :
  bounce (fst (bounce c v)) (snd (bounce c v)) = bounce c v.
Proof.
  unfold bounce. destruct (lt c (neg BOUNDARY)) eqn:E1; cbn [fst snd].
  - replace (lt BOUNDARY (neg BOUNDARY)) with false by reflexivity.
    cbn [fst snd]. replace (lt (neg BOUNDARY) (neg BOUNDARY)) with false by reflexivity.
    cbn [fst snd]. replace (lt BOUNDARY (neg BOUNDARY)) with false by reflexivity.
    reflexivity.
  - destruct (lt BOUNDARY c) eqn:E2; cbn [fst snd].
    + replace (lt BOUNDARY (neg BOUNDARY)) with false by reflexivity.
      cbn [fst snd]. replace (lt BOUNDARY BOUNDARY) with false by reflexivity.
      reflexivity.
    + rewrite E1. cbn [fst snd]. rewrite E2. reflexivity.
Qed.

Lemma bounce_inside_fixed (c v : float) : inside c = true -> bounce c v = (c, v).
Proof.
  intros Hc. unfold inside in Hc. apply andb_true_iff in Hc as [H1 H2].
  unfold bounce.
  assert (E1 : lt c (neg BOUNDARY) = false).
  { destruct (lt c (neg BOUNDARY)) eqn:E; auto.
    apply lt_not_le in E. congruence. }
  assert (E2 : lt BOUNDARY c = false).
  { destruct (lt BOUNDARY c) eqn:E; auto. apply lt_not_le in E. congruence. }
  rewrite E1. cbn [fst snd]. now rewrite E2.
Qed.

(** The boundary checks of lines 82-87 applied a second time change
    nothing, for every particle; a particle inside the cube is not changed by
    them at all; they never change the radius or the flag; and a coordinate
    that is a NaN is left as it is, with its velocity. *)
Theorem boundaryChecks_idempotent (p : Particle) :
  boundaryChecks (boundaryChecks p) = boundaryChecks p
  /\ (inBox p = true -> boundaryChecks p = p)
  /\ radius (boundaryChecks p) = radius p
  /\ isAttached (boundaryChecks p) = isAttached p
  /\ (is_nan (x p) = true ->
      x (boundaryChecks p) = x p /\ dx (boundaryChecks p) = dx p).
Proof.
  split; [|split; [|split; [|split]]]; try reflexivity.
  - unfold boundaryChecks. cbn [x y z dx dy dz radius isAttached].
    now rewrite !bounce_bounce.
  - unfold inBox. intros H. apply andb_true_iff in H as [H Hz].
    apply andb_true_iff in H as [Hx Hy].
    unfold boundaryChecks.
    rewrite (bounce_inside_fixed _ (dx p) Hx), (bounce_inside_fixed _ (dy p) Hy),
      (bounce_inside_fixed _ (dz p) Hz).
    now destruct p.
  - intros Hn. unfold boundaryChecks. cbn [x dx].
    destruct (x p); try discriminate. split; reflexivity.
Qed.

Lemma boundaryChecks_idempotent_witness :
  boundaryChecks chainA = chainA
  /\ x (boundaryChecks (newParticle S754_nan zero zero false)) = S754_nan.
Proof.
  destruct (boundaryChecks_idempotent chainA) as (_ & H & _).
  destruct (boundaryChecks_idempotent (newParticle S754_nan zero zero false))
    as (_ & _ & _ & _ & H').
  split; [apply H; reflexivity|]. exact (proj1 (H' eq_refl)).
Defined.

(** ** The attachment test *)

Lemma pull_radius (p other : Particle) : radius (pull p other) = radius p.
Proof. unfold pull. now destruct (direction p other) as [[a b] c]. Qed.

Lemma pull_isAttached (p other : Particle) : isAttached (pull p other) = isAttached p.
Proof. unfold pull. now destruct (direction p other) as [[a b] c]. Qed.

(** With the radii of a run, the threshold of line 125 is below
    [ATTRACTION_RANGE]: the test of line 104 never hides an attachment. *)
Lemma attraction_attaches (p : Particle) (ps : list Particle)
    (d : float) (i : nat) (q : Particle) :
  isAttached p = false -> radius p = PARTICLE_RADIUS -> Forall settled ps ->
  findNearest p ps = (d, Some i) -> ps !! i = Some q ->
  isAttached q = true
  /\ d = distance p q
  /\ (isAttached (attraction p ps) = true
      <-> lt d (mul (add (radius q) PARTICLE_RADIUS) nine_tenths) = true).
Proof.
  intros Hp Hr Hs Hf Hq.
  destruct (findNearest_spec p ps) as [[E | (j & q' & E & Hj & Ha & _)] _];
    rewrite E in Hf; [discriminate Hf|].
  injection Hf as Hd Hi. subst j. rewrite Hq in Hj. injection Hj as <-.
  split; [exact Ha|]. split; [now symmetry|].
  assert (Hlt : lt (mul (add (radius q) PARTICLE_RADIUS) nine_tenths) ATTRACTION_RANGE
                = true).
  { rewrite Forall_forall in Hs.
    specialize (Hs q (list_elem_of_lookup_2 _ _ _ Hq)).
    unfold settled in Hs. rewrite Ha in Hs.
    destruct Hs as (_ & _ & _ & [-> | ->]); vm_compute; reflexivity. }
  unfold attraction. rewrite E, Hq. rewrite Hd.
  destruct (lt d ATTRACTION_RANGE) eqn:Hrange.
  - unfold attract. rewrite pull_radius, Hr.
    destruct (lt d (mul (add (radius q) PARTICLE_RADIUS) nine_tenths)) eqn:Ht.
    + split; reflexivity.
    + rewrite pull_isAttached, Hp. split; intros H; discriminate H.
  - rewrite Hp. split; intros H; [discriminate H|].
    rewrite (lt_trans _ _ _ H Hlt) in Hrange. discriminate Hrange.
Qed.

(** The free particle at [(0.05f, 0, 0)], at rest, between the seed and the
    grown particle at [(0.095f, 0, 0)], after one pass. *)
Lemma below_the_seed_threshold :
  exists p',
    particles (updateParticles rand50
                 (mkWorld [seedParticle; grownNeighbour; chainA] 0)) !! 2%nat
    = Some p'
    /\ isAttached p' = false
    /\ lt (distance p' seedParticle)
          (mul (add (radius seedParticle) PARTICLE_RADIUS) nine_tenths) = true
    /\ lt (distance p' grownNeighbour) (distance p' seedParticle) = true
    /\ lt (distance p' grownNeighbour)
          (mul (add (radius grownNeighbour) PARTICLE_RADIUS) nine_tenths) = false.
Proof.
  eexists. split; [vm_compute; reflexivity|].
  split; [reflexivity|]. split; [vm_compute; reflexivity|].
  split; vm_compute; reflexivity.
Qed.

Section Attachment.

Variable rand : nat -> Z.

Lemma before_settled (j : nat) (w : World) :
  Forall settled (particles w) -> Forall settled (particles (before rand j w)).
Proof.
  intros Hw. apply Forall_lookup. intros i p' Hp'.
  pose proof (updateLoop_evolves rand j 0 w) as Hev.
  destruct (Forall2_lookup_r _ _ _ _ _ Hev Hp') as (p & Hp & Hpp').
  eapply evolves_settled; [exact Hpp'|].
  eapply Forall_lookup_1; eauto.
Qed.

(** In a run of the simulation, whether a free particle attaches in a pass
    is decided by the nearest attached particle alone.  After its move, with
    [other] the attached particle the scan of lines 93-101 returns at the
    distance [minDist], the particle is attached at the end of its iteration
    exactly when [minDist < (other.radius + PARTICLE_RADIUS) * 0.9f]; the test
    against [ATTRACTION_RANGE] changes nothing to that, and with no attached
    particle found it is left as the move left it.  A particle below the
    threshold of an attached particle that is not the nearest one stays free:
    at [(0.05f, 0, 0)], at rest, it is below the seed's threshold, and nearer
    to a grown particle at [(0.095f, 0, 0)] whose threshold it is not
    below. *)
Theorem nearest_alone_decides (n t j : nat) (p : Particle) :
  let w := before rand j (run rand (initialize rand n) t) in
  let p1 := moveParticle rand (calls w) p in
  let ps1 := <[j := p1]> (particles w) in
  particles w !! j = Some p ->
  isAttached p = false ->
  particles (updateParticle rand j w) !! j = Some (attraction p1 ps1)
  /\ (forall minDist i other,
        findNearest p1 ps1 = (minDist, Some i) -> ps1 !! i = Some other ->
        isAttached other = true
        /\ minDist = distance p1 other
        /\ (isAttached (attraction p1 ps1) = true
            <-> lt minDist (mul (add (radius other) PARTICLE_RADIUS) nine_tenths)
                = true))
  /\ (forall minDist, findNearest p1 ps1 = (minDist, None) -> attraction p1 ps1 = p1)
  /\ (exists p',
        particles (updateParticles rand50
                     (mkWorld [seedParticle; grownNeighbour; chainA] 0)) !! 2%nat
        = Some p'
        /\ isAttached p' = false
        /\ lt (distance p' seedParticle)
              (mul (add (radius seedParticle) PARTICLE_RADIUS) nine_tenths) = true
        /\ lt (distance p' grownNeighbour) (distance p' seedParticle) = true
        /\ lt (distance p' grownNeighbour)
              (mul (add (radius grownNeighbour) PARTICLE_RADIUS) nine_tenths)
           = false).
Proof.
  intros w p1 ps1 Hp Ha.
  assert (Hw : Forall settled (particles w)).
  { apply before_settled, simulation_settled. }
  assert (Hp1 : settled p1).
  { unfold settled, p1. rewrite moveParticle_isAttached, Ha, moveParticle_radius.
    rewrite Forall_forall in Hw.
    specialize (Hw p (list_elem_of_lookup_2 _ _ _ Hp)).
    unfold settled in Hw. now rewrite Ha in Hw. }
  assert (Hps1 : Forall settled ps1).
  { unfold ps1. apply Forall_insert; assumption. }
  split; [|split; [|split]].
  - unfold updateParticle. rewrite Hp, Ha. cbn [particles].
    fold p1. fold ps1. apply list_lookup_insert_eq.
    unfold ps1. rewrite length_insert. eapply lookup_lt_Some; eauto.
  - intros minDist i other Hf Hi.
    assert (Ha1 : isAttached p1 = false) by exact Ha.
    apply (attraction_attaches p1 ps1 minDist i other Ha1); auto.
    unfold settled in Hp1. now rewrite Ha1 in Hp1.
  - intros minDist Hf. unfold attraction. now rewrite Hf.
  - exact below_the_seed_threshold.
Qed.

End Attachment.

Lemma nearest_alone_decides_witness :
  let w := before randNear 1 (run randNear (initialize randNear 1) 0) in
  exists p,
    particles w !! 1%nat = Some p
    /\ isAttached p = false
    /\ findNearest (moveParticle randNear (calls w) p)
         (<[1%nat := moveParticle randNear (calls w) p]> (particles w))
       = (distance (moveParticle randNear (calls w) p) seedParticle, Some 0%nat)
    /\ isAttached (attraction (moveParticle randNear (calls w) p)
                     (<[1%nat := moveParticle randNear (calls w) p]> (particles w)))
       = true.
Proof.
  intros w.
  assert (Hp : exists p, particles w !! 1%nat = Some p /\ isAttached p = false
     /\ findNearest (moveParticle randNear (calls w) p)
          (<[1%nat := moveParticle randNear (calls w) p]> (particles w))
        = (distance (moveParticle randNear (calls w) p) seedParticle, Some 0%nat)
     /\ lt (distance (moveParticle randNear (calls w) p) seedParticle)
           (mul (add (radius seedParticle) PARTICLE_RADIUS) nine_tenths) = true).
  { eexists. split; [vm_compute; reflexivity|]. split; [reflexivity|].
    split; vm_compute; reflexivity. }
  destruct Hp as (p & Hp & Ha & Hf & Hlt). exists p.
  split; [exact Hp|]. split; [exact Ha|]. split; [exact Hf|].
  destruct (nearest_alone_decides randNear 1 0 1 p Hp Ha) as (_ & Hn & _).
  destruct (Hn _ 0%nat seedParticle Hf eq_refl) as (_ & _ & Hiff).
  apply Hiff. exact Hlt.
Defined.
